(** * alles-gesagt-scraper: the concurrent download pipeline of [scrape.py]

    The program starts [WORKER_COUNT] download workers and one console
    renderer, feeds a queue with one task per episode that is not on disk
    yet, waits for the queue to drain and then raises the [finish] flag.

    The threads are embedded as program counters, one constructor per
    source statement, and the whole program as an interleaving step
    function over the shared state (queue, registry, lock, flag, files)
    chosen by a schedule. What Python and the libraries do (dict, Queue,
    float division, [round], [int], [str.split], [os.path.join], the HTTP
    response, the terminal) is modelled next to it. The discovery of the
    episodes ([query_episodes]) is embedded as a function of what the
    HTML parser finds on each page. *)

From Stdlib Require Import ZArith QArith Qround Qpower Qabs Lia Lqa.
From Stdlib Require Import Ascii String DecimalString DecimalNat.
From stdpp Require Import base list strings gmap.

Open Scope Z_scope.

(* ===================================================================== *)
(** * Part I. Python values and library calls                             *)
(* ===================================================================== *)

(** Exceptions the worker can raise. *)
Inductive exn : Type :=
  | ConnectionError     (* requests.get could not reach the host *)
  | HTTPError           (* response.raise_for_status() *)
  | KeyError            (* headers["content-length"], del d[k] *)
  | ValueError          (* int(...) of a non-number, task_done() too often *)
  | ZeroDivisionError   (* written / length with length = 0 *)
  | OverflowError       (* int / int too large for a float *)
  | OSError             (* open(...), file.write(...), the flush at close *)
  | ChunkedEncodingError.   (* iter_content: the connection broke off *)

#[global] Instance exn_eq_dec : EqDecision exn.
Proof. solve_decision. Defined.

(** ** [dict]: insertion-ordered, one entry per key *)

Definition dict : Type := list (string * Z).

(** [d[k] = v]: overwrite in place, or append a new entry at the end. *)
Fixpoint dict_set (k : string) (v : Z) (d : dict) : dict :=
  match d with
  | [] => [(k, v)]
  | (k', v') :: d' =>
      if decide (k = k') then (k, v) :: d' else (k', v') :: dict_set k v d'
  end.

(** [del d[k]]: [None] stands for [KeyError]. *)
Fixpoint dict_del (k : string) (d : dict) : option dict :=
  match d with
  | [] => None
  | (k', v') :: d' =>
      if decide (k = k') then Some d'
      else match dict_del k d' with
           | Some d'' => Some ((k', v') :: d'')
           | None => None
           end
  end.


Definition dict_keys (d : dict) : list string := d.*1.

(** ** Strings *)

Definition LF : ascii := ascii_of_nat 10.
Definition ESC : ascii := ascii_of_nat 27.

(** [s.count("\n")] *)
Fixpoint count_newlines (s : string) : nat :=
  match s with
  | EmptyString => 0%nat
  | String c s' =>
      if Ascii.eqb c LF then S (count_newlines s') else count_newlines s'
  end.

(** [s * n] *)
Fixpoint str_repeat (s : string) (n : nat) : string :=
  match n with
  | O => EmptyString
  | S n' => (s ++ str_repeat s n')%string
  end.

(** [str(n)] for an [int]. *)
Definition str_int (z : Z) : string := NilZero.string_of_int (Z.to_int z).

Definition str_nat (n : nat) : string := NilZero.string_of_uint (Nat.to_uint n).

(** [s.split(".")[-1]]: what follows the last dot, or all of [s]. *)
Fixpoint last_segment (acc s : string) : string :=
  match s with
  | EmptyString => acc
  | String c s' =>
      if Ascii.eqb c "." then last_segment EmptyString s'
      else last_segment (acc ++ String c EmptyString)%string s'
  end.

Definition split_last (s : string) : string := last_segment EmptyString s.

Definition startswith_slash (s : string) : bool :=
  match s with
  | String c _ => Ascii.eqb c "/"
  | EmptyString => false
  end.

Fixpoint endswith_slash (s : string) : bool :=
  match s with
  | EmptyString => false
  | String c EmptyString => Ascii.eqb c "/"
  | String _ s' => endswith_slash s'
  end.

(** [os.path.join(a, b)] (posixpath, two arguments). *)
Definition join (a b : string) : string :=
  if startswith_slash b then b
  else if (String.length a =? 0)%nat || endswith_slash a then (a ++ b)%string
  else (a ++ "/" ++ b)%string.

(** ** [int(s)] for a [str]: decimal, optional sign, surrounding white
    space, single underscores between digits, and no more digits than
    [sys.int_info.default_max_str_digits]. [None] stands for [ValueError]. *)

(** White space for [int] among the code points below 256, which is all
    a header value holds: the ASCII ones, NEL and the no-break space. *)
Definition is_space (c : ascii) : bool :=
  let n := nat_of_ascii c in
  ((9 <=? n) && (n <=? 13) || (n =? 32) || (n =? 133) || (n =? 160))%nat.

Fixpoint lstrip (s : string) : string :=
  match s with
  | String c s' => if is_space c then lstrip s' else s
  | EmptyString => EmptyString
  end.

Definition strip (s : string) : string :=
  String.rev (lstrip (String.rev (lstrip s))).

Definition digit_of (c : ascii) : option Z :=
  let n := nat_of_ascii c in
  if ((48 <=? n) && (n <=? 57))%nat then Some (Z.of_nat n - 48) else None.

Fixpoint int_digits (acc : Z) (after_digit : bool) (s : string) : option Z :=
  match s with
  | EmptyString => if after_digit then Some acc else None
  | String c s' =>
      if Ascii.eqb c "_" then
        if after_digit then int_digits acc false s' else None
      else
        match digit_of c with
        | Some d => int_digits (10 * acc + d) true s'
        | None => None
        end
  end.

Definition MAX_STR_DIGITS : nat := 4300.

Fixpoint count_digits (s : string) : nat :=
  match s with
  | EmptyString => 0%nat
  | String c s' =>
      if digit_of c is Some _ then S (count_digits s') else count_digits s'
  end.

Definition py_int (s : string) : option Z :=
  let s := strip s in
  if (MAX_STR_DIGITS <? count_digits s)%nat then None
  else
    match s with
    | String "-" s' => Z.opp <$> int_digits 0 false s'
    | String "+" s' => int_digits 0 false s'
    | s' => int_digits 0 false s'
    end.

(** ** Floats: [int / int], [float * int] and [round] on binary64 *)

(** Nearest integer, ties to the even one: [round(x)] of a float, and the
    rounding of a significand. *)
Definition round_half_even (x : Q) : Z :=
  let f := Qfloor x in
  match Qcompare (x - inject_Z f) (1 # 2) with
  | Lt => f
  | Gt => f + 1
  | Eq => if Z.even f then f else f + 1
  end.

(** [floor (log2 x)] for [0 < x]. *)
Definition ilog2 (x : Q) : Z :=
  let d := Z.log2 (Qnum x) - Z.log2 (Zpos (Qden x)) in
  if Qle_bool (Qpower 2 d) x then d else d - 1.

(** Exponent of the last place of a double near [x]: 53 bits of
    significand, subnormals below [2^-1022]. *)
Definition fexp (x : Q) : Z := Z.max (ilog2 (Qabs x) - 52) (-1074).

(** Round to the nearest double, ties to even (no overflow check). *)
Definition RN (x : Q) : Q :=
  if Qeq_bool x 0 then 0%Q
  else (inject_Z (round_half_even (x / Qpower 2 (fexp x))) * Qpower 2 (fexp x))%Q.

(** The rounded value is beyond the largest double. *)
Definition overflows (x : Q) : bool := Qle_bool (Qpower 2 1024) (Qabs x).

(** Line 78: [percent = round((written / length) * 100)]. *)
Definition percent (written length : Z) : exn + Z :=
  if length =? 0 then inl ZeroDivisionError
  else
    let x := RN (inject_Z written / inject_Z length) in
    if overflows x then inl OverflowError
    else
      let y := RN (x * 100) in
      if overflows y then inl OverflowError
      else inr (round_half_even y).

(** ** The HTTP response of [requests.get(url, stream=True)] *)

Record response : Type := Response {
  status_code : Z;
  content_length : option string;   (* the header, when present *)
  body : list Byte.byte;
}.

(** [response.raise_for_status()] raises on 4xx and 5xx. *)
Definition raise_for_status (r : response) : bool :=
  (400 <=? status_code r) && (status_code r <? 600).

(** Line 71: [int(response.headers["content-length"])]. *)
Definition header_length (r : response) : exn + Z :=
  match content_length r with
  | None => inl KeyError
  | Some s =>
      match py_int s with
      | Some n => inr n
      | None => inl ValueError
      end
  end.

(** Pieces of [n] bytes, the last one shorter, none empty. [fuel] bounds
    the number of pieces. *)
Fixpoint chunks_of (fuel : nat) (n : nat) (b : list Byte.byte)
  : list (list Byte.byte) :=
  match fuel with
  | O => []
  | S fuel' =>
      match b with
      | [] => []
      | _ => take n b :: chunks_of fuel' n (drop n b)
      end
  end.

(** [response.iter_content(n)] on the bytes [b] that arrive. A plain
    transfer ([plan] empty) is handed out in pieces of [n] bytes. Chunked
    or decoded data are handed out as they come: [plan] gives the sizes of
    these pieces, and what is left after them follows in pieces of [n]
    bytes. No piece is empty. *)
Fixpoint iter_content (plan : list nat) (n : nat) (b : list Byte.byte)
  : list (list Byte.byte) :=
  match plan with
  | [] => chunks_of (length b) n b
  | s :: plan' =>
      match b with
      | [] => []
      | _ => if (s =? 0)%nat then iter_content plan' n b
             else take s b :: iter_content plan' n (drop s b)
      end
  end.

(** 64 KiB, the argument of [iter_content] on line 75. *)
Definition CHUNK_SIZE : nat := 1024 * 64.

(* ===================================================================== *)
(** * Part II. The program as an interleaving of its threads              *)
(* ===================================================================== *)

Definition WORKER_COUNT : nat := 8.

(** What [query_episodes] yields. *)
Record episode : Type := Episode {
  title : string;
  ep_url : string;
}.

(** The dict put on the queue (lines 146-150). *)
Record task : Type := Task {
  url : string;
  filename : string;
  display_filename : string;
}.

#[global] Instance task_eq_dec : EqDecision task.
Proof. solve_decision. Defined.

(** What ends a generator or a thread early: an exception of [exn], or
    the [AttributeError] of a method called on [None]. *)
Inductive raised : Type :=
  | Exn (e : exn)
  | AttributeError.

(** Everything outside the program: the servers, the disk's willingness
    to be written, the command line and the discovered episodes. *)
Record world : Type := World {
  http : string → exn + response;       (* requests.get(url, stream=True) *)
  transfer : string → list nat;         (* the pieces a chunked or encoded
                                           body comes in; [] when plain *)
  stream_breaks : string → bool;        (* the connection breaks off after
                                           the bytes of the body *)
  open_fails : string → bool;           (* open(path, "wb") raises *)
  write_fails : string → Z → bool;      (* file.write raises at this offset *)
  close_fails : string → bool;          (* the flush at close raises *)
  output : string;                      (* args.output *)
  episodes : list episode;              (* query_episodes(), in order *)
  discovery_end : option raised;        (* what query_episodes() raises
                                           after them, if anything *)
}.

Inductive tid : Type :=
  | Main
  | Worker (n : nat)
  | Info.

#[global] Instance tid_eq_dec : EqDecision tid.
Proof. solve_decision. Defined.

(** Observable actions, logged with the thread that performs them. *)
Inductive event : Type :=
  | EvPut (i : task)                       (* queue.put *)
  | EvGet (i : task)                       (* queue.get returned i *)
  | EvTaskDone (i : task)                  (* queue.task_done *)
  | EvSet (k : string) (v : Z)             (* currently_downloading[k] = v *)
  | EvDel (k : string)                     (* del currently_downloading[k] *)
  | EvRequest (i : task)                   (* network: requests.get *)
  | EvRecv (i : task)                      (* network: next chunk of the body *)
  | EvExists (p : string)                  (* disk: exists(p) *)
  | EvOpen (p : string)                    (* disk: open(p, "wb") *)
  | EvWrite (p : string) (c : list Byte.byte)   (* disk: file.write *)
  | EvClose (p : string)                   (* disk: end of the with block *)
  | EvPrint (s : string)                   (* terminal: print(s, end="") *)
  | EvSleep.                               (* sleep(0.1) *)





(** Where a worker stands: one constructor per statement of [worker],
    with the locals that are live there. *)
Inductive wpc : Type :=
  | WWhile                                            (* 60 *)
  | WGet                                              (* 62 *)
  | WAcquire0 (i : task)                              (* 65 *)
  | WInsert (i : task)                                (* 67 *)
  | WRelease0 (i : task)                              (* 68 *)
  | WRequest (i : task)                               (* 69 *)
  | WRaiseForStatus (i : task) (r : response)         (* 70 *)
  | WLength (i : task) (r : response)                 (* 71-72 *)
  | WOpen (i : task) (r : response) (length : Z)      (* 73 *)
  | WFor (i : task) (length written : Z) (rest : list (list Byte.byte))    (* 75 *)
  | WWrite (i : task) (length written : Z)
           (chunk : list Byte.byte) (rest : list (list Byte.byte))         (* 76 *)
  | WPercent (i : task) (length written : Z)
             (chunk : list Byte.byte) (rest : list (list Byte.byte))       (* 77-78 *)
  | WAcquire1 (i : task) (length written percent : Z)
              (rest : list (list Byte.byte))                              (* 79 *)
  | WUpdate (i : task) (length written percent : Z)
            (rest : list (list Byte.byte))                                (* 80 *)
  | WRelease1 (i : task) (length written : Z)
              (rest : list (list Byte.byte))                              (* 81 *)
  | WClose (i : task)                                 (* end of the with block *)
  | WAcquire2 (i : task)                              (* 83 *)
  | WDelete (i : task)                                (* 84 *)
  | WRelease2 (i : task)                              (* 85 *)
  | WTaskDone (i : task)                              (* 86 *)
  | WReturn                                           (* the loop ended *)
  | WRaised (i : task) (e : exn).                     (* uncaught: thread dead *)

(** Where the renderer stands in [downloading_info_thread]. *)
Inductive rpc : Type :=
  | RWhile (s : string)                               (* 97 *)
  | RCursor (s : string)                              (* 99-102 *)
  | RAcquire (old_lines : nat)                        (* 104 *)
  | RFormat (old_lines : nat)                         (* 105-106 *)
  | RPrint (old_lines : nat) (s : string)             (* 107-113 *)
  | RRelease (s : string)                             (* 114 *)
  | RSleep (s : string)                               (* 115 *)
  | RReturn.

(** Where the main thread stands, from line 139 on. *)
Inductive mpc : Type :=
  | MFor (eps : list episode)                         (* 139 *)
  | MExists (i : task) (eps : list episode)           (* 143 *)
  | MPut (i : task) (eps : list episode)              (* 146 *)
  | MJoin                                             (* 152 *)
  | MFinish                                           (* 153 *)
  | MThreadJoin (n : nat)                             (* 155-156 *)
  | MInfoJoin                                         (* 157 *)
  | MReturn
  | MRaised (e : raised).                             (* uncaught: thread dead *)

Record state : Type := State {
  queue : list task;                       (* Queue: the items, oldest first *)
  unfinished_tasks : nat;                  (* Queue: puts not yet task_done *)
  currently_downloading : dict;
  lock : option tid;                       (* the holder, when locked *)
  finish : bool;                           (* finish[0] *)
  files : gmap string (list Byte.byte);    (* the disk *)
  pc_workers : list wpc;
  pc_info : rpc;
  pc_main : mpc;
  trace : list (tid * event);              (* newest first *)
}.

Definition set_queue (q : list task) (σ : state) : state :=
  State q (unfinished_tasks σ) (currently_downloading σ) (lock σ) (finish σ)
        (files σ) (pc_workers σ) (pc_info σ) (pc_main σ) (trace σ).
Definition set_unfinished (u : nat) (σ : state) : state :=
  State (queue σ) u (currently_downloading σ) (lock σ) (finish σ)
        (files σ) (pc_workers σ) (pc_info σ) (pc_main σ) (trace σ).
Definition set_downloading (d : dict) (σ : state) : state :=
  State (queue σ) (unfinished_tasks σ) d (lock σ) (finish σ)
        (files σ) (pc_workers σ) (pc_info σ) (pc_main σ) (trace σ).
Definition set_lock (l : option tid) (σ : state) : state :=
  State (queue σ) (unfinished_tasks σ) (currently_downloading σ) l (finish σ)
        (files σ) (pc_workers σ) (pc_info σ) (pc_main σ) (trace σ).
Definition set_finish (b : bool) (σ : state) : state :=
  State (queue σ) (unfinished_tasks σ) (currently_downloading σ) (lock σ) b
        (files σ) (pc_workers σ) (pc_info σ) (pc_main σ) (trace σ).
Definition set_files (f : gmap string (list Byte.byte)) (σ : state) : state :=
  State (queue σ) (unfinished_tasks σ) (currently_downloading σ) (lock σ) (finish σ)
        f (pc_workers σ) (pc_info σ) (pc_main σ) (trace σ).
Definition set_worker (n : nat) (pc : wpc) (σ : state) : state :=
  State (queue σ) (unfinished_tasks σ) (currently_downloading σ) (lock σ) (finish σ)
        (files σ) (<[n := pc]> (pc_workers σ)) (pc_info σ) (pc_main σ) (trace σ).
Definition set_info (pc : rpc) (σ : state) : state :=
  State (queue σ) (unfinished_tasks σ) (currently_downloading σ) (lock σ) (finish σ)
        (files σ) (pc_workers σ) pc (pc_main σ) (trace σ).
Definition set_main (pc : mpc) (σ : state) : state :=
  State (queue σ) (unfinished_tasks σ) (currently_downloading σ) (lock σ) (finish σ)
        (files σ) (pc_workers σ) (pc_info σ) pc (trace σ).
Definition emit (t : tid) (ev : event) (σ : state) : state :=
  State (queue σ) (unfinished_tasks σ) (currently_downloading σ) (lock σ) (finish σ)
        (files σ) (pc_workers σ) (pc_info σ) (pc_main σ) ((t, ev) :: trace σ).

(** [file.write(chunk)] on the handle of the with block. *)
Definition file_append (p : string) (c : list Byte.byte)
    (f : gmap string (list Byte.byte)) : gmap string (list Byte.byte) :=
  <[p := default [] (f !! p) ++ c]> f.

(** The file has received bytes that its close has to flush. *)
Definition unflushed (p : string) (f : gmap string (list Byte.byte)) : bool :=
  match f !! p with
  | Some (_ :: _) => true
  | _ => false
  end.

(** One statement of [worker], run by worker [n] standing at [pc].
    A worker whose [acquire] finds the lock taken does not move. The
    [release] calls are only reached by the holder of the lock. An
    exception inside the with block closes the file on its way out. A
    response that declares no bytes is complete once its headers are read;
    any other can break off when the next chunk is asked for. *)
Definition worker (E : world) (n : nat) (pc : wpc) (σ : state) : state :=
  let me := Worker n in
  let goto pc' := set_worker n pc' in
  match pc with
  | WWhile =>
      if finish σ then goto WReturn σ else goto WGet σ
  | WGet =>
      match queue σ with
      | i :: q => emit me (EvGet i) (set_queue q (goto (WAcquire0 i) σ))
      | [] => goto WWhile σ           (* Empty after the timeout: continue *)
      end
  | WAcquire0 i =>
      match lock σ with
      | None => set_lock (Some me) (goto (WInsert i) σ)
      | Some _ => σ
      end
  | WInsert i =>
      emit me (EvSet (display_filename i) 0)
        (set_downloading (dict_set (display_filename i) 0 (currently_downloading σ))
           (goto (WRelease0 i) σ))
  | WRelease0 i => set_lock None (goto (WRequest i) σ)
  | WRequest i =>
      emit me (EvRequest i)
        match http E (url i) with
        | inl e => goto (WRaised i e) σ
        | inr r => goto (WRaiseForStatus i r) σ
        end
  | WRaiseForStatus i r =>
      if raise_for_status r then goto (WRaised i HTTPError) σ
      else goto (WLength i r) σ
  | WLength i r =>
      match header_length r with
      | inl e => goto (WRaised i e) σ
      | inr length => goto (WOpen i r length) σ
      end
  | WOpen i r length =>
      emit me (EvOpen (filename i))
        (if open_fails E (filename i) then goto (WRaised i OSError) σ
         else set_files (<[filename i := []]> (files σ))
                (goto (WFor i length 0
                         (iter_content (transfer E (url i)) CHUNK_SIZE (body r))) σ))
  | WFor i length written rest =>
      match rest with
      | chunk :: rest' =>
          emit me (EvRecv i) (goto (WWrite i length written chunk rest') σ)
      | [] =>
          if negb (length =? 0) && stream_breaks E (url i)
          then emit me (EvClose (filename i))
                 (emit me (EvRecv i) (goto (WRaised i ChunkedEncodingError) σ))
          else emit me (EvRecv i) (goto (WClose i) σ)
      end
  | WWrite i length written chunk rest =>
      if write_fails E (filename i) written
      then emit me (EvClose (filename i)) (goto (WRaised i OSError) σ)
      else emit me (EvWrite (filename i) chunk)
             (set_files (file_append (filename i) chunk (files σ))
                (goto (WPercent i length written chunk rest) σ))
  | WPercent i length written chunk rest =>
      let written' := written + Z.of_nat (List.length chunk) in
      match percent written' length with
      | inl e => emit me (EvClose (filename i)) (goto (WRaised i e) σ)
      | inr p => goto (WAcquire1 i length written' p rest) σ
      end
  | WAcquire1 i length written p rest =>
      match lock σ with
      | None => set_lock (Some me) (goto (WUpdate i length written p rest) σ)
      | Some _ => σ
      end
  | WUpdate i length written p rest =>
      emit me (EvSet (display_filename i) p)
        (set_downloading (dict_set (display_filename i) p (currently_downloading σ))
           (goto (WRelease1 i length written rest) σ))
  | WRelease1 i length written rest =>
      set_lock None (goto (WFor i length written rest) σ)
  | WClose i =>
      emit me (EvClose (filename i))
        (if unflushed (filename i) (files σ) && close_fails E (filename i)
         then goto (WRaised i OSError) σ
         else goto (WAcquire2 i) σ)
  | WAcquire2 i =>
      match lock σ with
      | None => set_lock (Some me) (goto (WDelete i) σ)
      | Some _ => σ
      end
  | WDelete i =>
      match dict_del (display_filename i) (currently_downloading σ) with
      | Some d => emit me (EvDel (display_filename i))
                    (set_downloading d (goto (WRelease2 i) σ))
      | None => goto (WRaised i KeyError) σ
      end
  | WRelease2 i => set_lock None (goto (WTaskDone i) σ)
  | WTaskDone i =>
      match unfinished_tasks σ with
      | S u => emit me (EvTaskDone i) (set_unfinished u (goto WWhile σ))
      | O => goto (WRaised i ValueError) σ
      end
  | WReturn => σ
  | WRaised _ _ => σ
  end.

(** ** The renderer *)

Definition NL : string := String LF EmptyString.

(** ["\033[K"], erase to the end of the line. *)
Definition CLEAR_EOL : string := String ESC "[K".

(** [f"\033[{old_lines}F"], cursor to the start of the line [n] lines up. *)
Definition cursor_up (n : nat) : string :=
  (String ESC "[" ++ str_nat n ++ "F")%string.

(** Line 106: [f"Downloading {filename}... {p}%\033[K\n"]. *)
Definition format_line (k : string) (p : Z) : string :=
  ("Downloading " ++ k ++ "... " ++ str_int p ++ "%" ++ CLEAR_EOL ++ NL)%string.

(** Lines 105-106: one line per entry, in the order of the dict. *)
Fixpoint format_block (d : dict) : string :=
  match d with
  | [] => EmptyString
  | (k, p) :: d' => (format_line k p ++ format_block d')%string
  end.

(** Lines 110-112: blank cleared lines for what the old block had more. *)
Definition pad_block (old_lines : nat) (s : string) : string :=
  let new_lines := count_newlines s in
  if (new_lines <? old_lines)%nat
  then (s ++ str_repeat (CLEAR_EOL ++ NL) (old_lines - new_lines))%string
  else s.

(** One statement of [downloading_info_thread]. *)
Definition downloading_info_thread (pc : rpc) (σ : state) : state :=
  match pc with
  | RWhile s =>
      if finish σ then set_info RReturn σ else set_info (RCursor s) σ
  | RCursor s =>
      let old_lines := count_newlines s in
      if (old_lines =? 0)%nat then set_info (RAcquire old_lines) σ
      else emit Info (EvPrint (cursor_up old_lines))
             (set_info (RAcquire old_lines) σ)
  | RAcquire old_lines =>
      match lock σ with
      | None => set_lock (Some Info) (set_info (RFormat old_lines) σ)
      | Some _ => σ
      end
  | RFormat old_lines =>
      set_info (RPrint old_lines (format_block (currently_downloading σ))) σ
  | RPrint old_lines s =>
      if (List.length (currently_downloading σ) =? 0)%nat
      then set_info (RRelease s) σ
      else
        let s' := pad_block old_lines s in
        emit Info (EvPrint s') (set_info (RRelease s') σ)
  | RRelease s => set_lock None (set_info (RSleep s) σ)
  | RSleep s => emit Info EvSleep (set_info (RWhile s) σ)
  | RReturn => σ
  end.

(** ** The main thread *)

(** Lines 140-150. *)
Definition make_task (out : string) (ep : episode) : task :=
  let extension := split_last (ep_url ep) in
  let display_filename := (title ep ++ "." ++ extension)%string in
  Task (ep_url ep) (join out display_filename) display_filename.

(** A thread that [join] no longer waits for. *)
Definition terminated (pc : wpc) : bool :=
  match pc with
  | WReturn | WRaised _ _ => true
  | _ => false
  end.

(** One statement of [main], after the threads were started. The [for]
    loop ends with the generator: in [queue.join], or in what the
    generator raises. [queue.join] and the [join] of a thread do not move
    until what they wait for holds. *)
Definition main (E : world) (pc : mpc) (σ : state) : state :=
  match pc with
  | MFor [] =>
      match discovery_end E with
      | None => set_main MJoin σ
      | Some e => set_main (MRaised e) σ
      end
  | MFor (ep :: eps) => set_main (MExists (make_task (output E) ep) eps) σ
  | MExists i eps =>
      emit Main (EvExists (filename i))
        (if decide (is_Some (files σ !! filename i))
         then set_main (MFor eps) σ          (* already downloaded *)
         else set_main (MPut i eps) σ)
  | MPut i eps =>
      emit Main (EvPut i)
        (set_queue (queue σ ++ [i])
           (set_unfinished (S (unfinished_tasks σ)) (set_main (MFor eps) σ)))
  | MJoin =>
      match unfinished_tasks σ with
      | O => set_main MFinish σ
      | S _ => σ
      end
  | MFinish => set_finish true (set_main (MThreadJoin 0) σ)
  | MThreadJoin n =>
      match pc_workers σ !! n with
      | None => set_main MInfoJoin σ
      | Some w => if terminated w then set_main (MThreadJoin (S n)) σ else σ
      end
  | MInfoJoin =>
      match pc_info σ with
      | RReturn => set_main MReturn σ
      | _ => σ
      end
  | MReturn => σ
  | MRaised _ => σ
  end.

(** ** The whole program *)

(** Thread [t] runs its next statement. *)
Definition step (E : world) (t : tid) (σ : state) : state :=
  match t with
  | Main => main E (pc_main σ) σ
  | Worker n =>
      match pc_workers σ !! n with
      | Some pc => worker E n pc σ
      | None => σ
      end
  | Info => downloading_info_thread (pc_info σ) σ
  end.

(** The threads run in the order the schedule gives. *)
Definition run (E : world) (sched : list tid) (σ : state) : state :=
  foldl (λ σ t, step E t σ) σ sched.

(** After lines 118-136: [W] workers and the renderer are started, nothing
    is queued, the disk holds [fs]. *)
Definition init (E : world) (W : nat) (fs : gmap string (list Byte.byte)) : state :=
  State [] 0 [] None false fs (replicate W WWhile) (RWhile EmptyString)
        (MFor (episodes E)) [].

Definition reachable (E : world) (W : nat) (fs : gmap string (list Byte.byte))
    (σ : state) : Prop :=
  ∃ sched, σ = run E sched (init E W fs).

(** Thread [t] alone for [k] statements. *)
Definition solo (E : world) (t : tid) (k : nat) (σ : state) : state :=
  Nat.iter k (step E t) σ.

(* ===================================================================== *)
(** * Part III. The terminal the renderer writes to                       *)
(* ===================================================================== *)

(** A screen of unbounded width and height: lines of characters and a
    cursor. It understands what the renderer prints: text, line feed,
    [ESC [ n F] (cursor to the start of the line [n] lines up) and
    [ESC [ K] (erase from the cursor to the end of the line). *)

Inductive tmode : Type :=
  | Ground                 (* plain text *)
  | Escape                 (* after ESC *)
  | Csi (n : nat).         (* after ESC [, with the digits read so far *)

Record terminal : Type := Terminal {
  rows : list (list ascii);
  cur_row : nat;
  cur_col : nat;
  mode : tmode;
}.

Definition is_digit (c : ascii) : bool :=
  let n := nat_of_ascii c in ((48 <=? n) && (n <=? 57))%nat.

(** Neither a control character nor DEL. *)
Definition printable (c : ascii) : bool :=
  let n := nat_of_ascii c in ((32 <=? n) && negb (n =? 127))%nat.

Fixpoint printable_str (s : string) : bool :=
  match s with
  | EmptyString => true
  | String c s' => printable c && printable_str s'
  end.

(** Character [c] written at column [col] of a line. *)
Definition put_char (c : ascii) (col : nat) (row : list ascii) : list ascii :=
  take col row ++ replicate (col - List.length row) " "%char ++ c :: drop (S col) row.

(** The line under the cursor replaced by its image under [f]. *)
Definition on_row (f : list ascii → list ascii) (t : terminal) : list (list ascii) :=
  match rows t !! cur_row t with
  | Some row => <[cur_row t := f row]> (rows t)
  | None => rows t
  end.

(** The terminal receives one character. *)
Definition term_char (t : terminal) (c : ascii) : terminal :=
  match mode t with
  | Ground =>
      if Ascii.eqb c ESC then Terminal (rows t) (cur_row t) (cur_col t) Escape
      else if Ascii.eqb c LF then
        Terminal (if (S (cur_row t) <? List.length (rows t))%nat
                  then rows t else rows t ++ [[]])
                 (S (cur_row t)) 0 Ground
      else if printable c then
        Terminal (on_row (put_char c (cur_col t)) t)
                 (cur_row t) (S (cur_col t)) Ground
      else t
  | Escape =>
      if Ascii.eqb c "[" then Terminal (rows t) (cur_row t) (cur_col t) (Csi 0)
      else Terminal (rows t) (cur_row t) (cur_col t) Ground
  | Csi n =>
      if is_digit c then
        Terminal (rows t) (cur_row t) (cur_col t)
                 (Csi (10 * n + (nat_of_ascii c - 48)))
      else if Ascii.eqb c "F" then
        Terminal (rows t) (cur_row t - Nat.max 1 n) 0 Ground
      else if Ascii.eqb c "K" && (n =? 0)%nat then
        Terminal (on_row (take (cur_col t)) t) (cur_row t) (cur_col t) Ground
      else Terminal (rows t) (cur_row t) (cur_col t) Ground
  end.

(** The terminal receives a string. *)
Fixpoint feed (t : terminal) (s : string) : terminal :=
  match s with
  | EmptyString => t
  | String c s' => feed (term_char t c) s'
  end.

(** Everything printed so far, oldest first. *)
Fixpoint stdout (tr : list (tid * event)) : string :=
  match tr with
  | [] => EmptyString
  | (_, EvPrint s) :: tr' => (stdout tr' ++ s)%string
  | _ :: tr' => stdout tr'
  end.

(** The text of a status line, without its control characters. *)
Definition line_text (kv : string * Z) : list ascii :=
  list_ascii_of_string ("Downloading " ++ kv.1 ++ "... " ++ str_int kv.2 ++ "%").

(* ===================================================================== *)
(** * Part IV. What the properties speak about                            *)
(* ===================================================================== *)

(** The task a worker is working on, also after it died on it. *)
Definition wtask (pc : wpc) : option task :=
  match pc with
  | WWhile | WGet | WReturn => None
  | WAcquire0 i | WInsert i | WRelease0 i | WRequest i
  | WRaiseForStatus i _ | WLength i _ | WOpen i _ _
  | WFor i _ _ _ | WWrite i _ _ _ _ | WPercent i _ _ _ _
  | WAcquire1 i _ _ _ _ | WUpdate i _ _ _ _ | WRelease1 i _ _ _
  | WClose i | WAcquire2 i | WDelete i | WRelease2 i | WTaskDone i
  | WRaised i _ => Some i
  end.

(** The download of the worker is in progress: from the insertion of the
    registry entry (line 67) to its deletion (line 84). *)
Definition downloading (pc : wpc) : option string :=
  match pc with
  | WRelease0 i | WRequest i | WRaiseForStatus i _ | WLength i _ | WOpen i _ _
  | WFor i _ _ _ | WWrite i _ _ _ _ | WPercent i _ _ _ _
  | WAcquire1 i _ _ _ _ | WUpdate i _ _ _ _ | WRelease1 i _ _ _
  | WClose i | WAcquire2 i | WDelete i => Some (display_filename i)
  | _ => None
  end.

(** The registry key a worker may have an entry under: that of a download
    in progress, of the insertion it is about to do, or of the task it died
    on. *)
Definition holds (pc : wpc) : option string :=
  match pc with
  | WInsert i | WRaised i _ => Some (display_filename i)
  | _ => downloading pc
  end.

(** The statements of [worker] between [lock.acquire()] and
    [lock.release()]. *)
Definition critical (pc : wpc) : bool :=
  match pc with
  | WInsert _ | WRelease0 _ | WUpdate _ _ _ _ _ | WRelease1 _ _ _ _
  | WDelete _ | WRelease2 _ => true
  | _ => false
  end.

(** The same for [downloading_info_thread]. *)
Definition rcritical (pc : rpc) : bool :=
  match pc with
  | RFormat _ | RPrint _ _ | RRelease _ => true
  | _ => false
  end.

(** What thread [t] is at. *)
Definition in_critical (σ : state) (t : tid) : bool :=
  match t with
  | Main => false
  | Worker n => from_option critical false (pc_workers σ !! n)
  | Info => rcritical (pc_info σ)
  end.

(** A thread that died inside its critical section keeps the lock. *)
Definition died_in_critical (σ : state) (t : tid) : bool :=
  match t with
  | Worker n =>
      match pc_workers σ !! n with
      | Some (WRaised _ KeyError) => true
      | _ => false
      end
  | _ => false
  end.

(** [queue.join()] has returned. *)
Definition drained (pc : mpc) : bool :=
  match pc with
  | MFinish | MThreadJoin _ | MInfoJoin | MReturn => true
  | _ => false
  end.

(** The task an event is about. *)
Definition ev_task (ev : event) : option task :=
  match ev with
  | EvPut i | EvGet i | EvTaskDone i | EvRequest i | EvRecv i => Some i
  | _ => None
  end.

(** The values worker [n] has written to the registry entry of the
    download it is at, newest first: its [EvSet] since its last [EvDel]. *)
Fixpoint written_values (n : nat) (tr : list (tid * event)) : list Z :=
  match tr with
  | [] => []
  | (Worker m, EvSet _ v) :: tr' =>
      if decide (m = n) then v :: written_values n tr' else written_values n tr'
  | (Worker m, EvDel _) :: tr' =>
      if decide (m = n) then [] else written_values n tr'
  | _ :: tr' => written_values n tr'
  end.

(** Non-decreasing over time, for a list that has the newest value first. *)
Fixpoint non_decreasing (newest_first : list Z) : Prop :=
  match newest_first with
  | [] => True
  | v :: l => match l with [] => True | u :: _ => u <= v end ∧ non_decreasing l
  end.

(** The values the registry entry of key [k] has taken since it was last
    created, newest first: every [EvSet] on [k], by whatever thread, since
    the last [EvDel] of [k]. *)
Fixpoint entry_values (k : string) (tr : list (tid * event)) : list Z :=
  match tr with
  | [] => []
  | (_, EvSet k' v) :: tr' =>
      if decide (k' = k) then v :: entry_values k tr' else entry_values k tr'
  | (_, EvDel k') :: tr' =>
      if decide (k' = k) then [] else entry_values k tr'
  | _ :: tr' => entry_values k tr'
  end.



(** What was printed between [σ] and a later state [σ']. *)
Definition new_output (σ σ' : state) : string :=
  stdout (take (List.length (trace σ') - List.length (trace σ)) (trace σ')).

(** The screen after a repaint over a block of [k] lines that ended just
    above line [r]: the lines of [d], blank lines for the rest of the old
    block, everything else as it was. *)
Definition repainted (rws : list (list ascii)) (r k : nat) (d : dict)
  : list (list ascii) :=
  take (r - k) rws ++ (line_text <$> d) ++
  replicate (k - List.length d) [] ++ drop r rws.

(** One round of the renderer's loop, from line 97 back to line 97. *)
Definition tick (E : world) (σ : state) : state := solo E Info 7 σ.

(** ** Concrete worlds *)

(** One server that answers every request with [r], in a plain transfer
    that does not break off; the disk never fails; the discovery ends
    without an exception. *)
Definition one_server (r : response) (eps : list episode) : world :=
  World (λ _, inr r) (λ _, []) (λ _, false)
        (λ _, false) (λ _ _, false) (λ _, false) "episodes" eps None.

Definition ep1 : episode := Episode "ep" "http://host/ep.mp3".
Definition ep2 : episode := Episode "intro" "http://host/intro.mp3".
Definition task1 : task := make_task "episodes" ep1.

Definition payload (n : nat) : list Byte.byte := replicate n Byte.x61.

(** The server has no such file. *)
Definition world_404 : world := one_server (Response 404 None []) [ep1].

(** Twenty bytes, declared as twenty. *)
Definition world_ok : world :=
  one_server (Response 200 (Some "20"%string) (payload 20)) [ep1; ep2].

(** Twenty bytes, declared as ten: a content-encoded body, whose header
    gives the length of the encoded bytes, decoded in one piece. *)
Definition world_long : world :=
  World (λ _, inr (Response 200 (Some "10"%string) (payload 20)))
        (λ _, [20%nat]) (λ _, false)
        (λ _, false) (λ _ _, false) (λ _, false) "episodes" [ep1] None.


(** Every thread in turn, [k] times over. *)
Definition round_robin (W k : nat) : list tid :=
  concat (replicate k (Main :: Info :: (Worker <$> seq 0 W))).

(** Two hundred OK without a content-length header. *)
Definition world_no_length : world :=
  one_server (Response 200 None (payload 20)) [ep1].

(** A content-length that is not a number. *)
Definition world_bad_length : world :=
  one_server (Response 200 (Some "twenty"%string) (payload 20)) [ep1].

(** The disk is full: the twenty bytes fit the buffer of the file object,
    and their flush at the end of the with block fails. *)
Definition world_disk_full : world :=
  World (λ _, inr (Response 200 (Some "20"%string) (payload 20)))
        (λ _, []) (λ _, false)
        (λ _, false) (λ _ _, false) (λ _, true) "episodes" [ep1] None.


(** One worker, every thread in turn until nothing moves any more. *)
Definition after_failure (E : world) : state :=
  run E (round_robin 1 30) (init E 1 ∅).

(** The main thread enqueues the first episode and worker 0 takes it. *)
Definition sched_taken : list tid := [Main; Main; Main; Worker 0; Worker 0].

(** ... and worker 0 goes on to the head of its [for] loop. *)
Definition sched_streaming : list tid := sched_taken ++ replicate 7 (Worker 0).


(** ... and on to the update of the registry entry (line 80). *)
Definition sched_updating : list tid := sched_streaming ++ replicate 4 (Worker 0).

(** ... or the renderer comes to its [print] while worker 0 requests. *)
Definition sched_printing : list tid :=
  sched_taken ++ replicate 3 (Worker 0) ++ replicate 4 Info.

(** Two workers insert their entries, the renderer paints two lines, then
    worker 0 finishes its download. *)
Definition sched_shrunk : list tid :=
  replicate 6 Main ++ replicate 5 (Worker 0) ++ replicate 5 (Worker 1) ++
  replicate 7 Info ++ replicate 17 (Worker 0).

(** ... the renderer repaints, and worker 1 finishes too. *)
Definition sched_emptied : list tid :=
  sched_shrunk ++ replicate 7 Info ++ replicate 17 (Worker 1).

(** The screen that has received everything printed so far. *)
Definition screen (σ : state) : terminal :=
  feed (Terminal [[]] 0 0 Ground) (stdout (trace σ)).

(** A disk that already holds the first episode. *)
Definition disk_with_ep1 : gmap string (list Byte.byte) :=
  {[ "episodes/ep.mp3"%string := payload 20 ]}.


(** ** Invariants of the reachable states *)

(** Every registry entry belongs to a worker that holds its key. *)
Definition registry_owned (ws : list wpc) (d : dict) : Prop :=
  NoDup (dict_keys d) ∧
  ∀ k, k ∈ dict_keys d → ∃ n pc, ws !! n = Some pc ∧ holds pc = Some k.

(** A thread is inside its critical section exactly when it holds the
    lock, unless it died there. *)
Definition lock_inv (σ : state) : Prop :=
  (∀ t, in_critical σ t = true → lock σ = Some t) ∧
  (∀ t, lock σ = Some t → in_critical σ t = true ∨ died_in_critical σ t = true).

(** The destination of task [i] was not on the disk [fs]. *)
Definition fresh (fs : gmap string (list Byte.byte)) (i : task) : Prop :=
  fs !! filename i = None.

(** Files are never removed, and every task in the queue, in a worker's
    hands, about to be put, or mentioned by an event was missing from the
    disk the run started with. *)
Definition tasks_fresh (fs : gmap string (list Byte.byte)) (σ : state) : Prop :=
  (∀ p, is_Some (fs !! p) → is_Some (files σ !! p)) ∧
  Forall (fresh fs) (queue σ) ∧
  (∀ n pc i, pc_workers σ !! n = Some pc → wtask pc = Some i → fresh fs i) ∧
  (∀ i eps, pc_main σ = MPut i eps → fresh fs i) ∧
  (∀ t ev i, (t, ev) ∈ trace σ → ev_task ev = Some i → fresh fs i).

(** The float product [(written / length) * 100] before [round]. *)
Definition scaled (written length : Z) : Q :=
  RN (RN (inject_Z written / inject_Z length) * 100).

(** Bytes still to come. *)
Definition total (chunks : list (list Byte.byte)) : Z :=
  Z.of_nat (List.length (concat chunks)).

(** What the locals of a worker in its loop say about the download of
    task [i]: [length] is the declared length of the response to its
    request, the chunks handed out so far and those still to come are what
    [iter_content(1024 * 64)] makes of the body, and [written] counts the
    bytes of the former. *)
Definition streaming (E : world) (i : task) (length written : Z)
    (rest : list (list Byte.byte)) : Prop :=
  ∃ r pre,
    http E (url i) = inr r ∧ header_length r = inr length ∧
    iter_content (transfer E (url i)) CHUNK_SIZE (body r) = pre ++ rest ∧
    written = total pre.

(** What is known of the values written so far to the entry of the
    download, by where the worker is. *)
Definition download_at (E : world) (pc : wpc) (vs : list Z) : Prop :=
  match pc with
  | WWhile | WGet | WAcquire0 _ | WInsert _ | WRelease2 _ | WTaskDone _ | WReturn =>
      vs = []
  | WRelease0 _ | WRequest _ => vs = [0]
  | WRaiseForStatus i r | WLength i r => vs = [0] ∧ http E (url i) = inr r
  | WOpen i r l =>
      vs = [0] ∧ http E (url i) = inr r ∧ header_length r = inr l
  | WFor i l w rest | WRelease1 i l w rest =>
      streaming E i l w rest ∧
      (0 < l → ∃ p, percent w l = inr p ∧ Forall (λ v, v <= p) vs)
  | WWrite i l w c rest | WPercent i l w c rest =>
      streaming E i l w (c :: rest) ∧
      (0 < l → ∃ p, percent w l = inr p ∧ Forall (λ v, v <= p) vs)
  | WAcquire1 i l w p rest | WUpdate i l w p rest =>
      streaming E i l w rest ∧ percent w l = inr p ∧
      (0 < l → Forall (λ v, v <= p) vs)
  | WClose _ | WAcquire2 _ | WDelete _ | WRaised _ _ => True
  end.

(** The values [vs] are in order for a download of task [i]: when the
    response declares a positive length they never fall and are not
    negative, and when moreover the body is no longer than declared they do
    not exceed 100. *)
Definition values_fine (E : world) (i : task) (vs : list Z) : Prop :=
  ∀ r l,
    http E (url i) = inr r → header_length r = inr l → 0 < l →
    non_decreasing vs ∧ Forall (λ v, 0 <= v) vs ∧
    (Z.of_nat (List.length (body r)) <= l → Forall (λ v, v <= 100) vs).

Definition download_inv (E : world) (σ : state) : Prop :=
  ∀ n pc,
    pc_workers σ !! n = Some pc →
    download_at E pc (written_values n (trace σ)) ∧
    ∀ i, wtask pc = Some i → values_fine E i (written_values n (trace σ)).



(** A worker that has not got past [raise_for_status], in a world where
    every response raises there. *)
Definition before_status (pc : wpc) : Prop :=
  match pc with
  | WWhile | WGet | WAcquire0 _ | WInsert _ | WRelease0 _ | WRequest _
  | WRaised _ _ => True
  | WRaiseForStatus _ r => raise_for_status r = true
  | _ => False
  end.

(** The main thread of [world_404] is still producing with nothing
    enqueued, or it has enqueued its one task, which nobody completes. *)
Definition stuck (σ : state) : Prop :=
  finish σ = false ∧
  files σ = ∅ ∧
  Forall before_status (pc_workers σ) ∧
  match pc_main σ with
  | MFor [ep] => ep = ep1 ∧ unfinished_tasks σ = 0%nat
  | MExists _ [] | MPut _ [] => unfinished_tasks σ = 0%nat
  | MFor [] | MJoin => unfinished_tasks σ = 1%nat
  | _ => False
  end.

(** ** The queue, the places of the tasks, discovery *)

(** Workers that hold a task whose completion was not signalled. *)
Definition pending_count (ws : list wpc) : nat := List.length (omap wtask ws).

(** How far the main thread is, with what that implies for the flag, the
    queue's counter and the other threads. *)
Definition main_phase (σ : state) : Prop :=
  match pc_main σ with
  | MFor _ | MExists _ _ | MPut _ _ | MJoin | MRaised _ => finish σ = false
  | MFinish => finish σ = false ∧ unfinished_tasks σ = 0%nat
  | MThreadJoin n =>
      finish σ = true ∧ unfinished_tasks σ = 0%nat ∧
      Forall (λ pc, terminated pc = true) (take n (pc_workers σ))
  | MInfoJoin =>
      finish σ = true ∧ unfinished_tasks σ = 0%nat ∧
      Forall (λ pc, terminated pc = true) (pc_workers σ)
  | MReturn =>
      finish σ = true ∧ unfinished_tasks σ = 0%nat ∧
      Forall (λ pc, terminated pc = true) (pc_workers σ) ∧ pc_info σ = RReturn
  end.

(** The counter of the queue counts the tasks waiting in it and the tasks
    in the hands of a worker; a thread that left its loop saw the flag. *)
Definition accounting (σ : state) : Prop :=
  unfinished_tasks σ = (List.length (queue σ) + pending_count (pc_workers σ))%nat ∧
  main_phase σ ∧
  (WReturn ∈ pc_workers σ → finish σ = true) ∧
  (pc_info σ = RReturn → finish σ = true).


(** One worker; the main thread enqueues both episodes of [world_ok], the
    worker downloads them one after the other (twice 21 statements), and
    the threads are told to finish and are joined. *)
Definition sched_complete : list tid :=
  replicate 7 Main ++ replicate 42 (Worker 0) ++
  [Main; Main; Worker 0; Main; Main; Info; Main].

(** ... or the worker stands before its first [task_done]. *)
Definition sched_before_task_done : list tid :=
  replicate 7 Main ++ replicate 20 (Worker 0).

(** ... or the main thread has just been released by [queue.join]. *)
Definition sched_joined : list tid :=
  replicate 7 Main ++ replicate 42 (Worker 0) ++ [Main].

(** The tasks put on the queue, in the order of the calls to [put]. *)
Fixpoint put_log (tr : list (tid * event)) : list task :=
  match tr with
  | [] => []
  | (_, EvPut i) :: tr' => put_log tr' ++ [i]
  | _ :: tr' => put_log tr'
  end.

(** The tasks [get] has returned, in the order of the returns. *)
Fixpoint get_log (tr : list (tid * event)) : list task :=
  match tr with
  | [] => []
  | (_, EvGet i) :: tr' => get_log tr' ++ [i]
  | _ :: tr' => get_log tr'
  end.

(** The tasks the loop of [main] has still to look at. *)
Definition todo (out : string) (pc : mpc) : list task :=
  match pc with
  | MFor eps => make_task out <$> eps
  | MExists i eps | MPut i eps => i :: (make_task out <$> eps)
  | _ => []
  end.

(** The tasks of the discovered episodes. *)
Definition discovered (E : world) : list task :=
  make_task (output E) <$> episodes E.

(** The main thread walks through the discovered episodes once, and what
    it has put so far is taken from the part it has left behind. *)
Definition in_order (E : world) (σ : state) : Prop :=
  ∃ pre, discovered E = pre ++ todo (output E) (pc_main σ) ∧
         put_log (trace σ) `sublist_of` pre.

(** The path a disk event is about. *)
Definition ev_path (ev : event) : option string :=
  match ev with
  | EvExists p | EvOpen p | EvWrite p _ | EvClose p => Some p
  | _ => None
  end.

(** Every task in the system, and every task or path an event is about,
    comes from a discovered episode. *)
Definition tasks_known (E : world) (σ : state) : Prop :=
  Forall (λ i, i ∈ discovered E) (todo (output E) (pc_main σ)) ∧
  Forall (λ i, i ∈ discovered E) (queue σ) ∧
  (∀ n pc i, pc_workers σ !! n = Some pc → wtask pc = Some i → i ∈ discovered E) ∧
  (∀ t ev i, (t, ev) ∈ trace σ → ev_task ev = Some i → i ∈ discovered E) ∧
  (∀ t ev p, (t, ev) ∈ trace σ → ev_path ev = Some p →
     ∃ i, i ∈ discovered E ∧ p = filename i).

(** Worker 0 has taken the first task and sent its request. *)
Definition sched_requested : list tid := sched_taken ++ replicate 4 (Worker 0).

(** A write to the registry. *)
Definition is_registry (ev : event) : bool :=
  match ev with EvSet _ _ | EvDel _ => true | _ => false end.

(** Worker [n] died on task [i] with exception [e] and holds the lock. *)
Definition lock_lost (n : nat) (i : task) (e : exn) (σ : state) : Prop :=
  lock σ = Some (Worker n) ∧ pc_workers σ !! n = Some (WRaised i e).

(** The same episode listed twice. *)
Definition world_twins : world :=
  one_server (Response 200 (Some "20"%string) (payload 20)) [ep1; ep1].

(** Both tasks are enqueued; worker 1 downloads the first up to its
    [lock.acquire()] of line 83, worker 0 downloads the second from
    beginning to end, and worker 1 comes to its [del]. *)
Definition sched_twins : list tid :=
  replicate 7 Main ++ replicate 17 (Worker 1) ++ replicate 21 (Worker 0) ++
  replicate 2 (Worker 1).

(** Worker [n] has run alone from [σ] to [σ']: it stands at [pc], the lock
    is free, the registry and the disk are [d] and [f], and nothing else
    has changed but the trace. *)
Definition moved (σ σ' : state) (n : nat) (pc : wpc) (d : dict)
    (f : gmap string (list Byte.byte)) : Prop :=
  pc_workers σ' = <[n := pc]> (pc_workers σ) ∧
  lock σ' = None ∧
  currently_downloading σ' = d ∧
  files σ' = f ∧
  queue σ' = queue σ ∧ unfinished_tasks σ' = unfinished_tasks σ ∧
  finish σ' = finish σ ∧ pc_info σ' = pc_info σ ∧ pc_main σ' = pc_main σ.

(** The number of statements of a download that receives [chunks]. *)
Definition download_steps (chunks : list (list Byte.byte)) : nat :=
  7 + 6 * List.length chunks + 6.

(** [percent m 100 = m] for every whole percentage [m] from 0 up to [n]. *)
Definition hundredths_exact (n : nat) : bool :=
  forallb (λ k, bool_decide (percent (Z.of_nat k) 100 = inr (Z.of_nat k)))
          (seq 0 (S n)).

(** The string has a dot in it. *)
Fixpoint has_dot (s : string) : bool :=
  match s with
  | EmptyString => false
  | String c s' => Ascii.eqb c "." || has_dot s'
  end.

(** The screen with empty lines added at its end, up to [n] lines. *)
Definition extend (n : nat) (rws : list (list ascii)) : list (list ascii) :=
  rws ++ replicate (n - List.length rws) [].

(** The screen after a repaint with the lines of [d] over a block of [k]
    lines that ended just above line [r], when [d] has at least [k] lines:
    the status lines of [d] from where the old block began, on a screen
    that is as much longer as it takes to hold them and the cursor. *)
Definition painted (rws : list (list ascii)) (r k : nat) (d : dict)
  : list (list ascii) :=
  let top := (r - k)%nat in
  let R := extend (top + List.length d + 1) rws in
  take top R ++ (line_text <$> d) ++ drop (top + List.length d) R.

(** The first worker has inserted its entry and the renderer has painted
    it; then the second worker has inserted its entry. *)
Definition sched_grown : list tid :=
  replicate 6 Main ++ replicate 5 (Worker 0) ++ replicate 7 Info ++
  replicate 5 (Worker 1).

(** ** Discovery: [query_episodes] (lines 10-52) *)

Definition URL : string := "https://www.zeit.de/serie/alles-gesagt".

(** What [query_episodes] reads of one element of class
    [zon-teaser__container]. *)
Record container : Type := Container {
  (* [container.find(class_="zon-teaser__title")]: its [.text], when there
     is such an element *)
  teaser_title : option string;
  (* [container.find("audio")]: its [.attrs], when there is such an element *)
  teaser_audio : option (gmap string string);
}.

(** What it reads of the pager of a page. *)
Inductive pager : Type :=
  | NoCurrentPage            (* no [li] of class [pager__page--current] *)
  | LastPage                 (* no [li] of class [pager__page] after it *)
  | NextWithoutLink          (* that [li] has no [a] *)
  | NextWithoutHref          (* that [a] has no [href] *)
  | NextPage (href : string).

(** What it reads of a parsed page. *)
Record page : Type := Page {
  containers : list container;     (* [find_all(class_="zon-teaser__container")] *)
  page_pager : pager;
}.

(** The web site: what [requests.get] answers (a status and a text, or an
    exception) and what [BeautifulSoup(text, features="html.parser")] makes
    of a text. *)
Record site : Type := Site {
  get : string → exn + Z * string;
  soup : string → page;
}.

(** How the generator ends. [Unfinished]: still running when the model
    stopped following it. *)
Inductive ending : Type :=
  | Exhausted
  | Raises (e : raised)
  | Unfinished.

(** [__query] (lines 17-20). *)
Definition query (web : site) (url : string) : exn + string :=
  match get web url with
  | inl e => inl e
  | inr (status, text) =>
      if (400 <=? status) && (status <? 600) then inl HTTPError else inr text
  end.

(** [__query_bs4] (lines 23-25). *)
Definition query_bs4 (web : site) (url : string) : exn + page :=
  match query web url with
  | inl e => inl e
  | inr text => inr (soup web text)
  end.

(** The [url] of lines 40-42: [data-src-adfree], or [src] when that is
    the empty string; [None] stands for [KeyError]. *)
Definition audio_url (attrs : gmap string string) : option string :=
  match attrs !! "data-src-adfree"%string with
  | None => None
  | Some u => if decide (u = EmptyString) then attrs !! "src"%string else Some u
  end.

(** The [for] loop of lines 35-46 over the containers of one page: what it
    yields, and the exception that ended it, if any. *)
Fixpoint teasers (cs : list container) : list episode * option raised :=
  match cs with
  | [] => ([], None)
  | c :: cs' =>
      match teaser_title c with
      | None => ([], Some AttributeError)           (* [None.text] *)
      | Some t =>
          match teaser_audio c with
          | None => teasers cs'                     (* [not audio]: continue *)
          | Some attrs =>
              if decide (t = EmptyString) then teasers cs'   (* [not title] *)
              else
                match audio_url attrs with
                | None => ([], Some (Exn KeyError))
                | Some u =>
                    let '(eps, e) := teasers cs' in (Episode t u :: eps, e)
                end
          end
      end
  end.

(** The [while True] loop of lines 32-52 from the page at [url] on: what
    is yielded and how the generator ends. [fuel] bounds the number of
    pages that are followed. *)
Fixpoint pages (web : site) (fuel : nat) (url : string) : list episode * ending :=
  match fuel with
  | O => ([], Unfinished)
  | S fuel' =>
      match query_bs4 web url with
      | inl e => ([], Raises (Exn e))
      | inr p =>
          match teasers (containers p) with
          | (eps, Some e) => (eps, Raises e)
          | (eps, None) =>
              match page_pager p with
              | NoCurrentPage => (eps, Raises AttributeError)
              | LastPage => (eps, Exhausted)
              | NextWithoutLink => (eps, Raises AttributeError)
              | NextWithoutHref => (eps, Raises (Exn KeyError))
              | NextPage href =>
                  let '(eps', e) := pages web fuel' href in (eps ++ eps', e)
              end
          end
      end
  end.

Definition query_episodes (web : site) (fuel : nat) : list episode * ending :=
  pages web fuel URL.

(** The pages [ps] are what one finds from [url] on by following the
    pager, the last of them being the last page. *)
Fixpoint chain (web : site) (url : string) (ps : list page) : Prop :=
  match ps with
  | [] => False
  | p :: ps' =>
      query_bs4 web url = inr p ∧
      match ps' with
      | [] => page_pager p = LastPage
      | _ => ∃ href, page_pager p = NextPage href ∧ chain web href ps'
      end
  end.

(** A teaser the loop yields [ep] for. *)
Definition yields (c : container) (ep : episode) : Prop :=
  teaser_title c = Some (title ep) ∧ title ep ≠ EmptyString ∧
  ∃ attrs, teaser_audio c = Some attrs ∧
    ((attrs !! "data-src-adfree"%string = Some (ep_url ep) ∧ ep_url ep ≠ EmptyString) ∨
     (attrs !! "data-src-adfree"%string = Some EmptyString ∧
      attrs !! "src"%string = Some (ep_url ep))).

(** A teaser the loop skips. *)
Definition skipped (c : container) : Prop :=
  ∃ t, teaser_title c = Some t ∧ (teaser_audio c = None ∨ t = EmptyString).

(** A teaser with a title and an audio element without the attribute
    [data-src-adfree]. *)
Definition no_adfree (c : container) : Prop :=
  ∃ t attrs, teaser_title c = Some t ∧ t ≠ EmptyString ∧
    teaser_audio c = Some attrs ∧ attrs !! "data-src-adfree"%string = None.

(** A site of two pages. *)
Definition teaser (t adfree src : string) : container :=
  Container (Some t) (Some {[ "data-src-adfree"%string := adfree; "src"%string := src ]}).

Definition page1 : page :=
  Page [ teaser "ep" "http://host/ep.mp3" "http://ads/ep.mp3";
         Container (Some "text only"%string) None;
         teaser "intro" "" "http://host/intro.mp3" ]
       (NextPage "https://www.zeit.de/serie/alles-gesagt?p=2").

Definition page2 : page :=
  Page [ teaser "" "http://host/untitled.mp3" "";
         teaser "last" "http://host/last.mp3" "" ] LastPage.

Definition two_pages : site :=
  Site (λ u, if decide (u = URL) then inr (200, "1"%string)
             else if decide (u = "https://www.zeit.de/serie/alles-gesagt?p=2"%string)
                  then inr (200, "2"%string)
                  else inr (404, EmptyString))
       (λ text, if decide (text = "1"%string) then page1 else page2).

(** A teaser whose audio element has a [src] only. *)
Definition src_only : container :=
  Container (Some "bonus"%string) (Some {[ "src"%string := "http://host/bonus.mp3"%string ]}).

(** ** Where every task is *)

(** The tasks whose completion was signalled, in the order of the calls to
    [task_done]. *)
Fixpoint done_log (tr : list (tid * event)) : list task :=
  match tr with
  | [] => []
  | (_, EvTaskDone i) :: tr' => done_log tr' ++ [i]
  | _ :: tr' => done_log tr'
  end.

(** The tasks in the hands of the workers. *)
Definition held (ws : list wpc) : list task := omap wtask ws.

(** What the server sends for task [i]. *)
Definition body_of (E : world) (i : task) : list Byte.byte :=
  match http E (url i) with
  | inr r => body r
  | inl _ => []
  end.

(** What is known of the destination of a worker's task, by where the
    worker is: untouched before [open], a growing prefix of the body in the
    loop, as long as [written] says, the body after it. *)
Definition file_at (E : world) (fs : gmap string (list Byte.byte)) (pc : wpc)
    (f : gmap string (list Byte.byte)) : Prop :=
  match pc with
  | WWhile | WGet | WReturn | WRaised _ _ => True
  | WAcquire0 i | WInsert i | WRelease0 i | WRequest i =>
      f !! filename i = fs !! filename i
  | WRaiseForStatus i r | WLength i r | WOpen i r _ =>
      f !! filename i = fs !! filename i ∧ http E (url i) = inr r
  | WFor i _ w rest | WAcquire1 i _ w _ rest | WUpdate i _ w _ rest
  | WRelease1 i _ w rest =>
      ∃ pre, f !! filename i = Some pre ∧ pre ++ concat rest = body_of E i ∧
             w = Z.of_nat (List.length pre)
  | WWrite i _ w c rest =>
      ∃ pre, f !! filename i = Some pre ∧ pre ++ c ++ concat rest = body_of E i ∧
             w = Z.of_nat (List.length pre)
  | WPercent i _ w c rest =>
      ∃ pre, f !! filename i = Some (pre ++ c) ∧
             pre ++ c ++ concat rest = body_of E i ∧
             w = Z.of_nat (List.length pre)
  | WClose i | WAcquire2 i | WDelete i | WRelease2 i | WTaskDone i =>
      f !! filename i = Some (body_of E i)
  end.

(** Every discovered task is in exactly one place: skipped by the main
    thread because its destination was on the disk, done, in the hands of a
    worker, in the queue, or still to be looked at; and the destinations
    are in the state that goes with the place. *)
Definition shipshape (E : world) (fs : gmap string (list Byte.byte))
    (σ : state) : Prop :=
  ∃ sk,
    discovered E ≡ₚ
      sk ++ done_log (trace σ) ++ held (pc_workers σ) ++ queue σ ++
      todo (output E) (pc_main σ) ∧
    Forall (λ i, is_Some (fs !! filename i)) sk ∧
    Forall (λ i, files σ !! filename i = Some (body_of E i)) (done_log (trace σ)) ∧
    Forall (λ i, files σ !! filename i = fs !! filename i)
           (queue σ ++ todo (output E) (pc_main σ)) ∧
    (∀ n pc, pc_workers σ !! n = Some pc → file_at E fs pc (files σ)).

(** Every discovered task is in exactly one place. *)
Definition placed (E : world) (σ : state) : Prop :=
  ∃ sk,
    discovered E ≡ₚ
      sk ++ done_log (trace σ) ++ held (pc_workers σ) ++ queue σ ++
      todo (output E) (pc_main σ).

(** The registry key of the download a worker is at or died at. *)
Definition registered (pc : wpc) : option string :=
  match pc with
  | WRaised i _ => Some (display_filename i)
  | _ => downloading pc
  end.

(** The registry has exactly the keys of the downloads the workers are at
    or died at. *)
Definition registry_exact (σ : state) : Prop :=
  (∀ n pc k, pc_workers σ !! n = Some pc → registered pc = Some k →
     k ∈ dict_keys (currently_downloading σ)) ∧
  (∀ k, k ∈ dict_keys (currently_downloading σ) →
     ∃ n pc, pc_workers σ !! n = Some pc ∧ registered pc = Some k).

(** Worker 0 has downloaded the first episode and stands before the [del]
    of line 84. *)
Definition sched_deleting : list tid :=
  sched_streaming ++ replicate 9 (Worker 0).

(** A response that declares a positive length and has exactly as many
    bytes. *)
Definition exact (r : response) : Prop :=
  ∃ n, header_length r = inr n ∧ 0 < n ∧ Z.of_nat (List.length (body r)) = n.

(** A world in which nothing goes wrong: every server answers every
    request, with a success status, a positive declared length and a body
    of exactly that length, over a connection that does not break off; and
    the disk accepts every file, every write and every close. *)
Definition reliable (E : world) : Prop :=
  (∀ u, ∃ r, http E u = inr r ∧ raise_for_status r = false ∧ exact r ∧
             stream_breaks E u = false) ∧
  (∀ p, open_fails E p = false) ∧
  (∀ p w, write_fails E p w = false) ∧
  (∀ p, close_fails E p = false).

(** The worker has not raised, and the response it holds is the server's. *)
Definition alive (E : world) (pc : wpc) : Prop :=
  match pc with
  | WRaised _ _ => False
  | WRaiseForStatus i r | WLength i r | WOpen i r _ => http E (url i) = inr r
  | _ => True
  end.

(** The worker is dead of an exception. *)
Definition has_raised (pc : wpc) : bool :=
  match pc with WRaised _ _ => true | _ => false end.

(** A body of twenty bytes that is declared empty: a chunked transfer
    that carries a content-length of 0 all the same. *)
Definition world_declared_empty : world :=
  World (λ _, inr (Response 200 (Some "0"%string) (payload 20)))
        (λ _, [20%nat]) (λ _, false)
        (λ _, false) (λ _ _, false) (λ _, false) "episodes" [ep1] None.

(** The schedule of a run without interleaving: the main thread enqueues
    everything ([k1] statements), worker 0 downloads everything ([k2]
    statements), the main thread raises the flag, every worker returns, the
    main thread joins them, the renderer returns and the main thread joins
    it. *)
Definition sched_sequential (W k1 k2 : nat) : list tid :=
  replicate k1 Main ++ replicate k2 (Worker 0) ++ replicate 2 Main ++
  (Worker <$> seq 0 W) ++ replicate (S W) Main ++ [Info; Main].

(** ** The entries of the registry, when display file names are unique *)

(** The entry of a task in the hands of a worker has taken the values this
    worker has written, and no others; the entry of a task that waits in
    the queue or that the main thread has still to look at has never been
    set. *)
Definition entries_own (E : world) (σ : state) : Prop :=
  (∀ n pc i,
     pc_workers σ !! n = Some pc → wtask pc = Some i →
     entry_values (display_filename i) (trace σ) = written_values n (trace σ)) ∧
  Forall (λ i, entry_values (display_filename i) (trace σ) = [])
         (queue σ ++ todo (output E) (pc_main σ)).

(* ===================================================================== *)
(** * Part V. Lemmas                                                      *)
(* ===================================================================== *)

(** ** Schedules and invariants *)

Lemma run_app E s1 s2 σ : run E (s1 ++ s2) σ = run E s2 (run E s1 σ).
Proof. apply foldl_app. Qed.

Lemma run_snoc E s t σ : run E (s ++ [t]) σ = step E t (run E s σ).
Proof. by rewrite run_app. Qed.

(** A property of the initial state that every statement preserves holds in
    every reachable state. *)
Lemma reachable_ind E W fs (P : state → Prop) :
  P (init E W fs) →
  (∀ σ t, reachable E W fs σ → P σ → P (step E t σ)) →
  ∀ σ, reachable E W fs σ → P σ.
Proof.
  intros H0 Hstep σ [sched ->].
  induction sched as [|t sched IH] using rev_ind; [done|].
  rewrite run_snoc. apply Hstep; [by eexists|done].
Qed.

Lemma reachable_init E W fs : reachable E W fs (init E W fs).
Proof. by exists []. Qed.

Lemma reachable_step E W fs σ t :
  reachable E W fs σ → reachable E W fs (step E t σ).
Proof. intros [s ->]. exists (s ++ [t]). by rewrite run_snoc. Qed.

(** ** The dict *)

Lemma dict_set_keys k v d k' :
  k' ∈ dict_keys (dict_set k v d) ↔ k' = k ∨ k' ∈ dict_keys d.
Proof.
  unfold dict_keys. induction d as [|[k0 v0] d IH]; simpl.
  - rewrite list_elem_of_singleton, elem_of_nil. tauto.
  - case_decide; subst; simpl; rewrite !elem_of_cons; [tauto|].
    rewrite IH. tauto.
Qed.

Lemma dict_set_NoDup k v d :
  NoDup (dict_keys d) → NoDup (dict_keys (dict_set k v d)).
Proof.
  unfold dict_keys. induction d as [|[k0 v0] d IH]; simpl; intros Hd.
  - apply NoDup_singleton.
  - apply NoDup_cons in Hd as [Hk0 Hd].
    case_decide; subst; simpl; apply NoDup_cons; split; auto.
    intros Hin. apply (dict_set_keys k v d k0) in Hin as [->|Hin]; done.
Qed.

Lemma dict_del_keys k d d' k' :
  NoDup (dict_keys d) → dict_del k d = Some d' →
  k' ∈ dict_keys d' ↔ k' ≠ k ∧ k' ∈ dict_keys d.
Proof.
  unfold dict_keys. revert d'.
  induction d as [|[k0 v0] d IH]; simpl; intros d' Hd Hdel; [done|].
  apply NoDup_cons in Hd as [Hk0 Hd].
  case_decide; simplify_eq.
  - rewrite elem_of_cons. split.
    + intros Hin. split; [by intros ->|by right].
    + by intros [Hne [->|Hin]].
  - destruct (dict_del k d) as [d''|] eqn:Hd''; simplify_eq; simpl.
    rewrite !elem_of_cons, (IH d'') by done.
    split; [intros [->|[? ?]]|intros [? [->|?]]]; auto.
Qed.

Lemma dict_del_NoDup k d d' :
  NoDup (dict_keys d) → dict_del k d = Some d' → NoDup (dict_keys d').
Proof.
  unfold dict_keys. revert d'.
  induction d as [|[k0 v0] d IH]; simpl; intros d' Hd Hdel; [done|].
  apply NoDup_cons in Hd as [Hk0 Hd].
  case_decide; simplify_eq; [done|].
  destruct (dict_del k d) as [d''|] eqn:Hd''; simplify_eq; simpl.
  apply NoDup_cons; split; [|by apply IH].
  intros Hin. apply (dict_del_keys k d d'' k0) in Hin as [_ Hin]; done.
Qed.

Lemma dict_keys_length d : List.length (dict_keys d) = List.length d.
Proof. apply length_fmap. Qed.

(** ** Bounded concurrency *)

Lemma registry_owned_update ws d n pc pc' d' :
  registry_owned ws d →
  ws !! n = Some pc →
  NoDup (dict_keys d') →
  (∀ k, k ∈ dict_keys d' →
        holds pc' = Some k ∨ (k ∈ dict_keys d ∧ (holds pc = Some k → False))) →
  registry_owned (<[n := pc']> ws) d'.
Proof.
  intros [_ Hown] Hn Hd' Hk. split; [done|].
  intros k Hin. destruct (Hk k Hin) as [Hpc'|[Hin' Hne]].
  - exists n, pc'. split; [|done].
    apply list_lookup_insert_eq. by eapply lookup_lt_Some.
  - destruct (Hown k Hin') as (m & pcm & Hm & Hholds).
    exists m, pcm. split; [|done].
    rewrite list_lookup_insert_ne; [done|]. intros ->. naive_solver.
Qed.

Lemma registry_owned_size ws d :
  registry_owned ws d → (List.length d ≤ List.length ws)%nat.
Proof.
  intros [Hnd Hown]. rewrite <-dict_keys_length.
  apply Nat.le_trans with (List.length (omap holds ws)).
  - apply submseteq_length, NoDup_submseteq; [done|].
    intros k Hk. destruct (Hown k Hk) as (n & pc & Hn & Hpc).
    apply list_elem_of_omap. exists pc. split; [|done].
    by eapply list_elem_of_lookup_2.
  - clear. induction ws as [|w ws IH]; simpl; [done|].
    destruct (holds w); simpl; unfold omap in IH; lia.
Qed.

Lemma registry_owned_keep ws d n pc pc' :
  registry_owned ws d →
  ws !! n = Some pc →
  (∀ k, holds pc = Some k → holds pc' = Some k) →
  registry_owned (<[n := pc']> ws) d.
Proof.
  intros Hinv Hn Hk. eapply registry_owned_update; [done|done|apply Hinv|].
  intros k Hin. destruct (decide (holds pc = Some k)); [left; auto|by right].
Qed.

Lemma registry_owned_set ws d n pc pc' k v :
  registry_owned ws d →
  ws !! n = Some pc →
  holds pc' = Some k →
  (∀ k', holds pc = Some k' → holds pc' = Some k') →
  registry_owned (<[n := pc']> ws) (dict_set k v d).
Proof.
  intros Hinv Hn Hk Hk'. eapply registry_owned_update; [done|done|..].
  - apply dict_set_NoDup, Hinv.
  - intros k' [->|Hin]%dict_set_keys; [by left|].
    destruct (decide (holds pc = Some k')); [left; auto|by right].
Qed.

Lemma registry_owned_del ws d n pc pc' k d' :
  registry_owned ws d →
  ws !! n = Some pc →
  dict_del k d = Some d' →
  holds pc = Some k →
  registry_owned (<[n := pc']> ws) d'.
Proof.
  intros Hinv Hn Hdel Hk. eapply registry_owned_update; [done|done|..].
  - eapply dict_del_NoDup; [apply Hinv|done].
  - intros k' [Hne Hin]%(dict_del_keys k d d'); [|apply Hinv|done].
    right. split; [done|]. congruence.
Qed.

Lemma step_registry_owned E t σ :
  registry_owned (pc_workers σ) (currently_downloading σ) →
  registry_owned (pc_workers (step E t σ)) (currently_downloading (step E t σ)).
Proof.
  intros Hinv. destruct t as [|n|]; simpl.
  - destruct (pc_main σ) as [[|ep eps]| | | | | | | |]; simpl; try done;
      repeat case_match; simpl; done.
  - destruct (pc_workers σ !! n) as [pc|] eqn:Hn; [|done].
    destruct pc; simpl; repeat case_match; simpl; try done;
      first [ by eapply registry_owned_set
            | by eapply registry_owned_del
            | by eapply registry_owned_keep ].
  - destruct (pc_info σ); simpl; repeat case_match; simpl; done.
Qed.

(** The registry never has more entries than there are workers. *)
Lemma registry_bounded E W fs σ :
  reachable E W fs σ →
  registry_owned (pc_workers σ) (currently_downloading σ) ∧
  List.length (pc_workers σ) = W.
Proof.
  revert σ. apply reachable_ind.
  - split; [|apply length_replicate]. split; [apply NoDup_nil_2|].
    by intros k ?%elem_of_nil.
  - intros σ t _ [Hown Hlen]. split; [by apply step_registry_owned|].
    rewrite <-Hlen. destruct t as [|n|]; simpl.
    + destruct (pc_main σ) as [[|ep eps]| | | | | | | |]; simpl; try done;
        repeat case_match; simpl; done.
    + destruct (pc_workers σ !! n) as [pc|] eqn:Hn; [|done].
      destruct pc; simpl; repeat case_match; simpl; by rewrite ?length_insert.
    + destruct (pc_info σ); simpl; repeat case_match; simpl; done.
Qed.

(** Case analysis on the statement that thread [t] runs next. *)
Ltac step_cases t σ :=
  let n := fresh "n" in
  let pc := fresh "pc" in
  let Hn := fresh "Hn" in
  destruct t as [|n|]; simpl;
  [ destruct (pc_main σ) as [[|? ?]| | | | | | | |] eqn:?
  | destruct (pc_workers σ !! n) as [pc|] eqn:Hn; [destruct pc|]
  | destruct (pc_info σ) eqn:? ];
  simpl; repeat case_match; simpl.

(** ** The lock *)

Lemma in_critical_worker σ σ' n pc' t :
  pc_workers σ' = <[n := pc']> (pc_workers σ) →
  pc_info σ' = pc_info σ →
  t ≠ Worker n →
  in_critical σ' t = in_critical σ t ∧ died_in_critical σ' t = died_in_critical σ t.
Proof.
  intros Hws Hr Ht. destruct t as [|m|]; simpl; rewrite ?Hws, ?Hr; [done| |done].
  rewrite list_lookup_insert_ne; [done|congruence].
Qed.

Lemma in_critical_self σ σ' n pc pc' :
  pc_workers σ !! n = Some pc →
  pc_workers σ' = <[n := pc']> (pc_workers σ) →
  in_critical σ (Worker n) = critical pc ∧
  in_critical σ' (Worker n) = critical pc'.
Proof.
  intros Hn Hws. simpl. rewrite Hws, Hn, list_lookup_insert_eq; [done|].
  by eapply lookup_lt_Some.
Qed.

Lemma lock_inv_worker_same σ σ' n pc pc' :
  lock_inv σ →
  pc_workers σ !! n = Some pc →
  pc_workers σ' = <[n := pc']> (pc_workers σ) →
  pc_info σ' = pc_info σ →
  lock σ' = lock σ →
  (critical pc' = true → critical pc = true) →
  (critical pc = true → critical pc' = true ∨ ∃ i, pc' = WRaised i KeyError) →
  (∀ i, pc ≠ WRaised i KeyError) →
  lock_inv σ'.
Proof.
  intros [H1 H2] Hn Hws Hr Hl Hc' Hc Hlive.
  destruct (in_critical_self σ σ' n pc pc' Hn Hws) as [Hs Hs'].
  split; intros t Ht; rewrite Hl in *.
  - destruct (decide (t = Worker n)) as [->|Hne].
    + apply H1. rewrite Hs. apply Hc'. by rewrite <-Hs'.
    + apply H1. by rewrite <-(proj1 (in_critical_worker σ σ' n pc' t Hws Hr Hne)).
  - destruct (decide (t = Worker n)) as [->|Hne].
    + destruct (H2 _ Ht) as [Hcr|Hd].
      * rewrite Hs in Hcr. destruct (Hc Hcr) as [?|[i ->]].
        -- left. by rewrite Hs'.
        -- right. simpl. rewrite Hws, list_lookup_insert_eq; [done|].
           by eapply lookup_lt_Some.
      * simpl in Hd. rewrite Hn in Hd. destruct pc; try done.
        destruct e; try done. by destruct (Hlive i).
    + destruct (in_critical_worker σ σ' n pc' t Hws Hr Hne) as [-> ->]. auto.
Qed.

Lemma lock_inv_worker_acquire σ σ' n pc pc' :
  lock_inv σ →
  pc_workers σ !! n = Some pc →
  pc_workers σ' = <[n := pc']> (pc_workers σ) →
  pc_info σ' = pc_info σ →
  lock σ = None →
  lock σ' = Some (Worker n) →
  critical pc' = true →
  lock_inv σ'.
Proof.
  intros [H1 H2] Hn Hws Hr Hl Hl' Hc'.
  destruct (in_critical_self σ σ' n pc pc' Hn Hws) as [Hs Hs'].
  split; intros t Ht.
  - destruct (decide (t = Worker n)) as [->|Hne]; [done|].
    rewrite (proj1 (in_critical_worker σ σ' n pc' t Hws Hr Hne)) in Ht.
    apply H1 in Ht. congruence.
  - rewrite Hl' in Ht. simplify_eq. left. by rewrite Hs'.
Qed.

Lemma lock_inv_worker_release σ σ' n pc pc' :
  lock_inv σ →
  pc_workers σ !! n = Some pc →
  pc_workers σ' = <[n := pc']> (pc_workers σ) →
  pc_info σ' = pc_info σ →
  critical pc = true →
  lock σ' = None →
  critical pc' = false →
  lock_inv σ'.
Proof.
  intros [H1 H2] Hn Hws Hr Hc Hl' Hc'.
  destruct (in_critical_self σ σ' n pc pc' Hn Hws) as [Hs Hs'].
  split; intros t Ht; [|congruence].
  destruct (decide (t = Worker n)) as [->|Hne]; [congruence|].
  rewrite (proj1 (in_critical_worker σ σ' n pc' t Hws Hr Hne)) in Ht.
  apply H1 in Ht. rewrite <-Hs in Hc. apply H1 in Hc. congruence.
Qed.

Lemma lock_inv_info σ σ' :
  lock_inv σ →
  pc_workers σ' = pc_workers σ →
  (rcritical (pc_info σ') = rcritical (pc_info σ) ∧ lock σ' = lock σ) ∨
  (lock σ = None ∧ lock σ' = Some Info ∧ rcritical (pc_info σ') = true) ∨
  (rcritical (pc_info σ) = true ∧ lock σ' = None ∧ rcritical (pc_info σ') = false) →
  lock_inv σ'.
Proof.
  intros [H1 H2] Hws Hcase.
  assert (∀ t, t ≠ Info → in_critical σ' t = in_critical σ t ∧
                           died_in_critical σ' t = died_in_critical σ t) as Hother.
  { intros [|m|] ?; simpl; by rewrite ?Hws. }
  destruct Hcase as [[Hr Hl]|[(Hl & Hl' & Hr)|(Hr & Hl' & Hr')]].
  - split; intros t Ht; rewrite Hl in *.
    + destruct (decide (t = Info)) as [->|Hne].
      * apply H1. simpl in *. congruence.
      * apply H1. by rewrite <-(proj1 (Hother t Hne)).
    + destruct (decide (t = Info)) as [->|Hne].
      * destruct (H2 _ Ht) as [?|?]; [left|done]. simpl in *. congruence.
      * destruct (Hother t Hne) as [-> ->]. auto.
  - split; intros t Ht.
    + destruct (decide (t = Info)) as [->|Hne]; [done|].
      rewrite (proj1 (Hother t Hne)) in Ht. apply H1 in Ht. congruence.
    + rewrite Hl' in Ht. simplify_eq. by left.
  - split; intros t Ht; [|congruence].
    destruct (decide (t = Info)) as [->|Hne]; [simpl in *; congruence|].
    rewrite (proj1 (Hother t Hne)) in Ht. apply H1 in Ht.
    assert (lock σ = Some Info) by (by apply H1). congruence.
Qed.

Lemma step_lock_inv E t σ : lock_inv σ → lock_inv (step E t σ).
Proof.
  intros Hinv. step_cases t σ; try done.
  all: try (eapply lock_inv_info; [done|done|]; simpl;
            match goal with H : pc_info _ = _ |- _ => rewrite H end; simpl;
            first [ by left | by right; left | by right; right ]).
  all: try first
    [ by (eapply lock_inv_worker_same; [done|done|done|done|done|..];
          simpl; eauto; done)
    | by (eapply lock_inv_worker_acquire; [done|done|done|done|..]; done)
    | by (eapply lock_inv_worker_release; [done|done|done|done|..]; done) ].
Qed.

Lemma reachable_lock_inv E W fs σ : reachable E W fs σ → lock_inv σ.
Proof.
  revert σ. apply reachable_ind.
  - split.
    + intros [|n|]; simpl; try done.
      destruct (replicate W WWhile !! n) as [pc|] eqn:Hn; [|done].
      by apply lookup_replicate_1 in Hn as [-> _].
    + done.
  - intros σ t _. apply step_lock_inv.
Qed.

Lemma cons_neq {A} (x : A) (l : list A) : l ≠ x :: l.
Proof. intros H. apply (f_equal List.length) in H. simpl in H. lia. Qed.




(** ** Skip-if-exists *)

Lemma workers_fresh_update fs (ws : list wpc) n pc pc' :
  (∀ m pcm i, ws !! m = Some pcm → wtask pcm = Some i → fresh fs i) →
  ws !! n = Some pc →
  (∀ i, wtask pc' = Some i → wtask pc = Some i ∨ fresh fs i) →
  ∀ m pcm i, <[n := pc']> ws !! m = Some pcm → wtask pcm = Some i → fresh fs i.
Proof.
  intros Hws Hn Hpc' m pcm i Hm Hi.
  destruct (decide (n = m)) as [->|Hne].
  - rewrite list_lookup_insert_eq in Hm by (by eapply lookup_lt_Some).
    simplify_eq. destruct (Hpc' i Hi); eauto.
  - rewrite list_lookup_insert_ne in Hm by done. eauto.
Qed.

Lemma trace_fresh_emit fs (tr : list (tid * event)) t0 ev0 :
  (∀ t ev i, (t, ev) ∈ tr → ev_task ev = Some i → fresh fs i) →
  (∀ i, ev_task ev0 = Some i → fresh fs i) →
  ∀ t ev i, (t, ev) ∈ (t0, ev0) :: tr → ev_task ev = Some i → fresh fs i.
Proof.
  intros Htr Hev t ev i [Heq|Hin]%elem_of_cons Hi; [simplify_eq|]; eauto.
Qed.

Lemma files_grow_insert (fs f : gmap string (list Byte.byte)) p c :
  (∀ q, is_Some (fs !! q) → is_Some (f !! q)) →
  ∀ q, is_Some (fs !! q) → is_Some (<[p := c]> f !! q).
Proof.
  intros Hf q Hq. destruct (decide (p = q)) as [->|].
  - rewrite lookup_insert_eq. eauto.
  - rewrite lookup_insert_ne by done. auto.
Qed.

Lemma step_tasks_fresh fs E t σ : tasks_fresh fs σ → tasks_fresh fs (step E t σ).
Proof.
  intros (Hf & Hq & Hw & Hm & Htr).
  assert (∀ i eps, pc_main σ = MExists i eps →
            ¬ is_Some (files σ !! filename i) → fresh fs i) as Hex.
  { intros i eps _ Hno. unfold fresh.
    destruct (fs !! filename i) eqn:Hfs; [|done]. destruct Hno. apply Hf. eauto. }
  step_cases t σ; try done.
  all: repeat split; simpl;
    repeat match goal with
    | H : pc_main _ = _ |- _ => rewrite H
    | H : queue _ = _ |- _ => rewrite H
    end; try done.
  all: try (by intros; simplify_eq; eauto).
  all: try (apply files_grow_insert; done).
  all: try (apply trace_fresh_emit; [done|]; simpl; intros; simplify_eq; eauto; done).
  all: try (eapply workers_fresh_update; [done|done|]; simpl; intros; simplify_eq; eauto; done).
  all: try (apply Forall_app; split; [done|]; apply Forall_singleton; eauto; done).
  all: try (by eapply Forall_cons_1).
  all: try (apply trace_fresh_emit; [apply trace_fresh_emit; [done|]|];
            simpl; intros; simplify_eq; eauto; done).
  all: apply Forall_cons_1 in Hq as [Ht Hl].
  - eapply workers_fresh_update; [done|done|]. simpl. intros; simplify_eq. by right.
  - apply trace_fresh_emit; [done|]. simpl. by intros; simplify_eq.
Qed.

Lemma reachable_tasks_fresh E W fs σ : reachable E W fs σ → tasks_fresh fs σ.
Proof.
  revert σ. apply reachable_ind.
  - repeat split; simpl; try done.
    + intros n pc i [-> _]%lookup_replicate_1. done.
    + intros t ev i ?%elem_of_nil. done.
  - intros σ t _. apply step_tasks_fresh.
Qed.

(** ** Rounding *)

Lemma round_half_even_bounds x :
  Qfloor x <= round_half_even x <= Qfloor x + 1.
Proof.
  unfold round_half_even.
  destruct (Qcompare _ _); [destruct (Z.even _)|..]; lia.
Qed.

Lemma round_half_even_Z z : round_half_even (inject_Z z) = z.
Proof.
  unfold round_half_even. rewrite Qfloor_Z.
  destruct (Qcompare (inject_Z z - inject_Z z) (1 # 2)) eqn:Hc; [|done|].
  - apply Qeq_alt in Hc. lra.
  - apply Qgt_alt in Hc. lra.
Qed.

Lemma round_half_even_mono x y :
  (x <= y)%Q → round_half_even x <= round_half_even y.
Proof.
  intros Hxy. pose proof (Qfloor_resp_le x y Hxy) as Hfl.
  pose proof (round_half_even_bounds x) as Hx.
  pose proof (round_half_even_bounds y) as Hy.
  destruct (decide (Qfloor x = Qfloor y)) as [Heq|Hne]; [|lia].
  unfold round_half_even in *. rewrite <-Heq in *.
  destruct (Qcompare (x - inject_Z (Qfloor x)) (1 # 2)) eqn:Hcx; [| lia |].
  - apply Qeq_alt in Hcx.
    destruct (Qcompare (y - inject_Z (Qfloor x)) (1 # 2)) eqn:Hcy.
    + lia.
    + apply Qlt_alt in Hcy. lra.
    + destruct (Z.even _); lia.
  - apply Qgt_alt in Hcx.
    destruct (Qcompare (y - inject_Z (Qfloor x)) (1 # 2)) eqn:Hcy.
    + apply Qeq_alt in Hcy. lra.
    + apply Qlt_alt in Hcy. lra.
    + lia.
Qed.

(** ** Powers of two *)

Lemma two_pos e : (0 < Qpower 2 e)%Q.
Proof. by apply Qpower_0_lt. Qed.

Lemma two_plus a b : (Qpower 2 (a + b) == Qpower 2 a * Qpower 2 b)%Q.
Proof. by apply Qpower_plus. Qed.

Lemma two_le a b : a <= b → (Qpower 2 a <= Qpower 2 b)%Q.
Proof. intros. by apply Qpower_le_compat_l. Qed.

Lemma two_lt_inv a b : (Qpower 2 a < Qpower 2 b)%Q → a < b.
Proof.
  intros Hlt. destruct (Z_lt_le_dec a b) as [|Hle]; [done|].
  apply two_le in Hle. lra.
Qed.

Lemma two_inject n : 0 <= n → (inject_Z (2 ^ n) == Qpower 2 n)%Q.
Proof. intros. by rewrite Zpower_Qpower. Qed.

(** ** [ilog2] *)

Lemma log2_bounds a :
  0 < a → (Qpower 2 (Z.log2 a) <= inject_Z a)%Q ∧ (inject_Z a < Qpower 2 (Z.log2 a + 1))%Q.
Proof.
  intros Ha. pose proof (Z.log2_nonneg a).
  destruct (Z.log2_spec a Ha) as [Hl Hu].
  rewrite <-!two_inject by lia. rewrite <-Zle_Qle, <-Zlt_Qlt.
  by rewrite <-Z.add_1_r in Hu.
Qed.

Lemma ilog2_spec x :
  (0 < x)%Q → (Qpower 2 (ilog2 x) <= x)%Q ∧ (x < Qpower 2 (ilog2 x + 1))%Q.
Proof.
  intros Hx. unfold ilog2.
  destruct x as [a b]. simpl Qnum. simpl Qden.
  assert (0 < a) as Ha.
  { unfold Qlt in Hx. simpl in Hx. lia. }
  destruct (log2_bounds a Ha) as [Hal Hau].
  destruct (log2_bounds (Zpos b) eq_refl) as [Hbl Hbu].
  set (la := Z.log2 a) in *. set (lb := Z.log2 (Z.pos b)) in *.
  assert (a # b == inject_Z a / inject_Z (Zpos b))%Q as Hab by apply Qmake_Qdiv.
  assert (0 < inject_Z (Zpos b))%Q as Hb by (by rewrite <-(Zlt_Qlt 0)).
  assert ((a # b) * inject_Z (Zpos b) == inject_Z a)%Q as Hmul.
  { rewrite Hab. field. lra. }
  pose proof (two_pos lb). pose proof (two_pos (la - lb)).
  pose proof (two_pos (la - lb - 1)).
  assert (Qpower 2 la == Qpower 2 (la - lb) * Qpower 2 lb)%Q as E1.
  { rewrite <-two_plus. by replace (la - lb + lb) with la by lia. }
  assert (Qpower 2 (la + 1) == Qpower 2 (la - lb + 1) * Qpower 2 lb)%Q as E2.
  { rewrite <-two_plus. by replace (la - lb + 1 + lb) with (la + 1) by lia. }
  assert (Qpower 2 la == Qpower 2 (la - lb - 1) * Qpower 2 (lb + 1))%Q as E3.
  { rewrite <-two_plus. by replace (la - lb - 1 + (lb + 1)) with la by lia. }
  assert (a # b < Qpower 2 (la - lb + 1))%Q as Hup.
  { apply Qnot_le_lt. intros Hle.
    assert (Qpower 2 (la - lb + 1) * Qpower 2 lb <= (a # b) * inject_Z (Z.pos b))%Q.
    { apply Qle_trans with ((a # b) * Qpower 2 lb)%Q.
      - apply Qmult_le_compat_r; lra.
      - rewrite !(Qmult_comm (a # b)). apply Qmult_le_compat_r; lra. }
    lra. }
  assert (Qpower 2 (la - lb - 1) <= a # b)%Q as Hlow.
  { apply Qnot_lt_le. intros Hlt.
    assert ((a # b) * inject_Z (Z.pos b) < Qpower 2 (la - lb - 1) * Qpower 2 (lb + 1))%Q.
    { apply Qle_lt_trans with ((a # b) * Qpower 2 (lb + 1))%Q.
      - rewrite !(Qmult_comm (a # b)). apply Qmult_le_compat_r; lra.
      - apply Qmult_lt_compat_r; [apply two_pos|done]. }
    lra. }
  destruct (Qle_bool (Qpower 2 (la - lb)) (a # b)) eqn:Hb'.
  - apply Qle_bool_iff in Hb'. done.
  - split; [done|]. replace (la - lb - 1 + 1) with (la - lb) by lia.
    apply Qnot_le_lt. intros Hle. apply Qle_bool_iff in Hle. congruence.
Qed.

Lemma ilog2_mono x y : (0 < x)%Q → (x <= y)%Q → ilog2 x <= ilog2 y.
Proof.
  intros Hx Hxy.
  destruct (ilog2_spec x Hx) as [Hl _].
  destruct (ilog2_spec y) as [_ Hu]; [lra|].
  assert (ilog2 x < ilog2 y + 1); [|lia].
  apply two_lt_inv. lra.
Qed.

(** ** [RN] *)

Lemma fexp_upper x : (0 < x)%Q → (x < Qpower 2 (fexp x + 53))%Q.
Proof.
  intros Hx. unfold fexp.
  assert (Qabs x == x)%Q as Habs by (apply Qabs_pos; lra).
  destruct (ilog2_spec (Qabs x)) as [_ Hu]; [lra|].
  rewrite Habs in Hu at 1.
  eapply Qlt_le_trans; [exact Hu|]. apply two_le. lia.
Qed.

Lemma fexp_lower x :
  (0 < x)%Q → -1074 < fexp x → (Qpower 2 (fexp x + 52) <= x)%Q.
Proof.
  intros Hx. unfold fexp. intros He.
  assert (Qabs x == x)%Q as Habs by (apply Qabs_pos; lra).
  destruct (ilog2_spec (Qabs x)) as [Hl _]; [lra|].
  rewrite Habs in Hl at 2.
  eapply Qle_trans; [|exact Hl]. apply two_le. lia.
Qed.

Lemma fexp_mono x y : (0 < x)%Q → (x <= y)%Q → fexp x <= fexp y.
Proof.
  intros Hx Hxy. unfold fexp.
  assert (ilog2 (Qabs x) <= ilog2 (Qabs y)); [|lia].
  apply ilog2_mono.
  - rewrite Qabs_pos; lra.
  - rewrite !Qabs_pos; lra.
Qed.

Lemma RN_pos x :
  (0 < x)%Q →
  RN x = (inject_Z (round_half_even (x / Qpower 2 (fexp x))) * Qpower 2 (fexp x))%Q.
Proof.
  intros Hx. unfold RN. destruct (Qeq_bool x 0) eqn:Hz; [|done].
  apply Qeq_bool_iff in Hz. lra.
Qed.

Lemma RN_zero x : (x == 0)%Q → RN x = 0%Q.
Proof. intros Hx. unfold RN. apply Qeq_bool_iff in Hx. by rewrite Hx. Qed.

Lemma div_two_le x y e : (x <= y)%Q → (x / Qpower 2 e <= y / Qpower 2 e)%Q.
Proof.
  intros. pose proof (two_pos e). unfold Qdiv.
  apply Qmult_le_compat_r; [done|]. apply Qlt_le_weak, Qinv_lt_0_compat. done.
Qed.

Lemma RN_nonneg x : (0 <= x)%Q → (0 <= RN x)%Q.
Proof.
  intros Hx. destruct (Qle_lt_or_eq _ _ Hx) as [Hpos|Hz].
  - rewrite RN_pos by done. pose proof (two_pos (fexp x)).
    apply Qmult_le_0_compat; [|lra].
    rewrite <-(Zle_Qle 0). rewrite <-(round_half_even_Z 0).
    apply round_half_even_mono. change (inject_Z 0) with 0%Q.
    rewrite <-(Qmult_0_l (/ Qpower 2 (fexp x))). apply (div_two_le 0 x), Hx.
  - rewrite RN_zero; [lra|]. lra.
Qed.

(** Rounding to the nearest double is monotone. *)
Lemma RN_mono x y : (0 <= x)%Q → (x <= y)%Q → (RN x <= RN y)%Q.
Proof.
  intros Hx Hxy. destruct (Qle_lt_or_eq _ _ Hx) as [Hpos|Hz].
  2: { rewrite (RN_zero x) by lra. apply RN_nonneg. lra. }
  assert (0 < y)%Q as Hy by lra.
  rewrite (RN_pos x), (RN_pos y) by done.
  pose proof (fexp_mono x y Hpos Hxy) as He.
  pose proof (two_pos (fexp x)). pose proof (two_pos (fexp y)).
  destruct (decide (fexp x = fexp y)) as [Heq|Hne].
  - rewrite Heq. apply Qmult_le_compat_r; [|lra].
    rewrite <-Zle_Qle. apply round_half_even_mono, div_two_le, Hxy.
  - assert (fexp x + 1 <= fexp y) as Hlt by lia.
    apply Qle_trans with (Qpower 2 (fexp x + 53)).
    + assert (Qpower 2 (fexp x + 53) == inject_Z (2 ^ 53) * Qpower 2 (fexp x))%Q as ->.
      { rewrite two_inject by lia. rewrite <-two_plus. by rewrite Z.add_comm. }
      apply Qmult_le_compat_r; [|lra].
      rewrite <-Zle_Qle. rewrite <-(round_half_even_Z (2 ^ 53)).
      apply round_half_even_mono. rewrite two_inject by lia.
      apply Qle_shift_div_r; [done|]. rewrite <-two_plus, Z.add_comm.
      apply Qlt_le_weak, fexp_upper, Hpos.
    + apply Qle_trans with (Qpower 2 (fexp y + 52)); [apply two_le; lia|].
      assert (Qpower 2 (fexp y + 52) == inject_Z (2 ^ 52) * Qpower 2 (fexp y))%Q as ->.
      { rewrite two_inject by lia. rewrite <-two_plus. by rewrite Z.add_comm. }
      apply Qmult_le_compat_r; [|lra].
      rewrite <-Zle_Qle. rewrite <-(round_half_even_Z (2 ^ 52)).
      apply round_half_even_mono. rewrite two_inject by lia.
      apply Qle_shift_div_l; [done|]. rewrite <-two_plus, Z.add_comm.
      apply fexp_lower; [done|]. unfold fexp in *. lia.
Qed.

Lemma RN_1 : (RN 1 == 1)%Q.
Proof. vm_compute. reflexivity. Qed.

Lemma RN_100 : (RN 100 == 100)%Q.
Proof. vm_compute. reflexivity. Qed.

Lemma no_overflow x : (0 <= x)%Q → (x <= 100)%Q → overflows x = false.
Proof.
  intros H0 H100. unfold overflows.
  destruct (Qle_bool _ _) eqn:Hb; [|done].
  apply Qle_bool_iff in Hb. rewrite Qabs_pos in Hb by done.
  assert (100 < Qpower 2 1024)%Q by (vm_compute; reflexivity). lra.
Qed.

(** ** The percentage *)

Lemma ratio_bounds w l :
  0 <= w <= l → 0 < l → (0 <= inject_Z w / inject_Z l)%Q ∧ (inject_Z w / inject_Z l <= 1)%Q.
Proof.
  intros Hw Hl.
  assert (0 < inject_Z l)%Q by (by rewrite <-(Zlt_Qlt 0)).
  assert (0 <= inject_Z w)%Q by (rewrite <-(Zle_Qle 0); lia).
  assert (inject_Z w <= inject_Z l)%Q by (rewrite <-Zle_Qle; lia).
  split.
  - apply Qle_shift_div_l; [done|]. lra.
  - apply Qle_shift_div_r; [done|]. lra.
Qed.

Lemma ratio_mono w w' l :
  w <= w' → 0 < l → (inject_Z w / inject_Z l <= inject_Z w' / inject_Z l)%Q.
Proof.
  intros Hw Hl.
  assert (0 < inject_Z l)%Q by (by rewrite <-(Zlt_Qlt 0)).
  assert (inject_Z w <= inject_Z w')%Q by (by rewrite <-Zle_Qle).
  unfold Qdiv. apply Qmult_le_compat_r; [done|].
  by apply Qlt_le_weak, Qinv_lt_0_compat.
Qed.

Lemma scaled_bounds w l :
  0 <= w <= l → 0 < l →
  (0 <= RN (inject_Z w / inject_Z l))%Q ∧ (RN (inject_Z w / inject_Z l) <= 1)%Q ∧
  (0 <= scaled w l)%Q ∧ (scaled w l <= 100)%Q.
Proof.
  intros Hw Hl. destruct (ratio_bounds w l Hw Hl) as [H0 H1].
  assert (0 <= RN (inject_Z w / inject_Z l))%Q as Hx0 by (by apply RN_nonneg).
  assert (RN (inject_Z w / inject_Z l) <= 1)%Q as Hx1.
  { apply Qle_trans with (RN 1); [by apply RN_mono|].
    apply Qle_lteq. right. apply RN_1. }
  split_and!; [done|done|..]; unfold scaled.
  - apply RN_nonneg. lra.
  - apply Qle_trans with (RN 100); [apply RN_mono; lra|].
    apply Qle_lteq. right. apply RN_100.
Qed.

Lemma percent_scaled w l :
  0 <= w <= l → 0 < l → percent w l = inr (round_half_even (scaled w l)).
Proof.
  intros Hw Hl. destruct (scaled_bounds w l Hw Hl) as (Hx0 & Hx1 & Hy0 & Hy1).
  unfold percent. destruct (Z.eqb_spec l 0); [lia|].
  rewrite no_overflow by lra. fold (scaled w l).
  by rewrite no_overflow.
Qed.

(** Within the declared length the percentage is defined and lies
    between 0 and 100. *)
Lemma percent_range w l :
  0 <= w <= l → 0 < l → ∃ p, percent w l = inr p ∧ 0 <= p <= 100.
Proof.
  intros Hw Hl. eexists. split; [by apply percent_scaled|].
  destruct (scaled_bounds w l Hw Hl) as (_ & _ & Hy0 & Hy1).
  rewrite <-(round_half_even_Z 0), <-(round_half_even_Z 100).
  split; by apply round_half_even_mono.
Qed.

Lemma percent_0 l : 0 < l → percent 0 l = inr 0.
Proof.
  intros Hl. rewrite percent_scaled by lia. reflexivity.
Qed.

(** ** The values a download writes to its registry entry *)

Lemma total_cons c cs : total (c :: cs) = Z.of_nat (List.length c) + total cs.
Proof. unfold total. simpl. rewrite length_app. lia. Qed.

Lemma total_nonneg cs : 0 <= total cs.
Proof. unfold total. lia. Qed.

Lemma chunks_of_total fuel n b : total (chunks_of fuel n b) <= Z.of_nat (List.length b).
Proof.
  revert b. induction fuel as [|fuel IH]; intros b; simpl; [unfold total; simpl; lia|].
  destruct b as [|x b]; [unfold total; simpl; lia|].
  rewrite total_cons. specialize (IH (drop n (x :: b))).
  rewrite <-(take_drop n (x :: b)) at 3. rewrite length_app. lia.
Qed.

Lemma iter_content_total plan n b :
  total (iter_content plan n b) <= Z.of_nat (List.length b).
Proof.
  revert b. induction plan as [|s plan IH]; intros b; simpl; [apply chunks_of_total|].
  destruct b as [|x b]; [unfold total; simpl; lia|].
  destruct (s =? 0)%nat; [apply IH|].
  rewrite total_cons. specialize (IH (drop s (x :: b))).
  rewrite <-(take_drop s (x :: b)) at 3. rewrite length_app. lia.
Qed.

Lemma written_values_other n t ev tr :
  t ≠ Worker n → written_values n ((t, ev) :: tr) = written_values n tr.
Proof.
  intros Ht. destruct t as [|m|]; simpl; try done.
  destruct ev; try done; case_decide; congruence.
Qed.

(** ** [iter_content] *)

Lemma CHUNK_SIZE_pos : (0 < CHUNK_SIZE)%nat.
Proof. unfold CHUNK_SIZE. lia. Qed.

Lemma chunks_of_concat fuel n b :
  (0 < n)%nat → (List.length b ≤ fuel)%nat → concat (chunks_of fuel n b) = b.
Proof.
  intros Hn. revert b. induction fuel as [|fuel IH]; intros b Hb.
  - destruct b; [done|simpl in Hb; lia].
  - destruct b as [|x b]; [done|]. simpl chunks_of.
    rewrite concat_cons, IH; [apply take_drop|].
    rewrite length_drop. simpl in *. lia.
Qed.




Lemma iter_content_concat plan n b :
  (0 < n)%nat → concat (iter_content plan n b) = b.
Proof.
  intros Hn. revert b. induction plan as [|s plan IH]; intros b; simpl.
  - by apply chunks_of_concat.
  - destruct b as [|x b]; [done|]. destruct (s =? 0)%nat; [apply IH|].
    rewrite concat_cons, IH. apply take_drop.
Qed.


(** ** The values a download writes to its registry entry *)

Lemma total_app pre rest : total (pre ++ rest) = total pre + total rest.
Proof. unfold total. rewrite concat_app, length_app. lia. Qed.

Lemma ratio_nonneg w l : 0 <= w → 0 < l → (0 <= inject_Z w / inject_Z l)%Q.
Proof.
  intros Hw Hl.
  assert (0 < inject_Z l)%Q by (by rewrite <-(Zlt_Qlt 0)).
  assert (0 <= inject_Z w)%Q by (rewrite <-(Zle_Qle 0); lia).
  apply Qle_shift_div_l; [done|]. lra.
Qed.

Lemma scaled_nonneg w l : 0 <= w → 0 < l → (0 <= scaled w l)%Q.
Proof.
  intros Hw Hl. unfold scaled. apply RN_nonneg.
  pose proof (RN_nonneg _ (ratio_nonneg w l Hw Hl)). lra.
Qed.

Lemma scaled_mono w w' l : 0 <= w <= w' → 0 < l → (scaled w l <= scaled w' l)%Q.
Proof.
  intros Hw Hl. unfold scaled.
  pose proof (RN_nonneg _ (ratio_nonneg w l ltac:(lia) Hl)).
  apply RN_mono; [lra|]. apply Qmult_le_compat_r; [|lra].
  apply RN_mono; [apply ratio_nonneg; lia|apply ratio_mono; lia].
Qed.

(** What [percent] returns is the rounded product. *)
Lemma percent_inr w l p : percent w l = inr p → p = round_half_even (scaled w l).
Proof.
  unfold percent, scaled. cbv zeta. intros Hp.
  repeat case_match; congruence.
Qed.

(** The percentage grows with the number of bytes written, also beyond
    the declared length. *)
Lemma percent_grows w w' l p p' :
  0 <= w <= w' → 0 < l →
  percent w l = inr p → percent w' l = inr p' → p <= p'.
Proof.
  intros Hw Hl ->%percent_inr ->%percent_inr.
  by apply round_half_even_mono, scaled_mono.
Qed.

Lemma percent_nonneg w l p : 0 <= w → 0 < l → percent w l = inr p → 0 <= p.
Proof.
  intros Hw Hl ->%percent_inr. rewrite <-(round_half_even_Z 0).
  by apply round_half_even_mono, scaled_nonneg.
Qed.

Lemma streaming_received E i l w rest :
  streaming E i l w rest →
  ∃ r, http E (url i) = inr r ∧ header_length r = inr l ∧
       0 <= w ∧ w + total rest = Z.of_nat (List.length (body r)).
Proof.
  intros (r & pre & Hr & Hl & Hpre & ->). exists r. split_and!; [done|done|..].
  - apply total_nonneg.
  - rewrite <-total_app, <-Hpre. unfold total.
    by rewrite iter_content_concat by apply CHUNK_SIZE_pos.
Qed.

Lemma streaming_next E i l w c rest :
  streaming E i l w (c :: rest) →
  streaming E i l (w + Z.of_nat (List.length c)) rest.
Proof.
  intros (r & pre & Hr & Hl & Hpre & ->). exists r, (pre ++ [c]).
  split_and!; [done|done|by rewrite <-app_assoc|].
  rewrite total_app, total_cons. unfold total. simpl. lia.
Qed.

Lemma values_fine_nil E i : values_fine E i [].
Proof. intros r l _ _ _. split_and!; [done|constructor|]. by constructor. Qed.

Lemma values_fine_zero E i : values_fine E i [0].
Proof.
  intros r l _ _ _. split_and!; [done|by repeat constructor|].
  intros _. by repeat constructor.
Qed.

(** A statement of worker [m] leaves the invariant to be checked at [m]
    only. *)
Lemma download_inv_worker E σ σ' m pc pc' :
  download_inv E σ →
  pc_workers σ !! m = Some pc →
  pc_workers σ' = <[m := pc']> (pc_workers σ) →
  (∀ n, n ≠ m → written_values n (trace σ') = written_values n (trace σ)) →
  (download_at E pc (written_values m (trace σ)) →
   (∀ i, wtask pc = Some i → values_fine E i (written_values m (trace σ))) →
   download_at E pc' (written_values m (trace σ')) ∧
   ∀ i, wtask pc' = Some i → values_fine E i (written_values m (trace σ'))) →
  download_inv E σ'.
Proof.
  intros Hinv Hm Hws Hother Hself n pcn. rewrite Hws.
  destruct (decide (n = m)) as [->|Hne].
  - rewrite list_lookup_insert_eq by (by eapply lookup_lt_Some).
    intros [= <-]. destruct (Hinv m pc Hm). auto.
  - rewrite list_lookup_insert_ne by done. rewrite Hother by done. apply Hinv.
Qed.

Lemma download_inv_other E σ σ' :
  download_inv E σ →
  pc_workers σ' = pc_workers σ →
  (∀ n, written_values n (trace σ') = written_values n (trace σ)) →
  download_inv E σ'.
Proof. intros Hinv Hws Htr n pc. rewrite Hws, Htr. apply Hinv. Qed.

Lemma step_download_inv E t σ : download_inv E σ → download_inv E (step E t σ).
Proof.
  intros Hinv. step_cases t σ; try done.
  all: try (eapply download_inv_other; [done|done|]; intros; simpl;
            by rewrite ?written_values_other).
  all: eapply download_inv_worker; [done|done|done|..];
    [ by (intros; simpl; rewrite ?decide_False by congruence)
    | simpl; rewrite ?decide_True by done ].
  all: intros Hat Hfine; simpl in Hat.
  all: repeat match goal with
       | H : _ ∧ _ |- _ => destruct H
       end.
  all: split;
    [|intros i0 Hi0; simplify_eq;
      try first [ by apply Hfine
                | by rewrite ?Hat; apply values_fine_nil
                | by rewrite ?Hat; apply values_fine_zero ]].
  all: try done.
  all: try (by rewrite Hat).
  all: lazymatch goal with
       | Hn : pc_workers _ !! _ = Some (WOpen _ ?r ?l), Hvs : _ = [0] |- _ =>
           split;
           [ exists r, []; done
           | intros Hl; exists 0; split; [by apply percent_0|];
             rewrite Hvs; by repeat constructor ]
       | Hn : pc_workers _ !! _ = Some (WPercent _ ?l ?w ?c _),
         Hs : streaming _ _ _ _ _, Hp : _ → ∃ _, _ |- _ =>
           split_and!; [by apply streaming_next|done|];
           intros Hl; destruct (Hp Hl) as (p0 & Hp0 & Hle);
           destruct (streaming_received _ _ _ _ _ Hs) as (_ & _ & _ & Hw & _);
           eapply Forall_impl; [exact Hle|]; simpl; intros v Hv;
           etrans; [exact Hv|]; eapply (percent_grows w); [|exact Hl|done|done]; lia
       | Hn : pc_workers _ !! _ = Some (WUpdate _ ?l ?w ?p _),
         Hs : streaming _ _ _ _ _ |- streaming _ _ _ _ _ ∧ _ =>
           split; [done|]; intros Hl; exists p; split; [done|];
           constructor; [lia|auto]
       | Hn : pc_workers _ !! _ = Some (WUpdate _ ?l ?w ?p ?rest),
         Hs : streaming _ _ _ _ _, Hp : percent _ _ = inr _, Hle : _ → Forall _ _
         |- values_fine _ _ _ =>
           intros r0 l0 Hr0 Hl0 Hpos;
           destruct (streaming_received _ _ _ _ _ Hs) as (r1 & Hr1 & Hl1 & Hw & Hsum);
           assert (r1 = r0) as -> by congruence;
           assert (l0 = l) as -> by congruence;
           destruct (Hfine _ eq_refl r0 l Hr0 Hl0 Hpos) as (Hnd & Hge & Hbound);
           specialize (Hle Hpos);
           split_and!;
           [ simpl; split; [|done];
             destruct (written_values _ _); [done|];
             by apply Forall_cons_1 in Hle as [? _]
           | constructor; [by eapply percent_nonneg|done]
           | intros Hfit; pose proof (total_nonneg rest);
             destruct (percent_range w l) as (p' & Hp' & ?); [lia|done|];
             assert (p' = p) as -> by congruence;
             constructor; [lia|auto] ]
       | _ => idtac
       end.
Qed.

Lemma reachable_download_inv E W fs σ : reachable E W fs σ → download_inv E σ.
Proof.
  revert σ. apply reachable_ind.
  - intros n pc [-> _]%lookup_replicate_1. split; [done|]. by intros i [=].
  - intros σ t _. apply step_download_inv.
Qed.

(** ** One worker alone *)

Lemma solo_S E t k σ : solo E t (S k) σ = solo E t k (step E t σ).
Proof. unfold solo. by rewrite Nat.iter_succ_r. Qed.

Lemma solo_0 E t σ : solo E t 0 σ = σ.
Proof. done. Qed.

Lemma dict_del_set k v d : is_Some (dict_del k (dict_set k v d)).
Proof.
  induction d as [|[k0 v0] d IH]; simpl.
  - rewrite decide_True by done. eauto.
  - case_decide; simpl.
    + rewrite decide_True by done. eauto.
    + rewrite decide_False by done. destruct IH as [d' ->]. eauto.
Qed.

Lemma dict_del_set_fresh k v d :
  k ∉ dict_keys d → dict_del k (dict_set k v d) = Some d.
Proof.
  unfold dict_keys. induction d as [|[k0 v0] d IH]; simpl; intros Hk.
  - by rewrite decide_True.
  - apply not_elem_of_cons in Hk as [Hne Hk]. simpl in Hne.
    rewrite decide_False by done. simpl. rewrite decide_False by done.
    by rewrite IH.
Qed.


(** The loop body on one chunk. *)
Lemma solo_chunk E σ n i l w c cs p :
  pc_workers σ !! n = Some (WFor i l w (c :: cs)) →
  lock σ = None →
  write_fails E (filename i) w = false →
  percent (w + Z.of_nat (List.length c)) l = inr p →
  solo E (Worker n) 6 σ =
    set_lock None
      (emit (Worker n) (EvSet (display_filename i) p)
        (set_downloading (dict_set (display_filename i) p (currently_downloading σ))
          (emit (Worker n) (EvWrite (filename i) c)
            (set_files (file_append (filename i) c (files σ))
              (emit (Worker n) (EvRecv i)
                (set_worker n (WFor i l (w + Z.of_nat (List.length c)) cs) σ)))))).
Proof.
  intros Hpc Hlock Hw Hp.
  assert (n < List.length (pc_workers σ))%nat as Hlt by (by eapply lookup_lt_Some).
  destruct σ as [q u d lk fin fs ws ri mn tr]. simpl in Hpc, Hlock, Hlt. subst lk.
  symmetry. etrans; [|symmetry].
  { cbv [set_lock emit set_downloading set_files set_worker set_unfinished
         queue unfinished_tasks currently_downloading lock finish files
         pc_workers pc_info pc_main trace]. reflexivity. }
  repeat (rewrite solo_S; unfold step at 1; cbn [pc_workers];
          rewrite ?list_lookup_insert_eq by (by rewrite ?length_insert);
          rewrite ?Hpc; cbn [worker lock]; rewrite ?Hw, ?Hp;
          cbv [set_lock emit set_downloading set_files set_worker set_unfinished
               queue unfinished_tasks currently_downloading lock finish files
               pc_workers pc_info pc_main trace]).
  rewrite solo_0, !list_insert_insert_eq. done.
Qed.


(** ** The percentage is computed on received data only *)







(** ** A failed download *)

Lemma step_stuck t σ : stuck σ → stuck (step world_404 t σ).
Proof.
  intros (Hfin & Hfiles & Hws & Hmain).
  step_cases t σ; try done.
  all: try match goal with
       | H : is_Some (files _ !! _) |- _ =>
           exfalso; clear -H Hfiles; rewrite Hfiles, lookup_empty in H; by destruct H
       end.
  all: try match goal with
       | Hn : pc_workers _ !! _ = Some ?p |- _ =>
           assert (before_status p) as Hpc by
             (eapply Forall_lookup_1; [exact Hws|exact Hn]); simpl in Hpc
       end.
  all: try done.
  all: try congruence.
  all: simpl in *; simplify_eq.
  all: split_and!; simpl; try done.
  all: try (match goal with H : pc_main _ = _ |- _ => rewrite H end; simpl;
            first [done | lia | (split; [done|lia])]).
  all: try (apply Forall_insert; [done|]; simpl; done).
  all: try (destruct (pc_main σ) as [[|? [|? ?]]|? [|? ?]|? [|? ?]| | | | | |];
            simpl in *; done).
  all: try (destruct Hmain; simplify_eq; done).
  all: try (simplify_eq; lia).
Qed.

Lemma reachable_stuck W σ : reachable world_404 W ∅ σ → stuck σ.
Proof.
  revert σ. apply reachable_ind.
  - repeat split. apply Forall_replicate. done.
  - intros σ t _. apply step_stuck.
Qed.

(** ** Strings *)

Lemma str_cons_app x (a b : string) : (String x a ++ b)%string = String x (a ++ b).
Proof. reflexivity. Qed.

Lemma str_app_assoc (a b c : string) : ((a ++ b) ++ c = a ++ (b ++ c))%string.
Proof. induction a as [|x a IH]; [done|]. rewrite !str_cons_app. by rewrite IH. Qed.

Lemma str_app_nil_r (a : string) : (a ++ "")%string = a.
Proof. induction a as [|x a IH]; [done|]. rewrite str_cons_app. by rewrite IH. Qed.

Lemma count_newlines_app a b :
  count_newlines (a ++ b) = (count_newlines a + count_newlines b)%nat.
Proof.
  induction a as [|c a IH]; [done|]. rewrite str_cons_app. simpl.
  destruct (Ascii.eqb c LF); simpl; by rewrite IH.
Qed.

Lemma printable_str_app a b :
  printable_str (a ++ b) = printable_str a && printable_str b.
Proof.
  induction a as [|c a IH]; [done|]. rewrite str_cons_app. simpl.
  by rewrite IH, andb_assoc.
Qed.

Lemma printable_not_control c :
  printable c = true → Ascii.eqb c ESC = false ∧ Ascii.eqb c LF = false.
Proof.
  intros Hc. split; apply Ascii.eqb_neq; intros ->; vm_compute in Hc; done.
Qed.

Lemma printable_no_newline s : printable_str s = true → count_newlines s = 0%nat.
Proof.
  induction s as [|c s IH]; simpl; [done|]. intros [Hc Hs]%andb_prop.
  destruct (printable_not_control c Hc) as [_ ->]. auto.
Qed.

Lemma printable_uint u : printable_str (NilEmpty.string_of_uint u) = true.
Proof. induction u; simpl; done. Qed.

Lemma printable_str_int z : printable_str (str_int z) = true.
Proof.
  unfold str_int. destruct (Z.to_int z) as [u|u]; simpl.
  - destruct u; try done; apply printable_uint.
  - destruct u; try done; apply printable_uint.
Qed.

(** ** The terminal *)

Lemma feed_app t a b : feed t (a ++ b) = feed (feed t a) b.
Proof.
  revert t. induction a as [|c a IH]; intros t; [done|].
  rewrite str_cons_app. simpl. apply IH.
Qed.

(** Text written at the end of [pre], over what followed it. *)
Lemma feed_text s rws r pre rest :
  printable_str s = true →
  rws !! r = Some (pre ++ rest) →
  feed (Terminal rws r (List.length pre) Ground) s =
  Terminal (<[r := pre ++ list_ascii_of_string s ++ drop (String.length s) rest]> rws)
           r (List.length pre + String.length s) Ground.
Proof.
  revert rws pre rest. induction s as [|c s IH]; intros rws pre rest Hs Hr.
  - simpl. rewrite drop_0, Nat.add_0_r. by rewrite list_insert_id.
  - simpl in Hs. apply andb_prop in Hs as [Hc Hs].
    destruct (printable_not_control c Hc) as [Hesc Hlf].
    simpl feed. unfold term_char. simpl mode. rewrite Hesc, Hlf, Hc.
    unfold on_row. simpl rows. simpl cur_row. simpl cur_col. rewrite Hr.
    assert (put_char c (List.length pre) (pre ++ rest) = (pre ++ [c]) ++ drop 1 rest) as ->.
    { unfold put_char. rewrite take_app_length, length_app.
      replace (List.length pre - (List.length pre + List.length rest))%nat with 0%nat by lia.
      simpl. rewrite <-app_assoc. simpl. do 2 f_equal.
      replace (S (List.length pre)) with (List.length pre + 1)%nat by lia.
      by rewrite drop_app_add. }
    replace (S (List.length pre)) with (List.length (pre ++ [c]))
      by (rewrite length_app; simpl; lia).
    rewrite IH with (rest := drop 1 rest); [|done|].
    + rewrite list_insert_insert_eq, length_app, drop_drop. simpl.
      rewrite <-!app_assoc. simpl. f_equal. lia.
    + apply list_lookup_insert_eq. by eapply lookup_lt_Some.
Qed.

(** [ESC [ K] in plain mode cuts the line at the cursor. *)
Lemma feed_clear_eol rws r c row :
  rws !! r = Some row →
  feed (Terminal rws r c Ground) CLEAR_EOL =
  Terminal (<[r := take c row]> rws) r c Ground.
Proof. intros Hr. simpl. unfold term_char, on_row. simpl. by rewrite Hr. Qed.

Lemma feed_newline rws r c :
  (S r < List.length rws)%nat →
  feed (Terminal rws r c Ground) NL = Terminal rws (S r) 0 Ground.
Proof.
  intros Hr. simpl. unfold term_char. simpl.
  destruct (Nat.ltb_spec (S r) (List.length rws)); [done|lia].
Qed.

(** A status line replaces the line under the cursor. *)
Lemma feed_line rws r k p :
  printable_str k = true →
  (S r < List.length rws)%nat →
  feed (Terminal rws r 0 Ground) (format_line k p) =
  Terminal (<[r := line_text (k, p)]> rws) (S r) 0 Ground.
Proof.
  intros Hk Hr.
  destruct (lookup_lt_is_Some_2 rws r) as [row Hrow]; [lia|].
  unfold format_line.
  replace ("Downloading " ++ k ++ "... " ++ str_int p ++ "%" ++ CLEAR_EOL ++ NL)%string
    with (("Downloading " ++ k ++ "... " ++ str_int p ++ "%") ++ CLEAR_EOL ++ NL)%string.
  2: { by rewrite !str_app_assoc. }
  assert (printable_str ("Downloading " ++ k ++ "... " ++ str_int p ++ "%") = true) as Hp.
  { rewrite !printable_str_app, Hk, printable_str_int. done. }
  unfold line_text. simpl fst. simpl snd.
  set (T := ("Downloading " ++ k ++ "... " ++ str_int p ++ "%")%string) in *.
  clearbody T.
  rewrite (feed_app _ T), (feed_app _ CLEAR_EOL).
  rewrite (feed_text _ rws r [] row); [|done|done].
  simpl List.length. rewrite Nat.add_0_l. simpl app at 1.
  erewrite feed_clear_eol.
  2: { apply list_lookup_insert_eq. by eapply lookup_lt_Some. }
  rewrite list_insert_insert_eq.
  rewrite feed_newline by (by rewrite length_insert).
  f_equal. f_equal. rewrite take_app_length'; [done|].
  clear. induction T; simpl; auto.
Qed.

Lemma take_S_insert {A} (l : list A) r x :
  (r < List.length l)%nat → take (S r) (<[r := x]> l) = take r l ++ [x].
Proof.
  intros Hr. erewrite take_S_r by (by apply list_lookup_insert_eq).
  by rewrite take_insert_ge.
Qed.

(** A block of status lines replaces as many lines from the cursor on. *)
Lemma feed_block d rws r :
  Forall (λ kv : string * Z, printable_str kv.1 = true) d →
  (r + List.length d < List.length rws)%nat →
  feed (Terminal rws r 0 Ground) (format_block d) =
  Terminal (take r rws ++ (line_text <$> d) ++ drop (r + List.length d) rws)
           (r + List.length d) 0 Ground.
Proof.
  revert rws r. induction d as [|[k p] d IH]; intros rws r Hd Hr.
  - simpl. by rewrite Nat.add_0_r, take_drop.
  - apply Forall_cons_1 in Hd as [Hk Hd]. simpl in Hk, Hr.
    cbn [format_block]. rewrite feed_app, feed_line by (done || lia).
    rewrite IH by (rewrite ?length_insert; done || lia).
    rewrite take_S_insert by lia. rewrite drop_insert_lt by lia.
    rewrite fmap_cons, <-app_assoc. simpl.
    by replace (r + S (List.length d))%nat with (S (r + List.length d)) by lia.
Qed.

(** Blank cleared lines do the same with empty lines. *)
Lemma feed_pad m rws r :
  (r + m < List.length rws)%nat →
  feed (Terminal rws r 0 Ground) (str_repeat (CLEAR_EOL ++ NL) m) =
  Terminal (take r rws ++ replicate m [] ++ drop (r + m) rws) (r + m) 0 Ground.
Proof.
  revert rws r. induction m as [|m IH]; intros rws r Hr.
  - simpl. by rewrite Nat.add_0_r, take_drop.
  - destruct (lookup_lt_is_Some_2 rws r) as [row Hrow]; [lia|].
    cbn [str_repeat]. rewrite !feed_app.
    erewrite feed_clear_eol by done. rewrite take_0.
    rewrite feed_newline by (rewrite length_insert; lia).
    rewrite IH by (rewrite ?length_insert; lia).
    rewrite take_S_insert by lia. rewrite drop_insert_lt by lia.
    rewrite <-app_assoc. simpl.
    by replace (r + S m)%nat with (S (r + m)) by lia.
Qed.

Lemma feed_digits u n rws r c :
  feed (Terminal rws r c (Csi n)) (NilEmpty.string_of_uint u) =
  Terminal rws r c (Csi (Nat.of_uint_acc u n)).
Proof.
  revert n. induction u; intros n; simpl; [done|..];
    rewrite ?Nat.tail_mul_spec; unfold term_char; simpl;
    rewrite IHu; do 3 f_equal; lia.
Qed.

Lemma feed_str_nat k rws r c :
  feed (Terminal rws r c (Csi 0)) (str_nat k) = Terminal rws r c (Csi k).
Proof.
  unfold str_nat.
  rewrite <-(DecimalNat.Unsigned.of_to k) at 2. unfold Nat.of_uint.
  destruct (Nat.to_uint k) eqn:Hk; try apply feed_digits. done.
Qed.

Lemma feed_csi rws r c s :
  feed (Terminal rws r c Ground) (String ESC (String "[" s)) =
  feed (Terminal rws r c (Csi 0)) s.
Proof. reflexivity. Qed.

(** [ESC [ k F] moves the cursor to the start of the line [k] lines up. *)
Lemma feed_cursor_up k rws r c :
  (0 < k)%nat →
  feed (Terminal rws r c Ground) (cursor_up k) = Terminal rws (r - k) 0 Ground.
Proof.
  intros Hk. unfold cursor_up.
  change (String ESC "[" ++ str_nat k ++ "F")%string
    with (String ESC (String "[" (str_nat k ++ "F")))%string.
  rewrite feed_csi, feed_app, feed_str_nat.
  cbn. unfold term_char. cbn. do 2 f_equal. lia.
Qed.

(** ** One round of the renderer *)

Lemma tick_state E σ s :
  pc_info σ = RWhile s →
  finish σ = false →
  lock σ = None →
  let k := count_newlines s in
  let d := currently_downloading σ in
  let s' := if (List.length d =? 0)%nat then format_block d
            else pad_block k (format_block d) in
  pc_info (tick E σ) = RWhile s' ∧
  lock (tick E σ) = None ∧
  currently_downloading (tick E σ) = d ∧
  trace (tick E σ) =
    (Info, EvSleep) ::
    (if (List.length d =? 0)%nat then [] else [(Info, EvPrint s')]) ++
    (if (k =? 0)%nat then [] else [(Info, EvPrint (cursor_up k))]) ++
    trace σ.
Proof.
  intros Hpc Hfin Hlock k d s'. subst k d s'.
  destruct σ as [q u d lk fin fs ws ri mn tr]. simpl in Hpc, Hfin, Hlock. subst.
  destruct (Nat.eqb_spec (count_newlines s) 0) as [Hk|Hk];
  destruct (Nat.eqb_spec (List.length d) 0) as [Hd|Hd].
  all: eassert (tick E _ = _) as ->;
    [ unfold tick;
      repeat (rewrite solo_S; unfold step at 1; cbn [pc_info downloading_info_thread];
              cbn [finish lock currently_downloading];
              rewrite ?(proj2 (Nat.eqb_eq _ _) Hk), ?(proj2 (Nat.eqb_eq _ _) Hd),
                      ?(proj2 (Nat.eqb_neq _ _) Hk), ?(proj2 (Nat.eqb_neq _ _) Hd);
              cbv [set_lock emit set_info queue unfinished_tasks currently_downloading
                   lock finish files pc_workers pc_info pc_main trace]);
      rewrite solo_0; reflexivity
    | cbn [pc_info lock currently_downloading trace];
      rewrite ?(proj2 (Nat.eqb_eq _ _) Hk), ?(proj2 (Nat.eqb_eq _ _) Hd),
              ?(proj2 (Nat.eqb_neq _ _) Hk), ?(proj2 (Nat.eqb_neq _ _) Hd); done ].
Qed.

Lemma tick_output E σ s :
  pc_info σ = RWhile s →
  finish σ = false →
  lock σ = None →
  let k := count_newlines s in
  let d := currently_downloading σ in
  new_output σ (tick E σ) =
    ((if (k =? 0)%nat then "" else cursor_up k) ++
     (if (List.length d =? 0)%nat then "" else pad_block k (format_block d)))%string.
Proof.
  intros Hpc Hfin Hlock k d.
  destruct (tick_state E σ s Hpc Hfin Hlock) as (_ & _ & _ & Htr).
  fold k d in Htr. unfold new_output. rewrite Htr.
  destruct (k =? 0)%nat, (List.length d =? 0)%nat; simpl;
    rewrite ?Nat.sub_succ_l, ?Nat.sub_diag by lia; simpl;
    rewrite ?take_0; simpl; by rewrite ?str_app_nil_r.
Qed.

Lemma count_newlines_line k p :
  printable_str k = true → count_newlines (format_line k p) = 1%nat.
Proof.
  intros Hk. unfold format_line. rewrite !count_newlines_app.
  rewrite (printable_no_newline k Hk), (printable_no_newline _ (printable_str_int p)).
  reflexivity.
Qed.

Lemma count_newlines_block d :
  Forall (λ kv : string * Z, printable_str kv.1 = true) d →
  count_newlines (format_block d) = List.length d.
Proof.
  induction 1 as [|[k p] d Hk Hd IH]; [done|].
  cbn [format_block]. rewrite count_newlines_app, count_newlines_line, IH; done.
Qed.

Lemma count_newlines_repeat m :
  count_newlines (str_repeat (CLEAR_EOL ++ NL) m) = m.
Proof.
  induction m as [|m IH]; [done|].
  cbn [str_repeat]. rewrite count_newlines_app, IH. reflexivity.
Qed.

(** The repaint of a block that shrank but is not empty. *)
Lemma feed_repaint d k rws r :
  Forall (λ kv : string * Z, printable_str kv.1 = true) d →
  (0 < List.length d < k)%nat →
  (k ≤ r < List.length rws)%nat →
  feed (Terminal rws r 0 Ground) (cursor_up k ++ pad_block k (format_block d)) =
  Terminal (repainted rws r k d) r 0 Ground.
Proof.
  intros Hd Hj Hr. set (j := List.length d) in *.
  unfold pad_block. rewrite count_newlines_block by done. fold j.
  destruct (Nat.ltb_spec j k) as [_|]; [|lia].
  rewrite !feed_app, feed_cursor_up by lia.
  rewrite feed_block by (done || (fold j; lia)). fold j.
  rewrite feed_pad.
  2: { rewrite !length_app, length_take, length_fmap, length_drop. fold j. lia. }
  unfold repainted. fold j. f_equal; [|lia].
  assert (List.length (take (r - k) rws ++ (line_text <$> d)) = (r - k + j)%nat) as Hlen.
  { rewrite length_app, length_take, length_fmap. fold j. lia. }
  rewrite !(app_assoc (take (r - k) rws)).
  rewrite take_app_length' by done.
  rewrite drop_app_add' by done.
  rewrite drop_drop. do 3 f_equal. lia.
Qed.

(** A repaint with an empty registry moves the cursor and leaves every
    line as it was. *)
Lemma repaint_empty E σ s rws r :
  pc_info σ = RWhile s →
  finish σ = false →
  lock σ = None →
  currently_downloading σ = [] →
  (0 < count_newlines s)%nat →
  feed (Terminal rws r 0 Ground) (new_output σ (tick E σ)) =
    Terminal rws (r - count_newlines s) 0 Ground.
Proof.
  intros Hpc Hfin Hlock Hd Hk.
  rewrite (tick_output E σ s) by done. rewrite Hd. simpl.
  destruct (Nat.eqb_spec (count_newlines s) 0) as [|_]; [lia|].
  rewrite str_app_nil_r. by apply feed_cursor_up.
Qed.

(** A screen that is its own cleared version had a blank block. *)
Lemma repainted_same (rws : list (list ascii)) r k :
  (k ≤ r)%nat →
  rws = repainted rws r k [] →
  take k (drop (r - k) rws) = replicate k [].
Proof.
  intros Hk Heq. unfold repainted in Heq. simpl in Heq.
  rewrite Nat.sub_0_r in Heq.
  rewrite <-(take_drop (r - k) rws) in Heq at 1.
  apply app_inv_head in Heq.
  rewrite <-(take_drop k (drop (r - k) rws)) in Heq at 1.
  rewrite drop_drop in Heq. replace (r - k + k)%nat with r in Heq by lia.
  by apply app_inv_tail in Heq.
Qed.


(* ===================================================================== *)
(** * Part V, continued. Lemmas for the further properties                *)
(* ===================================================================== *)

(** ** The counter of the queue *)

Lemma pending_count_insert ws n pc pc' :
  ws !! n = Some pc →
  (pending_count (<[n := pc']> ws) + (if wtask pc is Some _ then 1 else 0) =
   pending_count ws + (if wtask pc' is Some _ then 1 else 0))%nat.
Proof.
  unfold pending_count. revert n. induction ws as [|w ws IH]; intros [|n] Hn; try done.
  - simpl in Hn. simplify_eq. simpl. destruct (wtask pc), (wtask pc'); simpl; lia.
  - simpl in Hn. specialize (IH n Hn). simpl.
    change (omap wtask (<[n:=pc']> ws)) with (omap wtask (<[n:=pc']> ws)) in IH.
    destruct (wtask w); simpl; unfold omap in *; lia.
Qed.

Lemma pending_count_pos ws n pc :
  ws !! n = Some pc → is_Some (wtask pc) → (0 < pending_count ws)%nat.
Proof.
  unfold pending_count. revert n. induction ws as [|w ws IH]; intros [|n] Hn [i Hi]; try done.
  - simpl in Hn. simplify_eq. simpl. rewrite Hi. simpl. lia.
  - simpl in Hn. simpl. destruct (wtask w); simpl; [lia|]. eapply IH; eauto.
Qed.

Lemma wreturn_insert (ws : list wpc) (n : nat) pc' (b : bool) :
  (WReturn ∈ ws → b = true) →
  (pc' = WReturn → b = true) →
  WReturn ∈ <[n := pc']> ws → b = true.
Proof.
  intros Hws Hpc [m Hm]%list_elem_of_lookup.
  destruct (decide (m = n)) as [->|Hne].
  - apply list_lookup_insert_Some in Hm as [(_ & Heq & _)|[? _]]; [by apply Hpc|done].
  - rewrite list_lookup_insert_ne in Hm by done.
    apply Hws, list_elem_of_lookup. eauto.
Qed.

Lemma terminated_take_insert (ws : list wpc) (n m : nat) pc pc' :
  ws !! n = Some pc →
  (terminated pc = true → terminated pc' = true) →
  Forall (λ pc, terminated pc = true) (take m ws) →
  Forall (λ pc, terminated pc = true) (take m (<[n := pc']> ws)).
Proof.
  intros Hn Ht Hall. apply Forall_lookup. intros j x Hj.
  apply lookup_take_Some in Hj as [Hj Hlt].
  destruct (decide (j = n)) as [->|Hne].
  - apply list_lookup_insert_Some in Hj as [(_ & <- & _)|[? _]]; [|done].
    apply Ht. eapply (Forall_lookup_1 _ _ n pc Hall).
    apply lookup_take_Some. done.
  - rewrite list_lookup_insert_ne in Hj by done.
    eapply (Forall_lookup_1 _ _ j x Hall). apply lookup_take_Some. done.
Qed.

Lemma terminated_insert (ws : list wpc) (n : nat) pc pc' :
  ws !! n = Some pc →
  (terminated pc = true → terminated pc' = true) →
  Forall (λ pc, terminated pc = true) ws →
  Forall (λ pc, terminated pc = true) (<[n := pc']> ws).
Proof.
  intros Hn Ht Hall.
  rewrite <-(take_ge (<[n:=pc']> ws) (List.length ws)) by (rewrite length_insert; lia).
  eapply terminated_take_insert; eauto. by rewrite take_ge.
Qed.

Lemma step_accounting E t σ : accounting σ → accounting (step E t σ).
Proof.
  intros (Hu & Hm & Hw & Hi).
  step_cases t σ; try done.
  all: unfold accounting, main_phase in *; simpl;
    repeat match goal with
    | H : pc_main _ = _ |- _ => rewrite H in *
    | H : pc_info _ = _ |- _ => rewrite H in *
    | H : queue _ = _ |- _ => rewrite H in *
    | H : finish _ = _ |- _ => rewrite H in *
    | H : unfinished_tasks _ = _ |- _ => rewrite H in *
    end; simpl in *.
  all: try (match goal with
       | H : pc_workers _ !! _ = Some ?pc |- context [<[_ := ?pc']> _] =>
           pose proof (pending_count_insert _ _ _ pc' H) as Hc; simpl in Hc
       end).
  all: repeat split; try done; try lia.
  all: try (by intros; simplify_eq).
  all: try (eapply wreturn_insert; [done|done]).
  all: try (eapply wreturn_insert; [|done]; intros; exfalso; auto; done).
  all: try (destruct (pc_main σ);
            intuition (eauto using terminated_take_insert, terminated_insert; try lia; try congruence); done).
  all: try (intuition (try congruence; try lia); done).
  - rewrite length_app. simpl. lia.
  - destruct Hm as (_ & _ & Hall). erewrite take_S_r by done.
    apply Forall_app. split; [done|]. by apply Forall_singleton.
  - destruct Hm as (_ & _ & Hall).
    rewrite take_ge in Hall; [done|]. by apply lookup_ge_None.
Qed.

Lemma reachable_accounting E W fs σ : reachable E W fs σ → accounting σ.
Proof.
  revert σ. apply reachable_ind.
  - repeat split; simpl; try done.
    + unfold pending_count. induction W; [done|]. simpl. done.
    + intros [? _]%elem_of_replicate. done.
  - intros σ t _. apply step_accounting.
Qed.

Lemma pending_count_0 ws :
  pending_count ws = 0%nat → Forall (λ pc, wtask pc = None) ws.
Proof.
  unfold pending_count. induction ws as [|w ws IH]; [done|]. simpl.
  destruct (wtask w) eqn:Hw; simpl; [done|]. intros H. constructor; [done|]. by apply IH.
Qed.

Lemma drained_phase σ :
  main_phase σ → finish σ = true ∨ drained (pc_main σ) = true → unfinished_tasks σ = 0%nat ∧ drained (pc_main σ) = true.
Proof.
  unfold main_phase. destruct (pc_main σ); simpl; intuition congruence.
Qed.

Lemma drained_done E W fs σ :
  reachable E W fs σ →
  finish σ = true ∨ drained (pc_main σ) = true →
  queue σ = [] ∧ unfinished_tasks σ = 0%nat ∧
  Forall (λ pc, wtask pc = None) (pc_workers σ) ∧
  currently_downloading σ = [].
Proof.
  intros Hr Hd. pose proof (reachable_accounting _ _ _ _ Hr) as (Hu & Hm & _).
  destruct (drained_phase _ Hm Hd) as [H0 _]. rewrite H0 in Hu.
  assert (Forall (λ pc, wtask pc = None) (pc_workers σ)) as Hall
    by (apply pending_count_0; lia).
  split_and!; [by apply length_zero_iff_nil; lia|done|done|].
  apply registry_bounded in Hr as [[_ Hown] _].
  destruct (currently_downloading σ) as [|[k v] d]; [done|]. exfalso.
  destruct (Hown k) as (n & pc & Hn & Hk); [simpl; apply elem_of_cons; by left|].
  eapply Forall_lookup_1 in Hall; [|done]. by destruct pc.
Qed.

(** ** The order of the queue *)

Lemma put_log_emit t ev tr :
  put_log ((t, ev) :: tr) =
  put_log tr ++ match ev with EvPut i => [i] | _ => [] end.
Proof. destruct ev; simpl; by rewrite ?app_nil_r. Qed.

Lemma get_log_emit t ev tr :
  get_log ((t, ev) :: tr) =
  get_log tr ++ match ev with EvGet i => [i] | _ => [] end.
Proof. destruct ev; simpl; by rewrite ?app_nil_r. Qed.

Lemma step_fifo E t σ :
  put_log (trace σ) = get_log (trace σ) ++ queue σ →
  put_log (trace (step E t σ)) =
    get_log (trace (step E t σ)) ++ queue (step E t σ).
Proof.
  intros Hq. step_cases t σ; try done.
  all: cbn [trace queue emit set_queue set_worker set_main set_unfinished
            set_downloading set_lock set_files set_finish set_info];
    rewrite ?put_log_emit, ?get_log_emit, ?app_nil_r; try done.
  - by rewrite Hq, app_assoc.
  - match goal with H : queue σ = _ |- _ => by rewrite H end.
  - by rewrite Hq, <-app_assoc.
Qed.

Lemma reachable_fifo E W fs σ :
  reachable E W fs σ → put_log (trace σ) = get_log (trace σ) ++ queue σ.
Proof.
  revert σ. apply reachable_ind; [done|]. intros σ t _. apply step_fifo.
Qed.

Lemma step_in_order E t σ : in_order E σ → in_order E (step E t σ).
Proof.
  intros (pre & Hpre & Hsub). unfold in_order.
  step_cases t σ; try done.
  all: cbn [trace pc_main emit set_queue set_worker set_main set_unfinished
            set_downloading set_lock set_files set_finish set_info];
    rewrite ?put_log_emit, ?app_nil_r;
    repeat match goal with H : pc_main _ = _ |- _ => rewrite H in * end;
    simpl in *.
  all: try (by exists pre).
  - exists (pre ++ [i]). rewrite <-app_assoc. split; [done|]. by apply sublist_inserts_r.
  - exists (pre ++ [i]). rewrite <-app_assoc. split; [done|]. by apply sublist_app.
Qed.

Lemma reachable_in_order E W fs σ : reachable E W fs σ → in_order E σ.
Proof.
  revert σ. apply reachable_ind.
  - by exists [].
  - intros σ t _. apply step_in_order.
Qed.

(** ** Where tasks come from *)

Lemma workers_known_update (P : task → Prop) (ws : list wpc) n pc pc' :
  (∀ m pcm i, ws !! m = Some pcm → wtask pcm = Some i → P i) →
  ws !! n = Some pc →
  (∀ i, wtask pc' = Some i → wtask pc = Some i ∨ P i) →
  ∀ m pcm i, <[n := pc']> ws !! m = Some pcm → wtask pcm = Some i → P i.
Proof.
  intros Hws Hn Hpc' m pcm i Hm Hi.
  destruct (decide (n = m)) as [->|Hne].
  - rewrite list_lookup_insert_eq in Hm by (by eapply lookup_lt_Some).
    simplify_eq. destruct (Hpc' i Hi); eauto.
  - rewrite list_lookup_insert_ne in Hm by done. eauto.
Qed.

Lemma trace_known_emit {A} (f : event → option A) (P : A → Prop)
    (tr : list (tid * event)) t0 ev0 :
  (∀ t ev i, (t, ev) ∈ tr → f ev = Some i → P i) →
  (∀ i, f ev0 = Some i → P i) →
  ∀ t ev i, (t, ev) ∈ (t0, ev0) :: tr → f ev = Some i → P i.
Proof.
  intros Htr Hev t ev i [Heq|Hin]%elem_of_cons Hi; [simplify_eq|]; eauto.
Qed.

Lemma step_tasks_known E t σ : tasks_known E σ → tasks_known E (step E t σ).
Proof.
  intros (Hm & Hq & Hw & Htr & Hp).
  step_cases t σ; try done.
  all: repeat match goal with
       | H : pc_main _ = _ |- _ => rewrite H in Hm; simpl in Hm
       | H : queue _ = _ |- _ => rewrite H in Hq
       end.
  all: unfold tasks_known;
    cbn [trace pc_main queue pc_workers emit set_queue set_worker set_main
         set_unfinished set_downloading set_lock set_files set_finish set_info todo].
  all: try match goal with H : pc_main _ = _ |- _ => rewrite ?H end.
  all: try match goal with H : queue _ = _ |- _ => rewrite ?H end.
  all: split_and!; try done.
  all: try (by eapply Forall_cons_1).
  all: try (by apply Forall_nil).
  all: try (apply trace_known_emit; [done|]; simpl; intros; simplify_eq; eauto; done).
  all: try (eapply workers_known_update; [done|done|]; simpl; intros; simplify_eq; eauto; done).
  all: try apply Forall_cons_1 in Hm as [Hi Hm].
  all: try apply Forall_cons_1 in Hq as [Ht Hq].
  all: try (apply trace_known_emit; [done|]; simpl; intros; simplify_eq; eauto; done).
  all: try (eapply workers_known_update; [done|done|]; simpl; intros; simplify_eq; eauto; done).
  all: try (apply Forall_app; split; [done|]; by apply Forall_singleton).
  all: try (apply trace_known_emit; [apply trace_known_emit; [done|]|];
            simpl; intros; simplify_eq; eauto; done).
Qed.

Lemma reachable_tasks_known E W fs σ : reachable E W fs σ → tasks_known E σ.
Proof.
  revert σ. apply reachable_ind.
  - split_and!; simpl; try done.
    + apply Forall_forall. auto.
    + intros n pc i [-> _]%lookup_replicate_1. done.
    + intros t ev i ?%elem_of_nil. done.
    + intros t ev i ?%elem_of_nil. done.
  - intros σ t _. apply step_tasks_known.
Qed.

Lemma discovered_episode E i :
  i ∈ discovered E → ∃ ep, ep ∈ episodes E ∧ i = make_task (output E) ep.
Proof. intros (ep & -> & Hep)%list_elem_of_fmap. eauto. Qed.

(** ** More on the lock *)

Lemma step_lock_lost E n i e t σ :
  lock_inv σ → lock_lost n i e σ → lock_lost n i e (step E t σ).
Proof.
  intros [Hcrit _] [Hl Hn]. unfold lock_lost.
  destruct t as [|m|].
  - pose proof (Hcrit Main) as _.
    unfold step. destruct (pc_main σ) as [[|? ?]| | | | | | | |]; simpl;
      repeat case_match; simpl; done.
  - destruct (decide (m = n)) as [->|Hne].
    { simpl. rewrite Hn. done. }
    specialize (Hcrit (Worker m)). simpl in Hcrit. simpl.
    destruct (pc_workers σ !! m) as [pc|] eqn:Hm; [|done].
    simpl in Hcrit.
    destruct pc; simpl in *; repeat case_match; simpl;
      rewrite ?list_lookup_insert_ne by done; try done.
    all: try (split; [congruence|done]).
    all: specialize (Hcrit eq_refl); congruence.
  - specialize (Hcrit Info). simpl in *.
    destruct (pc_info σ); simpl in *; repeat case_match; simpl; try done.
    all: try (split; [congruence|done]).
    specialize (Hcrit eq_refl); congruence.
Qed.

Lemma run_lock_lost E W fs n i e sched σ :
  reachable E W fs σ → lock_lost n i e σ → lock_lost n i e (run E sched σ).
Proof.
  intros Hr Hl. induction sched as [|t sched IH] using rev_ind; [done|].
  rewrite run_snoc. apply step_lock_lost; [|done].
  apply (reachable_lock_inv E W fs). destruct Hr as [s0 ->].
  exists (s0 ++ sched). by rewrite run_app.
Qed.

(** ** The disk *)

Lemma step_files_kept E W fs t σ :
  reachable E W fs σ →
  (∀ p, is_Some (fs !! p) → files σ !! p = fs !! p) →
  ∀ p, is_Some (fs !! p) → files (step E t σ) !! p = fs !! p.
Proof.
  intros (_ & _ & Hw & _)%reachable_tasks_fresh Hf p Hp.
  assert (∀ n pc i, pc_workers σ !! n = Some pc → wtask pc = Some i →
            filename i ≠ p) as Hne.
  { intros n pc i Hn Hi <-. specialize (Hw n pc i Hn Hi). unfold fresh in Hw.
    rewrite Hw in Hp. by destruct Hp. }
  step_cases t σ; auto.
  all: unfold file_append; rewrite lookup_insert_ne; [by apply Hf|].
  all: eapply Hne; [done|]; done.
Qed.

Lemma reachable_files_kept E W fs σ :
  reachable E W fs σ → ∀ p, is_Some (fs !! p) → files σ !! p = fs !! p.
Proof.
  revert σ.
  apply (reachable_ind E W fs
           (λ σ, ∀ p, is_Some (fs !! p) → files σ !! p = fs !! p)); [done|].
  intros σ t Hr IH. by apply (step_files_kept E W).
Qed.

(** ** A whole download *)

Lemma solo_add E t a b σ : solo E t (a + b) σ = solo E t b (solo E t a σ).
Proof. unfold solo. by rewrite Nat.add_comm, Nat.iter_add. Qed.

Lemma dict_set_set k v v' d : dict_set k v (dict_set k v' d) = dict_set k v d.
Proof.
  induction d as [|[k0 v0] d IH]; simpl.
  - by rewrite decide_True.
  - case_decide; simpl; [by rewrite decide_True|].
    rewrite decide_False by done. by rewrite IH.
Qed.

Lemma dict_del_set_any k v v' d :
  dict_del k (dict_set k v d) = dict_del k (dict_set k v' d).
Proof.
  induction d as [|[k0 v0] d IH]; simpl.
  - by rewrite !decide_True.
  - case_decide; simpl; [by rewrite !decide_True|].
    rewrite !decide_False by done. by rewrite IH.
Qed.

(** Lines 65-73: from the first [lock.acquire()] to the head of the loop. *)
Lemma solo_head E σ n i r l :
  pc_workers σ !! n = Some (WAcquire0 i) →
  lock σ = None →
  http E (url i) = inr r →
  raise_for_status r = false →
  header_length r = inr l →
  open_fails E (filename i) = false →
  moved σ (solo E (Worker n) 7 σ) n
    (WFor i l 0 (iter_content (transfer E (url i)) CHUNK_SIZE (body r)))
    (dict_set (display_filename i) 0 (currently_downloading σ))
    (<[filename i := []]> (files σ)).
Proof.
  intros Hpc Hlock Hhttp Hstatus Hlen Hopen.
  assert (n < List.length (pc_workers σ))%nat as Hlt by (by eapply lookup_lt_Some).
  destruct σ as [q u d lk fin fs ws ri mn tr].
  simpl in Hpc, Hlock, Hlt. subst lk.
  set (chunks := iter_content (transfer E (url i)) CHUNK_SIZE (body r)).
  eassert (solo E (Worker n) 7 _ = _) as ->.
  { repeat (rewrite solo_S; unfold step at 1; cbn [pc_workers];
            rewrite ?list_lookup_insert_eq by (by rewrite ?length_insert);
            rewrite ?Hpc; cbn [worker lock unfinished_tasks currently_downloading];
            rewrite ?Hhttp, ?Hstatus, ?Hlen, ?Hopen;
            cbv [set_lock emit set_downloading set_files set_worker set_unfinished
                 queue unfinished_tasks currently_downloading lock finish files
                 pc_workers pc_info pc_main trace]).
    rewrite solo_0. reflexivity. }
  unfold moved.
  cbn [queue unfinished_tasks currently_downloading lock finish
       files pc_workers pc_info pc_main trace].
  rewrite !list_insert_insert_eq. done.
Qed.

(** Lines 75 (exhausted) to 86: from the end of the loop to the head of
    the worker's [while], when the connection has not broken off and the
    file can be closed. *)
Lemma solo_tail E σ n i l w u d' :
  pc_workers σ !! n = Some (WFor i l w []) →
  lock σ = None →
  unfinished_tasks σ = S u →
  dict_del (display_filename i) (currently_downloading σ) = Some d' →
  stream_breaks E (url i) = false →
  close_fails E (filename i) = false →
  let σ' := solo E (Worker n) 6 σ in
  pc_workers σ' = <[n := WWhile]> (pc_workers σ) ∧
  lock σ' = None ∧ currently_downloading σ' = d' ∧ files σ' = files σ ∧
  queue σ' = queue σ ∧ unfinished_tasks σ' = u ∧
  finish σ' = finish σ ∧ pc_info σ' = pc_info σ ∧ pc_main σ' = pc_main σ.
Proof.
  intros Hpc Hlock Hu Hd' Hbreak Hclose.
  assert (n < List.length (pc_workers σ))%nat as Hlt by (by eapply lookup_lt_Some).
  destruct σ as [q u' d lk fin fs ws ri mn tr].
  simpl in Hpc, Hlock, Hlt, Hu, Hd'. subst lk u'.
  intros σ'. eassert (σ' = _) as Heq.
  { subst σ'.
    repeat (rewrite solo_S; unfold step at 1; cbn [pc_workers];
            rewrite ?list_lookup_insert_eq by (by rewrite ?length_insert);
            rewrite ?Hpc; cbn [worker lock unfinished_tasks currently_downloading];
            rewrite ?Hd', ?Hbreak, ?Hclose, ?andb_false_r;
            cbv [set_lock emit set_downloading set_files set_worker set_unfinished
                 queue unfinished_tasks currently_downloading lock finish files
                 pc_workers pc_info pc_main trace]).
    rewrite solo_0. reflexivity. }
  clearbody σ'. subst σ'.
  cbn [queue unfinished_tasks currently_downloading lock finish
       files pc_workers pc_info pc_main trace].
  rewrite !list_insert_insert_eq. done.
Qed.

(** Lines 75-81, as often as there are chunks. *)
Lemma solo_chunks E n i l d0 cs :
  (∀ w, write_fails E (filename i) w = false) →
  0 < l →
  ∀ σ w v b,
    pc_workers σ !! n = Some (WFor i l w cs) →
    lock σ = None →
    0 <= w → w + total cs <= l →
    currently_downloading σ = dict_set (display_filename i) v d0 →
    files σ !! filename i = Some b →
    ∃ v',
      moved σ (solo E (Worker n) (6 * List.length cs) σ) n
        (WFor i l (w + total cs) [])
        (dict_set (display_filename i) v' d0)
        (<[filename i := b ++ concat cs]> (files σ)).
Proof.
  intros Hwrite Hl. induction cs as [|c cs IH]; intros σ w v b Hpc Hlock Hw Hle Hd Hf.
  - exists v. change (6 * List.length (@nil (list Byte.byte)))%nat with 0%nat.
    rewrite solo_0. unfold moved, total. simpl.
    rewrite Z.add_0_r, app_nil_r, insert_id by done.
    rewrite list_insert_id by done. done.
  - rewrite total_cons in Hle. pose proof (total_nonneg cs) as Hcs.
    destruct (percent_range (w + Z.of_nat (List.length c)) l) as (p & Hp & _);
      [lia|done|].
    replace (6 * List.length (c :: cs))%nat with (6 + 6 * List.length cs)%nat
      by (simpl; lia).
    rewrite solo_add.
    rewrite (solo_chunk E σ n i l w c cs p Hpc Hlock (Hwrite w) Hp).
    assert (n < List.length (pc_workers σ))%nat as Hlt by (by eapply lookup_lt_Some).
    match goal with |- context [solo _ _ _ ?s] => set (σ1 := s) end.
    destruct (IH σ1 (w + Z.of_nat (List.length c)) p (b ++ c)) as (v' & Hm).
    + subst σ1. simpl. by rewrite list_lookup_insert_eq.
    + done.
    + lia.
    + lia.
    + subst σ1. simpl. by rewrite Hd, dict_set_set.
    + subst σ1. simpl. unfold file_append. rewrite Hf. simpl.
      by rewrite lookup_insert_eq.
    + exists v'. destruct Hm as (H1 & H2 & H3 & H4 & H5 & H6 & H7 & H8 & H9).
      unfold moved. rewrite H1, H2, H3, H4, H5, H6, H7, H8, H9.
      subst σ1. simpl. rewrite list_insert_insert_eq, total_cons.
      unfold file_append. rewrite Hf. simpl. rewrite insert_insert_eq.
      rewrite Z.add_assoc, <-app_assoc. done.
Qed.

Lemma solo_download E σ n i r l u :
  pc_workers σ !! n = Some (WAcquire0 i) →
  lock σ = None →
  unfinished_tasks σ = S u →
  http E (url i) = inr r →
  raise_for_status r = false →
  header_length r = inr l →
  0 < l →
  Z.of_nat (List.length (body r)) = l →
  stream_breaks E (url i) = false →
  open_fails E (filename i) = false →
  (∀ w, write_fails E (filename i) w = false) →
  close_fails E (filename i) = false →
  let σ' := solo E (Worker n)
              (download_steps
                 (iter_content (transfer E (url i)) CHUNK_SIZE (body r))) σ in
  pc_workers σ' = <[n := WWhile]> (pc_workers σ) ∧
  files σ' = <[filename i := body r]> (files σ) ∧
  dict_del (display_filename i)
    (dict_set (display_filename i) 0 (currently_downloading σ))
    = Some (currently_downloading σ') ∧
  unfinished_tasks σ' = u ∧ lock σ' = None ∧ queue σ' = queue σ ∧
  finish σ' = finish σ ∧ pc_info σ' = pc_info σ ∧ pc_main σ' = pc_main σ.
Proof.
  intros Hpc Hlock Hu Hhttp Hstatus Hlen Hl Hbody Hbreak Hopen Hwrite Hclose.
  assert (n < List.length (pc_workers σ))%nat as Hlt by (by eapply lookup_lt_Some).
  unfold download_steps. rewrite !solo_add.
  set (cs := iter_content (transfer E (url i)) CHUNK_SIZE (body r)).
  pose proof (solo_head E σ n i r l Hpc Hlock Hhttp Hstatus Hlen Hopen) as Hm1.
  fold cs in Hm1. set (σ1 := solo E (Worker n) 7 σ) in *.
  destruct Hm1 as (H1 & H2 & H3 & H4 & H5 & H6 & H7 & H8 & H9).
  destruct (solo_chunks E n i l (currently_downloading σ) cs Hwrite Hl σ1 0 0 [])
    as (v' & Hm2).
  { by rewrite H1, list_lookup_insert_eq. }
  { done. }
  { lia. }
  { pose proof (iter_content_total (transfer E (url i)) CHUNK_SIZE (body r)).
    unfold cs. lia. }
  { done. }
  { by rewrite H4, lookup_insert_eq. }
  set (σ2 := solo E (Worker n) (6 * List.length cs) σ1) in *.
  destruct Hm2 as (I1 & I2 & I3 & I4 & I5 & I6 & I7 & I8 & I9).
  destruct (dict_del_set (display_filename i) v' (currently_downloading σ)) as [d' Hd'].
  pose proof (solo_tail E σ2 n i l (0 + total cs) u d') as Hm3.
  cbv zeta in Hm3.
  destruct Hm3 as (J1 & J2 & J3 & J4 & J5 & J6 & J7 & J8 & J9).
  { rewrite I1, list_lookup_insert_eq; [done|]. by rewrite H1, length_insert. }
  { done. }
  { by rewrite I6, H6. }
  { by rewrite I3. }
  { done. }
  { done. }
  split_and!.
  - by rewrite J1, I1, H1, !list_insert_insert_eq.
  - rewrite J4, I4, H4, insert_insert_eq. simpl.
    unfold cs. by rewrite iter_content_concat by apply CHUNK_SIZE_pos.
  - rewrite J3, <-Hd'. apply dict_del_set_any.
  - done.
  - done.
  - by rewrite J5, I5, H5.
  - by rewrite J7, I7, H7.
  - by rewrite J8, I8, H8.
  - by rewrite J9, I9, H9.
Qed.

(** ** How exact the percentage is *)

Lemma percent_hundredths m : 0 <= m <= 100 → percent m 100 = inr m.
Proof.
  intros Hm.
  assert (hundredths_exact 100 = true) as Hall by (vm_compute; reflexivity).
  unfold hundredths_exact in Hall. rewrite forallb_forall in Hall.
  specialize (Hall (Z.to_nat m)). rewrite Z2Nat.id in Hall by lia.
  apply bool_decide_eq_true in Hall; [done|].
  apply in_seq. lia.
Qed.

(** The percentage grows with the ratio, also across declared lengths. *)
Lemma percent_ratio_mono w l w' l' p p' :
  0 <= w <= l → 0 < l → 0 <= w' <= l' → 0 < l' →
  w * l' <= w' * l →
  percent w l = inr p → percent w' l' = inr p' → p <= p'.
Proof.
  intros Hw Hl Hw' Hl' Hcross. rewrite !percent_scaled by lia.
  intros ??; simplify_eq.
  apply round_half_even_mono. unfold scaled.
  destruct (scaled_bounds w l) as (Hx0 & _); [lia|lia|].
  apply RN_mono; [lra|].
  apply Qmult_le_compat_r; [|lra].
  apply RN_mono; [apply ratio_bounds; lia|].
  assert (0 < inject_Z l)%Q by (by rewrite <-(Zlt_Qlt 0)).
  assert (0 < inject_Z l')%Q by (by rewrite <-(Zlt_Qlt 0)).
  apply Qle_shift_div_l; [done|].
  assert (inject_Z w / inject_Z l * inject_Z l' ==
          inject_Z (w * l') / inject_Z l)%Q as ->.
  { rewrite inject_Z_mult. field. lra. }
  apply Qle_shift_div_r; [done|].
  rewrite <-inject_Z_mult, <-Zle_Qle. lia.
Qed.

Lemma percent_between w l :
  0 < l → 0 <= w <= l →
  ∃ p, percent w l = inr p ∧
       (100 * w) `div` l <= p <= (100 * w + l - 1) `div` l.
Proof.
  intros Hl Hw. destruct (percent_range w l Hw Hl) as (p & Hp & _).
  exists p. split; [done|].
  set (m := (100 * w) `div` l). set (M := (100 * w + l - 1) `div` l).
  assert (0 <= m <= 100) as Hm.
  { split; [apply Z.div_pos; lia|]. apply Z.div_le_upper_bound; lia. }
  assert (l * m <= 100 * w) as Hml by (apply Z.mul_div_le; lia).
  assert (0 <= M <= 100) as HM.
  { split; [apply Z.div_pos; lia|].
    assert (M < 101); [|lia]. apply Z.div_lt_upper_bound; lia. }
  assert (100 * w <= l * M) as HMl.
  { pose proof (Z.mod_pos_bound (100 * w + l - 1) l Hl).
    pose proof (Z.div_mod (100 * w + l - 1) l ltac:(lia)). fold M in H0. lia. }
  split.
  - eapply (percent_ratio_mono m 100 w l); [lia|lia|lia|lia|lia| |done].
    by apply percent_hundredths.
  - eapply (percent_ratio_mono w l M 100); [lia|lia|lia|lia|lia|done|].
    by apply percent_hundredths.
Qed.

(** ** File names *)

Lemma has_dot_app a b : has_dot (a ++ b) = has_dot a || has_dot b.
Proof.
  induction a as [|c a IH]; [done|].
  rewrite str_cons_app. simpl. rewrite IH. by rewrite orb_assoc.
Qed.

Lemma last_segment_no_dot acc s :
  has_dot s = false → last_segment acc s = (acc ++ s)%string.
Proof.
  revert acc. induction s as [|c s IH]; intros acc Hs; simpl in *.
  - by rewrite str_app_nil_r.
  - apply orb_false_iff in Hs as [-> Hs]. rewrite IH by done.
    rewrite str_app_assoc. by rewrite str_cons_app.
Qed.

Lemma last_segment_after_dot acc a b :
  last_segment acc (a ++ "." ++ b) = last_segment EmptyString b.
Proof.
  change (a ++ "." ++ b)%string with (a ++ String "." b)%string.
  revert acc. induction a as [|c a IH]; intros acc.
  - done.
  - rewrite str_cons_app. simpl. destruct (Ascii.eqb c "."); apply IH.
Qed.

Lemma last_segment_has_no_dot acc s :
  has_dot acc = false → has_dot (last_segment acc s) = false.
Proof.
  revert acc. induction s as [|c s IH]; intros acc Hacc; simpl; [done|].
  destruct (Ascii.eqb c ".") eqn:Hc; apply IH; [done|].
  rewrite has_dot_app, Hacc. simpl. by rewrite Hc.
Qed.


(** ** A block that grows *)

Lemma extend_length n rws :
  List.length (extend n rws) = Nat.max n (List.length rws).
Proof. unfold extend. rewrite length_app, length_replicate. lia. Qed.

Lemma extend_id n rws : (n ≤ List.length rws)%nat → extend n rws = rws.
Proof.
  intros Hn. unfold extend.
  replace (n - List.length rws)%nat with 0%nat by lia. apply app_nil_r.
Qed.

Lemma extend_extend n m rws :
  (m ≤ n)%nat → extend n (extend m rws) = extend n rws.
Proof.
  intros Hmn. unfold extend at 1. rewrite extend_length. unfold extend.
  rewrite <-app_assoc, <-replicate_add. do 2 f_equal. lia.
Qed.

Lemma extend_insert n r x rws :
  (r < List.length rws)%nat → extend n (<[r := x]> rws) = <[r := x]> (extend n rws).
Proof.
  intros Hr. unfold extend. rewrite length_insert. by rewrite insert_app_l.
Qed.

Lemma feed_newline_ext rws r c :
  (r < List.length rws)%nat →
  feed (Terminal rws r c Ground) NL = Terminal (extend (S (S r)) rws) (S r) 0 Ground.
Proof.
  intros Hr. simpl. unfold term_char. simpl.
  destruct (Nat.ltb_spec (S r) (List.length rws)).
  - by rewrite extend_id by lia.
  - unfold extend. by replace (S (S r) - List.length rws)%nat with 1%nat by lia.
Qed.

Lemma feed_line_ext rws r k p :
  printable_str k = true →
  (r < List.length rws)%nat →
  feed (Terminal rws r 0 Ground) (format_line k p) =
  Terminal (<[r := line_text (k, p)]> (extend (S (S r)) rws)) (S r) 0 Ground.
Proof.
  intros Hk Hr.
  destruct (lookup_lt_is_Some_2 rws r) as [row Hrow]; [lia|].
  unfold format_line.
  replace ("Downloading " ++ k ++ "... " ++ str_int p ++ "%" ++ CLEAR_EOL ++ NL)%string
    with (("Downloading " ++ k ++ "... " ++ str_int p ++ "%") ++ CLEAR_EOL ++ NL)%string.
  2: { by rewrite !str_app_assoc. }
  assert (printable_str ("Downloading " ++ k ++ "... " ++ str_int p ++ "%") = true) as Hp.
  { rewrite !printable_str_app, Hk, printable_str_int. done. }
  unfold line_text. simpl fst. simpl snd.
  set (T := ("Downloading " ++ k ++ "... " ++ str_int p ++ "%")%string) in *.
  clearbody T.
  rewrite (feed_app _ T), (feed_app _ CLEAR_EOL).
  rewrite (feed_text _ rws r [] row); [|done|done].
  simpl List.length. rewrite Nat.add_0_l. simpl app at 1.
  erewrite feed_clear_eol.
  2: { apply list_lookup_insert_eq. by eapply lookup_lt_Some. }
  rewrite list_insert_insert_eq.
  rewrite feed_newline_ext by (by rewrite length_insert).
  rewrite extend_insert by done.
  f_equal. f_equal. rewrite take_app_length'; [done|].
  clear. induction T; simpl; auto.
Qed.

(** A block of status lines written from the cursor on; the screen grows
    when the block reaches its end. *)
Lemma feed_block_ext d rws r :
  Forall (λ kv : string * Z, printable_str kv.1 = true) d →
  (r < List.length rws)%nat →
  feed (Terminal rws r 0 Ground) (format_block d) =
  Terminal (take r (extend (r + List.length d + 1) rws) ++ (line_text <$> d) ++
            drop (r + List.length d) (extend (r + List.length d + 1) rws))
           (r + List.length d) 0 Ground.
Proof.
  revert rws r. induction d as [|[k p] d IH]; intros rws r Hd Hr.
  - simpl. rewrite Nat.add_0_r, extend_id by lia. by rewrite take_drop.
  - apply Forall_cons_1 in Hd as [Hk Hd]. simpl in Hk.
    cbn [format_block]. rewrite feed_app, feed_line_ext by done.
    assert (r < List.length (extend (S (S r)) rws))%nat as Hr'
      by (rewrite extend_length; lia).
    rewrite IH by (rewrite ?length_insert, ?extend_length; done || lia).
    rewrite extend_insert by done.
    rewrite extend_extend by lia.
    cbn [List.length].
    replace (S r + List.length d + 1)%nat with (r + S (List.length d) + 1)%nat by lia.
    set (R := extend (r + S (List.length d) + 1) rws).
    assert (r < List.length R)%nat by (unfold R; rewrite extend_length; lia).
    rewrite take_S_insert by done. rewrite drop_insert_lt by lia.
    rewrite fmap_cons, <-app_assoc. simpl.
    by replace (r + S (List.length d))%nat with (S (r + List.length d)) by lia.
Qed.

(** The repaint of a block that did not shrink. *)
Lemma feed_paint d k rws r :
  Forall (λ kv : string * Z, printable_str kv.1 = true) d →
  (k ≤ List.length d)%nat →
  (k ≤ r < List.length rws)%nat →
  feed (Terminal rws r 0 Ground)
    ((if (k =? 0)%nat then "" else cursor_up k) ++ pad_block k (format_block d)) =
  Terminal (painted rws r k d) (r - k + List.length d) 0 Ground.
Proof.
  intros Hd Hj Hr. unfold pad_block. rewrite count_newlines_block by done.
  destruct (Nat.ltb_spec (List.length d) k) as [|_]; [lia|].
  rewrite feed_app. unfold painted. cbv zeta.
  destruct (Nat.eqb_spec k 0) as [->|Hk].
  - simpl feed at 2. rewrite Nat.sub_0_r. apply feed_block_ext; [done|lia].
  - rewrite feed_cursor_up by lia. apply feed_block_ext; [done|lia].
Qed.

(** ** Discovery *)

Lemma teasers_yield cs :
  Forall (λ ep, ∃ c, c ∈ cs ∧ yields c ep) (teasers cs).1.
Proof.
  induction cs as [|c cs IH]; simpl; [constructor|].
  assert (Forall (λ ep, ∃ c0, c0 ∈ c :: cs ∧ yields c0 ep) (teasers cs).1) as IH'.
  { eapply Forall_impl; [exact IH|]. intros ep (c0 & Hc0 & Hy).
    exists c0. split; [by apply elem_of_cons; right|done]. }
  destruct (teaser_title c) as [t|] eqn:Ht; [|constructor].
  destruct (teaser_audio c) as [attrs|] eqn:Ha; [|done].
  case_decide as Hempty; [done|].
  destruct (audio_url attrs) as [u|] eqn:Hu; [|constructor].
  destruct (teasers cs) as [eps e]. simpl in *. constructor; [|done].
  exists c. split; [apply elem_of_cons; by left|].
  unfold yields. simpl. split_and!; [done|done|].
  exists attrs. split; [done|]. unfold audio_url in Hu.
  destruct (attrs !! "data-src-adfree"%string) as [v|]; [|done].
  case_decide; simplify_eq; auto.
Qed.

Lemma teasers_app cs1 cs2 :
  (teasers cs1).2 = None →
  teasers (cs1 ++ cs2) = ((teasers cs1).1 ++ (teasers cs2).1, (teasers cs2).2).
Proof.
  induction cs1 as [|c cs1 IH]; simpl.
  - intros _. by destruct (teasers cs2).
  - destruct (teaser_title c) as [t|]; [|done].
    destruct (teaser_audio c) as [attrs|]; [|done].
    case_decide; [done|].
    destruct (audio_url attrs) as [u|]; [|done].
    destruct (teasers cs1) as [eps1 e1]. simpl. intros ->.
    rewrite IH by done. done.
Qed.

Lemma teasers_no_adfree c cs :
  no_adfree c → teasers (c :: cs) = ([], Some (Exn KeyError)).
Proof.
  intros (t & attrs & Ht & Hne & Ha & Hk). simpl. rewrite Ht, Ha.
  rewrite decide_False by done. unfold audio_url. by rewrite Hk.
Qed.

Lemma teasers_skipped c cs : skipped c → teasers (c :: cs) = teasers cs.
Proof.
  intros (t & Ht & [Ha| ->]); simpl; rewrite Ht.
  - by rewrite Ha.
  - destruct (teaser_audio c); [|done]. by rewrite decide_True.
Qed.

Lemma pages_chain web ps :
  Forall (λ p, (teasers (containers p)).2 = None) ps →
  ∀ url fuel,
    chain web url ps →
    (List.length ps ≤ fuel)%nat →
    pages web fuel url =
      (concat ((λ p, (teasers (containers p)).1) <$> ps), Exhausted).
Proof.
  induction 1 as [|p ps Hp Hps IH]; intros url fuel Hch Hfuel; [done|].
  destruct fuel as [|fuel]; [simpl in Hfuel; lia|].
  destruct Hch as [Hq Hnext]. simpl. rewrite Hq.
  destruct (teasers (containers p)) as [eps e] eqn:Ht. simpl in Hp. subst e.
  destruct ps as [|p' ps].
  - rewrite Hnext. simpl. by rewrite app_nil_r.
  - destruct Hnext as (href & -> & Hch).
    rewrite (IH href fuel Hch) by (simpl in *; lia). done.
Qed.

(** ** Where every task is *)

Lemma done_log_emit t ev tr :
  done_log ((t, ev) :: tr) =
  done_log tr ++ match ev with EvTaskDone i => [i] | _ => [] end.
Proof. destruct ev; simpl; by rewrite ?app_nil_r. Qed.

Lemma held_same ws n pc pc' :
  ws !! n = Some pc → wtask pc' = wtask pc → held (<[n := pc']> ws) = held ws.
Proof.
  unfold held. revert n. induction ws as [|w ws IH]; intros [|n] Hn Hpc; try done.
  - simpl in Hn. simplify_eq. simpl. by rewrite Hpc.
  - simpl in Hn. simpl. specialize (IH n Hn Hpc). unfold omap in *.
    by rewrite IH.
Qed.

Lemma held_take ws n pc pc' i :
  ws !! n = Some pc → wtask pc = None → wtask pc' = Some i →
  held (<[n := pc']> ws) ≡ₚ i :: held ws.
Proof.
  unfold held. revert n. induction ws as [|w ws IH]; intros [|n] Hn Hpc Hpc'; try done.
  - simpl in Hn. simplify_eq. simpl. by rewrite Hpc, Hpc'.
  - simpl in Hn. simpl. specialize (IH n Hn Hpc Hpc'). unfold omap in *.
    destruct (wtask w); simpl; [|done].
    rewrite IH. apply Permutation_swap.
Qed.

Lemma held_give ws n pc pc' i :
  ws !! n = Some pc → wtask pc = Some i → wtask pc' = None →
  held ws ≡ₚ i :: held (<[n := pc']> ws).
Proof.
  unfold held. revert n. induction ws as [|w ws IH]; intros [|n] Hn Hpc Hpc'; try done.
  - simpl in Hn. simplify_eq. simpl. by rewrite Hpc, Hpc'.
  - simpl in Hn. simpl. specialize (IH n Hn Hpc Hpc'). unfold omap in *.
    destruct (wtask w); simpl; [|done].
    rewrite IH. apply Permutation_swap.
Qed.

Lemma held_elem ws n pc i :
  ws !! n = Some pc → wtask pc = Some i → i ∈ held ws.
Proof.
  intros Hn Hi. unfold held. apply list_elem_of_omap. exists pc.
  split; [by eapply list_elem_of_lookup_2|done].
Qed.

(** Two workers hold two tasks. *)
Lemma held_apart {A} (f : task → A) ws n m pc pc' i j :
  NoDup (f <$> held ws) →
  n ≠ m → ws !! n = Some pc → ws !! m = Some pc' →
  wtask pc = Some i → wtask pc' = Some j → f i ≠ f j.
Proof.
  unfold held. revert n m. induction ws as [|w ws IH]; intros n m Hnd Hne Hn Hm Hi Hj; [done|].
  destruct n as [|n], m as [|m]; simpl in *; simplify_eq.
  - rewrite Hi in Hnd. simpl in Hnd. apply NoDup_cons in Hnd as [Hnot _].
    intros Heq. apply Hnot. rewrite Heq. apply list_elem_of_fmap_2.
    by eapply held_elem.
  - rewrite Hj in Hnd. simpl in Hnd. apply NoDup_cons in Hnd as [Hnot _].
    intros Heq. apply Hnot. rewrite <-Heq. apply list_elem_of_fmap_2.
    by eapply held_elem.
  - destruct (wtask w); simpl in Hnd; [apply NoDup_cons in Hnd as [_ Hnd]|];
      eapply (IH n m); eauto.
Qed.

Lemma fmap_apart {A B} (f : A → B) (l1 l2 : list A) x y :
  NoDup (f <$> (l1 ++ l2)) → x ∈ l1 → y ∈ l2 → f x ≠ f y.
Proof.
  rewrite fmap_app. intros (_ & Hno & _)%NoDup_app Hx Hy Heq.
  apply (Hno (f x)); [by apply list_elem_of_fmap_2|].
  rewrite Heq. by apply list_elem_of_fmap_2.
Qed.

Lemma file_at_insert E fs pc p c f j :
  wtask pc = Some j → filename j ≠ p →
  file_at E fs pc f → file_at E fs pc (<[p := c]> f).
Proof.
  intros Hj Hne. destruct pc; simpl in *; simplify_eq;
    rewrite ?lookup_insert_ne by done; done.
Qed.

(** The places are apart: what the workers hold has pairwise different
    destinations, different from those of the tasks that are done, queued
    or still to be looked at. *)
Lemma places_apart E sk dn hd qu td :
  NoDup (filename <$> discovered E) →
  discovered E ≡ₚ sk ++ dn ++ hd ++ qu ++ td →
  NoDup (filename <$> hd) ∧
  ∀ i j, i ∈ hd → j ∈ dn ++ qu ++ td → filename i ≠ filename j.
Proof.
  intros Hnd Hperm.
  assert (sk ++ dn ++ hd ++ qu ++ td ≡ₚ hd ++ (dn ++ qu ++ td) ++ sk) as Hre.
  { rewrite (app_assoc dn hd), (Permutation_app_comm dn hd).
    rewrite <-(app_assoc hd dn). rewrite (Permutation_app_comm sk).
    by rewrite <-!app_assoc. }
  rewrite Hperm, Hre in Hnd. split.
  - rewrite fmap_app in Hnd. by apply NoDup_app in Hnd as (? & _ & _).
  - intros i j Hi Hj. eapply fmap_apart; [exact Hnd|done|].
    apply elem_of_app. by left.
Qed.

Lemma ship_keep E fs σ σ' n pc pc' :
  shipshape E fs σ →
  pc_workers σ !! n = Some pc →
  pc_workers σ' = <[n := pc']> (pc_workers σ) →
  wtask pc' = wtask pc →
  done_log (trace σ') = done_log (trace σ) →
  queue σ' = queue σ → pc_main σ' = pc_main σ → files σ' = files σ →
  (file_at E fs pc (files σ) → file_at E fs pc' (files σ)) →
  shipshape E fs σ'.
Proof.
  intros (sk & Hperm & Hsk & Hdone & Hwait & Hws) Hn Hws' Htask Hlog Hq Hm Hf Hat.
  exists sk. rewrite Hws', Hlog, Hq, Hm, Hf, (held_same _ _ pc) by done.
  split_and!; try done. intros m pcm Hpcm.
  destruct (decide (m = n)) as [->|Hne].
  - rewrite list_lookup_insert_eq in Hpcm by (by eapply lookup_lt_Some).
    simplify_eq. apply Hat. by apply (Hws n).
  - rewrite list_lookup_insert_ne in Hpcm by done. by apply (Hws m).
Qed.

Lemma ship_write E fs σ σ' n pc pc' i c :
  NoDup (filename <$> discovered E) →
  shipshape E fs σ →
  pc_workers σ !! n = Some pc →
  pc_workers σ' = <[n := pc']> (pc_workers σ) →
  wtask pc = Some i → wtask pc' = Some i →
  done_log (trace σ') = done_log (trace σ) →
  queue σ' = queue σ → pc_main σ' = pc_main σ →
  files σ' = <[filename i := c]> (files σ) →
  (file_at E fs pc (files σ) → file_at E fs pc' (<[filename i := c]> (files σ))) →
  shipshape E fs σ'.
Proof.
  intros Hnd (sk & Hperm & Hsk & Hdone & Hwait & Hws) Hn Hws' Hi Hi' Hlog Hq Hm Hf Hat.
  destruct (places_apart _ _ _ _ _ _ Hnd Hperm) as [Hheld Hapart].
  assert (i ∈ held (pc_workers σ)) as Hin by (by eapply held_elem).
  exists sk. rewrite Hws', Hlog, Hq, Hm, Hf, (held_same _ _ pc) by congruence.
  split_and!; try done.
  - apply Forall_forall. intros j Hj. rewrite lookup_insert_ne.
    + by eapply Forall_forall in Hdone.
    + apply Hapart; [done|]. apply elem_of_app. by left.
  - apply Forall_forall. intros j Hj. rewrite lookup_insert_ne.
    + by eapply Forall_forall in Hwait.
    + apply Hapart; [done|]. apply elem_of_app. by right.
  - intros m pcm Hpcm. destruct (decide (m = n)) as [->|Hne].
    + rewrite list_lookup_insert_eq in Hpcm by (by eapply lookup_lt_Some).
      simplify_eq. apply Hat. by apply (Hws n).
    + rewrite list_lookup_insert_ne in Hpcm by done.
      destruct (wtask pcm) as [j|] eqn:Hj.
      * eapply file_at_insert; [done| |by apply (Hws m)].
        eapply (held_apart filename); [exact Hheld|exact Hne|done..].
      * destruct pcm; try done.
Qed.

Lemma ship_other E fs σ σ' :
  shipshape E fs σ →
  pc_workers σ' = pc_workers σ →
  done_log (trace σ') = done_log (trace σ) →
  queue σ' = queue σ →
  todo (output E) (pc_main σ') = todo (output E) (pc_main σ) →
  files σ' = files σ →
  shipshape E fs σ'.
Proof.
  intros (sk & Hperm & Hsk & Hdone & Hwait & Hws) Hws' Hlog Hq Hm Hf.
  exists sk. by rewrite Hws', Hlog, Hq, Hm, Hf.
Qed.

Lemma body_of_response E i r : http E (url i) = inr r → body_of E i = body r.
Proof. unfold body_of. by intros ->. Qed.

Lemma step_shipshape E fs t σ :
  NoDup (filename <$> discovered E) →
  shipshape E fs σ → shipshape E fs (step E t σ).
Proof.
  intros Hnd Hs.
  destruct t as [|n|]; simpl.
  - (* the main thread *)
    destruct Hs as (sk & Hperm & Hsk & Hdone & Hwait & Hws).
    destruct (pc_main σ) as [[|ep eps]|i eps|i eps| | | | | |] eqn:Hm; simpl in *.
    + destruct (discovery_end E); by exists sk.
    + by exists sk.
    + case_decide as Hex.
      * exists (i :: sk). simpl.
        apply Forall_app in Hwait as [Hq Htd].
        apply Forall_cons_1 in Htd as [Hi Htd].
        split_and!; try done.
        -- rewrite Hperm, !app_assoc. symmetry.
           rewrite app_comm_cons. rewrite <-!app_assoc. simpl.
           rewrite !app_assoc. apply Permutation_middle.
        -- constructor; [|done]. by rewrite <-Hi.
        -- by apply Forall_app.
      * by exists sk.
    + exists sk. simpl. rewrite <-!app_assoc. simpl.
      split_and!; done.
    + destruct (unfinished_tasks σ); exists sk; simpl; rewrite ?Hm; done.
    + by exists sk.
    + destruct (pc_workers σ !! n) as [w|]; [destruct (terminated w)|];
        exists sk; simpl; rewrite ?Hm; done.
    + destruct (pc_info σ); exists sk; simpl; rewrite ?Hm; done.
    + exists sk. by rewrite Hm.
    + exists sk. by rewrite Hm.
  - (* a worker *)
    destruct (pc_workers σ !! n) as [pc|] eqn:Hn; [|done].
    destruct pc; simpl; repeat case_match; try done.
    all: try (eapply (ship_keep E fs σ _ n); [done|done|reflexivity|reflexivity|
               cbn [trace emit set_queue set_worker set_unfinished set_downloading
                    set_lock set_files];
               rewrite ?done_log_emit, ?app_nil_r; reflexivity
              |reflexivity|reflexivity|reflexivity|simpl; try done]).
    + (* line 62: a task leaves the queue *)
      destruct Hs as (sk & Hperm & Hsk & Hdone & Hwait & Hws).
      match goal with H : queue σ = _ |- _ => rewrite H in * end.
      simpl in Hwait. apply Forall_cons_1 in Hwait as [Ht Hwait].
      exists sk. simpl.
      split_and!; try done.
      * rewrite Hperm, (held_take _ _ WGet) by done.
        do 2 apply Permutation_app_head. simpl. symmetry.
        apply Permutation_middle.
      * intros m pcm Hpcm. destruct (decide (m = n)) as [->|Hne].
        -- rewrite list_lookup_insert_eq in Hpcm by (by eapply lookup_lt_Some).
           by simplify_eq.
        -- rewrite list_lookup_insert_ne in Hpcm by done. by apply (Hws m).
    + (* line 73: the destination is created *)
      eapply (ship_write E fs σ _ n _ _ i []); try done.
      simpl. intros [_ Hr]. exists []. rewrite lookup_insert_eq. split; [done|].
      rewrite (body_of_response _ _ _ Hr). simpl. split; [|done].
      apply iter_content_concat, CHUNK_SIZE_pos.
    + (* line 75: the body is exhausted *)
      intros (pre & Hpre & Hbody & _). by rewrite app_nil_r in Hbody; subst.
    + (* line 76: a chunk is written *)
      eapply (ship_write E fs σ _ n _ _ i); try done.
      simpl. intros (pre & Hpre & Hbody & Hw). rewrite Hpre. simpl.
      exists pre. by rewrite lookup_insert_eq.
    + (* line 77: the chunk is counted *)
      intros (pre & Hpre & Hbody & Hw). exists (pre ++ chunk).
      rewrite length_app. split_and!; [done|by rewrite <-app_assoc|lia].
    + (* line 86: the task is done *)
      destruct Hs as (sk & Hperm & Hsk & Hdone & Hwait & Hws).
      exists sk. simpl.
      split_and!; try done.
      * rewrite Hperm, (held_give _ _ _ WWhile i Hn) by done.
        rewrite <-!app_assoc. simpl.
        apply Permutation_app_head, Permutation_app_head. done.
      * apply Forall_app. split; [done|]. apply Forall_singleton.
        by apply (Hws n _ Hn).
      * intros m pcm Hpcm. destruct (decide (m = n)) as [->|Hne].
        -- rewrite list_lookup_insert_eq in Hpcm by (by eapply lookup_lt_Some).
           by simplify_eq.
        -- rewrite list_lookup_insert_ne in Hpcm by done. by apply (Hws m).
  - (* the renderer *)
    destruct (pc_info σ); simpl; repeat case_match; try done.
    all: eapply ship_other; [done|reflexivity|
           cbn [trace emit set_info set_lock]; rewrite ?done_log_emit, ?app_nil_r; reflexivity
           |reflexivity|reflexivity|reflexivity].
Qed.

Lemma reachable_shipshape E W fs σ :
  NoDup (filename <$> discovered E) →
  reachable E W fs σ → shipshape E fs σ.
Proof.
  intros Hnd. revert σ. apply reachable_ind.
  - exists []. simpl. split_and!; try done.
    + assert (held (replicate W WWhile) = []) as ->; [by induction W|]. done.
    + by apply Forall_true.
    + intros n pc [-> _]%lookup_replicate_1. done.
  - intros σ t _. by apply step_shipshape.
Qed.

Lemma held_nil ws : Forall (λ pc, wtask pc = None) ws → held ws = [].
Proof.
  unfold held. induction 1 as [|w ws Hw _ IH]; [done|]. simpl.
  rewrite Hw. done.
Qed.

Lemma todo_drained out pc : drained pc = true → todo out pc = [].
Proof. by destruct pc. Qed.

(** ** The registry, when display file names are unique *)

Lemma step_placed E t σ : placed E σ → placed E (step E t σ).
Proof.
  intros (sk & Hperm). unfold placed.
  destruct t as [|n|]; simpl.
  - destruct (pc_main σ) as [[|ep eps]|i eps|i eps| | | | | |] eqn:Hm; simpl in *.
    + destruct (discovery_end E); by exists sk.
    + by exists sk.
    + case_decide as Hex; [|by exists sk].
      exists (i :: sk). simpl. rewrite Hperm, !app_assoc. symmetry.
      rewrite app_comm_cons. rewrite <-!app_assoc. simpl.
      rewrite !app_assoc. apply Permutation_middle.
    + exists sk. simpl. by rewrite <-!app_assoc.
    + destruct (unfinished_tasks σ); exists sk; simpl; rewrite ?Hm; done.
    + by exists sk.
    + destruct (pc_workers σ !! n) as [w|]; [destruct (terminated w)|];
        exists sk; simpl; rewrite ?Hm; done.
    + destruct (pc_info σ); exists sk; simpl; rewrite ?Hm; done.
    + exists sk. by rewrite Hm.
    + exists sk. by rewrite Hm.
  - destruct (pc_workers σ !! n) as [pc|] eqn:Hn; [|by exists sk].
    destruct pc; simpl; repeat case_match; try (by exists sk).
    all: exists sk;
      cbn [trace queue pc_workers pc_main emit set_queue set_worker set_unfinished
           set_downloading set_lock set_files];
      rewrite ?done_log_emit, ?app_nil_r.
    all: try match goal with H : queue _ = _ |- _ => rewrite ?H end.
    all: try (erewrite held_same by (done || reflexivity); done).
    + rewrite Hperm, (held_take _ _ WGet) by done.
      do 2 apply Permutation_app_head. simpl. symmetry.
      apply Permutation_middle.
    + rewrite Hperm, (held_give _ _ _ WWhile i Hn) by done.
      rewrite <-!app_assoc. simpl.
      apply Permutation_app_head, Permutation_app_head. done.
  - destruct (pc_info σ); simpl; repeat case_match; exists sk; done.
Qed.

Lemma reachable_placed E W fs σ : reachable E W fs σ → placed E σ.
Proof.
  revert σ. apply reachable_ind.
  - exists []. simpl.
    assert (held (replicate W WWhile) = []) as ->; [by induction W|]. done.
  - intros σ t _. apply step_placed.
Qed.

Lemma registered_task pc k :
  registered pc = Some k → ∃ i, wtask pc = Some i ∧ display_filename i = k.
Proof. destruct pc; simpl; intros; simplify_eq; eauto. Qed.

Lemma dict_del_present k d : k ∈ dict_keys d → is_Some (dict_del k d).
Proof.
  unfold dict_keys. induction d as [|[k0 v0] d IH]; simpl.
  - by intros ?%elem_of_nil.
  - intros [->|Hin]%elem_of_cons.
    + rewrite decide_True by done. eauto.
    + case_decide; [eauto|]. destruct (IH Hin) as [d' ->]. eauto.
Qed.

(** Two workers at two downloads have two keys. *)
Lemma registered_apart E σ n m pc pc' k k' :
  NoDup (display_filename <$> discovered E) →
  placed E σ →
  n ≠ m → pc_workers σ !! n = Some pc → pc_workers σ !! m = Some pc' →
  registered pc = Some k → registered pc' = Some k' → k ≠ k'.
Proof.
  intros Hnd (sk & Hperm) Hne Hn Hm (i & Hi & <-)%registered_task
         (j & Hj & <-)%registered_task.
  rewrite Hperm in Hnd. rewrite !fmap_app in Hnd.
  apply NoDup_app in Hnd as (_ & _ & Hnd). apply NoDup_app in Hnd as (_ & _ & Hnd).
  apply NoDup_app in Hnd as (Hnd & _ & _).
  by eapply (held_apart display_filename).
Qed.

Lemma exact_keep σ σ' n pc pc' :
  registry_exact σ →
  pc_workers σ !! n = Some pc →
  pc_workers σ' = <[n := pc']> (pc_workers σ) →
  currently_downloading σ' = currently_downloading σ →
  registered pc' = registered pc →
  registry_exact σ'.
Proof.
  intros [H1 H2] Hn Hws Hd Hreg. unfold registry_exact. rewrite Hws, Hd. split.
  - intros m pcm k Hm Hk. destruct (decide (m = n)) as [->|Hne].
    + rewrite list_lookup_insert_eq in Hm by (by eapply lookup_lt_Some).
      simplify_eq. eapply H1; [done|]. by rewrite <-Hreg.
    + rewrite list_lookup_insert_ne in Hm by done. by eapply H1.
  - intros k Hk. destruct (H2 k Hk) as (m & pcm & Hm & Hpcm).
    destruct (decide (m = n)) as [->|Hne].
    + exists n, pc'. rewrite list_lookup_insert_eq by (by eapply lookup_lt_Some).
      split; [done|]. simplify_eq. by rewrite Hreg.
    + exists m, pcm. by rewrite list_lookup_insert_ne.
Qed.

Lemma exact_set σ σ' n pc pc' k v :
  registry_exact σ →
  pc_workers σ !! n = Some pc →
  pc_workers σ' = <[n := pc']> (pc_workers σ) →
  currently_downloading σ' = dict_set k v (currently_downloading σ) →
  registered pc' = Some k →
  (∀ k', registered pc = Some k' → k' = k) →
  registry_exact σ'.
Proof.
  intros [H1 H2] Hn Hws Hd Hreg Hold. unfold registry_exact. rewrite Hws, Hd. split.
  - intros m pcm k' Hm Hk'. apply dict_set_keys.
    destruct (decide (m = n)) as [->|Hne].
    + rewrite list_lookup_insert_eq in Hm by (by eapply lookup_lt_Some).
      simplify_eq. left. congruence.
    + rewrite list_lookup_insert_ne in Hm by done. right. by eapply H1.
  - intros k' [->|Hk']%dict_set_keys.
    + exists n, pc'. by rewrite list_lookup_insert_eq by (by eapply lookup_lt_Some).
    + destruct (H2 k' Hk') as (m & pcm & Hm & Hpcm).
      destruct (decide (m = n)) as [->|Hne].
      * exists n, pc'. rewrite list_lookup_insert_eq by (by eapply lookup_lt_Some).
        split; [done|]. simplify_eq. by rewrite (Hold k' Hpcm).
      * exists m, pcm. by rewrite list_lookup_insert_ne.
Qed.

Lemma exact_del E σ σ' n pc pc' k d' :
  NoDup (display_filename <$> discovered E) →
  placed E σ →
  NoDup (dict_keys (currently_downloading σ)) →
  registry_exact σ →
  pc_workers σ !! n = Some pc →
  pc_workers σ' = <[n := pc']> (pc_workers σ) →
  dict_del k (currently_downloading σ) = Some d' →
  currently_downloading σ' = d' →
  registered pc = Some k →
  registered pc' = None →
  registry_exact σ'.
Proof.
  intros Hnd Hpl Hkeys [H1 H2] Hn Hws Hdel Hd Hreg Hreg'.
  unfold registry_exact. rewrite Hws, Hd. split.
  - intros m pcm k' Hm Hk'. destruct (decide (m = n)) as [->|Hne].
    + rewrite list_lookup_insert_eq in Hm by (by eapply lookup_lt_Some).
      simplify_eq.
    + rewrite list_lookup_insert_ne in Hm by done.
      apply (dict_del_keys k (currently_downloading σ) d'); [done|done|].
      split; [|by eapply H1].
      intros ->. by eapply (registered_apart E σ n m).
  - intros k' [Hne Hk']%(dict_del_keys k (currently_downloading σ) d'); [|done|done].
    destruct (H2 k' Hk') as (m & pcm & Hm & Hpcm).
    exists m, pcm. split; [|done]. rewrite list_lookup_insert_ne; [done|].
    intros ->. simplify_eq.
Qed.

Lemma step_registry_exact E W fs t σ :
  NoDup (display_filename <$> discovered E) →
  reachable E W fs σ →
  registry_exact σ → registry_exact (step E t σ).
Proof.
  intros Hnd Hr Hx.
  destruct t as [|n|]; simpl.
  - destruct (pc_main σ) as [[|ep eps]| | | | | | | |]; simpl; try done;
      repeat case_match; simpl; done.
  - destruct (pc_workers σ !! n) as [pc|] eqn:Hn; [|done].
    pose proof (reachable_placed _ _ _ _ Hr) as Hpl.
    pose proof (registry_bounded _ _ _ _ Hr) as [[Hkeys _] _].
    pose proof (reachable_accounting _ _ _ _ Hr) as [Hacc _].
    pose proof (pending_count_pos _ _ _ Hn) as Hpos.
    destruct pc; simpl; repeat case_match; try done.
    all: try (eapply (exact_keep σ _ n); [done|done|reflexivity|reflexivity|reflexivity]).
    all: try (eapply (exact_set σ _ n); [done|done|reflexivity|reflexivity|reflexivity|];
              simpl; intros; simplify_eq; done).
    + eapply (exact_del E σ _ n _ _ (display_filename i));
        [done|done|done|done|done|reflexivity|done|reflexivity|reflexivity|reflexivity].
    + exfalso. simpl in Hpos. specialize (Hpos ltac:(eauto)). lia.
  - destruct (pc_info σ); simpl; repeat case_match; simpl; done.
Qed.

Lemma reachable_registry_exact E W fs σ :
  NoDup (display_filename <$> discovered E) →
  reachable E W fs σ → registry_exact σ.
Proof.
  intros Hnd. revert σ. apply reachable_ind.
  - split; simpl.
    + intros n pc k [-> _]%lookup_replicate_1. done.
    + by intros k ?%elem_of_nil.
  - intros σ t Hr. by apply (step_registry_exact E W fs).
Qed.

(** ** When nothing goes wrong *)

Lemma alive_insert E (ws : list wpc) n pc' :
  Forall (alive E) ws → alive E pc' → Forall (alive E) (<[n := pc']> ws).
Proof.
  intros Hall Hpc. apply Forall_lookup. intros m pcm Hm.
  destruct (decide (m = n)) as [->|Hne].
  - apply list_lookup_insert_Some in Hm as [(_ & <- & _)|[? _]]; done.
  - rewrite list_lookup_insert_ne in Hm by done. by eapply Forall_lookup_1.
Qed.

Lemma step_alive E W fs t σ :
  reliable E →
  NoDup (display_filename <$> discovered E) →
  reachable E W fs σ →
  Forall (alive E) (pc_workers σ) → Forall (alive E) (pc_workers (step E t σ)).
Proof.
  intros HE Hnd Hr Hall.
  destruct t as [|n|]; simpl.
  - destruct (pc_main σ) as [[|ep eps]| | | | | | | |]; simpl; try done;
      repeat case_match; simpl; done.
  - destruct (pc_workers σ !! n) as [pc|] eqn:Hn; [|done].
    pose proof (Forall_lookup_1 _ _ _ _ Hall Hn) as Hpc.
    pose proof (reachable_download_inv E W fs σ Hr n pc Hn) as [Hv _].
    pose proof (reachable_registry_exact E W fs σ Hnd Hr) as [Hx _].
    pose proof (reachable_accounting _ _ _ _ Hr) as [Hacc _].
    pose proof (pending_count_pos _ _ _ Hn) as Hpos.
    destruct HE as (Hhttp & Hopen & Hwrite & Hclose).
    destruct pc; simpl in *; repeat case_match; try done.
    all: try (apply alive_insert; [done|]; simpl; done).
    all: exfalso.
    + (* line 69 *)
      destruct (Hhttp (url i)) as (r & ? & _). congruence.
    + (* line 70 *)
      destruct (Hhttp (url i)) as (r' & ? & ? & _). congruence.
    + (* line 71 *)
      destruct (Hhttp (url i)) as (r' & ? & _ & (l & ? & _) & _). congruence.
    + (* line 73 *)
      by rewrite Hopen in *.
    + (* line 75 *)
      destruct (Hhttp (url i)) as (_ & _ & _ & _ & Hbreak).
      rewrite Hbreak, andb_false_r in *. done.
    + (* line 76 *)
      by rewrite Hwrite in *.
    + (* line 78 *)
      destruct Hv as [Hs _].
      destruct (streaming_received _ _ _ _ _ Hs) as (r & Hr1 & Hl1 & Hw & Hsum).
      destruct (Hhttp (url i)) as (r' & Hr2 & _ & (l & Hl2 & Hlpos & Hbody) & _).
      assert (r' = r) as -> by congruence.
      assert (l = length) as -> by congruence.
      rewrite total_cons in Hsum. pose proof (total_nonneg rest).
      destruct (percent_range (written + Z.of_nat (List.length chunk)) length)
        as (p & ? & _); [lia|lia|congruence].
    + (* the end of the with block *)
      rewrite Hclose, andb_false_r in *. done.
    + (* line 84 *)
      destruct (dict_del_present (display_filename i) (currently_downloading σ))
        as [d ?]; [by eapply Hx|congruence].
    + (* line 86 *)
      specialize (Hpos ltac:(eauto)). lia.
  - destruct (pc_info σ); simpl; repeat case_match; simpl; done.
Qed.

Lemma reachable_alive E W fs σ :
  reliable E →
  NoDup (display_filename <$> discovered E) →
  reachable E W fs σ → Forall (alive E) (pc_workers σ).
Proof.
  intros HE Hnd. revert σ. apply reachable_ind.
  - simpl. apply Forall_replicate. done.
  - intros σ t Hr. by apply (step_alive E W fs).
Qed.

(** ** A body that was declared empty *)

(** Lines 75-78 on a chunk when the declared length is zero. *)
Lemma solo_chunk_zero E σ n i w c cs :
  pc_workers σ !! n = Some (WFor i 0 w (c :: cs)) →
  write_fails E (filename i) w = false →
  solo E (Worker n) 3 σ =
    emit (Worker n) (EvClose (filename i))
      (emit (Worker n) (EvWrite (filename i) c)
        (set_files (file_append (filename i) c (files σ))
          (emit (Worker n) (EvRecv i)
            (set_worker n (WRaised i ZeroDivisionError) σ)))).
Proof.
  intros Hpc Hw.
  assert (n < List.length (pc_workers σ))%nat as Hlt by (by eapply lookup_lt_Some).
  destruct σ as [q u d lk fin fs ws ri mn tr]. simpl in Hpc, Hlt.
  symmetry. etrans; [|symmetry].
  { cbv [set_lock emit set_downloading set_files set_worker set_unfinished
         queue unfinished_tasks currently_downloading lock finish files
         pc_workers pc_info pc_main trace]. reflexivity. }
  repeat (rewrite solo_S; unfold step at 1; cbn [pc_workers];
          rewrite ?list_lookup_insert_eq by (by rewrite ?length_insert);
          rewrite ?Hpc; cbn [worker lock]; rewrite ?Hw;
          cbn [percent Z.eqb];
          cbv [set_lock emit set_downloading set_files set_worker set_unfinished
               queue unfinished_tasks currently_downloading lock finish files
               pc_workers pc_info pc_main trace]).
  rewrite solo_0, !list_insert_insert_eq. done.
Qed.

(** ** A run to the end *)

Lemma run_replicate E t k σ : run E (replicate k t) σ = solo E t k σ.
Proof.
  revert σ. induction k as [|k IH]; intros σ; [done|].
  rewrite solo_S. simpl. apply IH.
Qed.

Lemma run_cons E t s σ : run E (t :: s) σ = run E s (step E t σ).
Proof. done. Qed.

(** Lines 139-150: the main thread alone goes through its loop. *)
Lemma main_enqueues E eps σ :
  discovery_end E = None →
  pc_main σ = MFor eps →
  unfinished_tasks σ = List.length (queue σ) →
  ∃ k, let σ' := solo E Main k σ in
    pc_main σ' = MJoin ∧ unfinished_tasks σ' = List.length (queue σ') ∧
    pc_workers σ' = pc_workers σ ∧ lock σ' = lock σ ∧
    currently_downloading σ' = currently_downloading σ ∧
    pc_info σ' = pc_info σ ∧ finish σ' = finish σ.
Proof.
  intros Hend. revert σ. induction eps as [|ep eps IH]; intros σ Hpc Hu.
  - exists 1%nat. unfold solo. simpl. rewrite Hpc. simpl. rewrite Hend. done.
  - set (i := make_task (output E) ep).
    set (σ1 := set_main (MExists i eps) σ).
    assert (step E Main σ = σ1) as H1 by (simpl; by rewrite Hpc).
    destruct (decide (is_Some (files σ !! filename i))) as [Hex|Hex].
    + set (σ2 := emit Main (EvExists (filename i)) (set_main (MFor eps) σ1)).
      assert (step E Main σ1 = σ2) as H2.
      { simpl. by rewrite decide_True. }
      destruct (IH σ2) as (k & Hk); [done|done|].
      exists (2 + k)%nat. rewrite solo_add.
      replace (solo E Main 2 σ) with σ2; [exact Hk|].
      by rewrite !solo_S, solo_0, H1, H2.
    + set (σ2 := emit Main (EvExists (filename i)) (set_main (MPut i eps) σ1)).
      assert (step E Main σ1 = σ2) as H2.
      { simpl. by rewrite decide_False. }
      set (σ3 := emit Main (EvPut i)
                   (set_queue (queue σ2 ++ [i])
                      (set_unfinished (S (unfinished_tasks σ2))
                         (set_main (MFor eps) σ2)))).
      assert (step E Main σ2 = σ3) as H3 by done.
      destruct (IH σ3) as (k & Hk); [done| |].
      { simpl. rewrite length_app, Hu. simpl. lia. }
      exists (3 + k)%nat. rewrite solo_add.
      replace (solo E Main 3 σ) with σ3; [exact Hk|].
      by rewrite !solo_S, solo_0, H1, H2, H3.
Qed.

(** Lines 59-86: one worker alone empties the queue. *)
Lemma worker_drains E n q :
  reliable E →
  ∀ σ,
    queue σ = q →
    pc_workers σ !! n = Some WWhile →
    lock σ = None → finish σ = false →
    unfinished_tasks σ = List.length q →
    currently_downloading σ = [] →
    ∃ k, let σ' := solo E (Worker n) k σ in
      queue σ' = [] ∧ unfinished_tasks σ' = 0%nat ∧
      pc_workers σ' = pc_workers σ ∧ lock σ' = None ∧
      currently_downloading σ' = [] ∧ finish σ' = false ∧
      pc_info σ' = pc_info σ ∧ pc_main σ' = pc_main σ.
Proof.
  intros (Hhttp & Hopen & Hwrite & Hclose).
  induction q as [|i q IH]; intros σ Hq Hn Hlock Hfin Hu Hd.
  - exists 0%nat. simpl. done.
  - assert (n < List.length (pc_workers σ))%nat as Hlt by (by eapply lookup_lt_Some).
    set (σ1 := set_worker n WGet σ).
    assert (step E (Worker n) σ = σ1) as H1 by (simpl; by rewrite Hn; simpl; rewrite Hfin).
    set (σ2 := emit (Worker n) (EvGet i) (set_queue q (set_worker n (WAcquire0 i) σ1))).
    assert (step E (Worker n) σ1 = σ2) as H2.
    { simpl. rewrite list_lookup_insert_eq by done. simpl. by rewrite Hq. }
    destruct (Hhttp (url i)) as (r & Hr & Hstatus & (l & Hl & Hpos & Hbody) & Hbreak).
    assert (pc_workers σ2 !! n = Some (WAcquire0 i)) as Hn2.
    { simpl. rewrite list_lookup_insert_eq; [done|]. by rewrite length_insert. }
    assert (unfinished_tasks σ2 = S (List.length q)) as Hu2 by (simpl; by rewrite Hu).
    pose proof (solo_download E σ2 n i r l (List.length q) Hn2 Hlock Hu2 Hr Hstatus
                  Hl Hpos Hbody Hbreak (Hopen _) (Hwrite _) (Hclose _)) as Hdl.
    cbv zeta in Hdl.
    set (k2 := download_steps
                 (iter_content (transfer E (url i)) CHUNK_SIZE (body r))) in *.
    set (σ3 := solo E (Worker n) k2 σ2) in *.
    destruct Hdl as (D1 & D2 & D3 & D4 & D5 & D6 & D7 & D8 & D9).
    assert (pc_workers σ3 = pc_workers σ) as Hws.
    { rewrite D1. simpl. rewrite !list_insert_insert_eq. by apply list_insert_id. }
    assert (currently_downloading σ3 = []) as Hd3.
    { cbn [currently_downloading σ2 emit set_queue set_worker σ1] in D3.
      rewrite Hd in D3. cbn [dict_set dict_del] in D3.
      rewrite decide_True in D3 by done. by simplify_eq. }
    destruct (IH σ3) as (k & Hk).
    { etrans; [exact D6|reflexivity]. }
    { by rewrite Hws. }
    { exact D5. }
    { etrans; [exact D7|exact Hfin]. }
    { exact D4. }
    { exact Hd3. }
    exists (2 + k2 + k)%nat. rewrite !solo_add.
    replace (solo E (Worker n) 2 σ) with σ2 by (by rewrite !solo_S, solo_0, H1, H2).
    fold σ3. cbv zeta in Hk. destruct Hk as (K1 & K2 & K3 & K4 & K5 & K6 & K7 & K8).
    split_and!; [exact K1|exact K2| |exact K4|exact K5|exact K6| |].
    + by rewrite K3.
    + by rewrite K7, D8.
    + by rewrite K8, D9.
Qed.

(** Line 60 with the flag set: the workers return, one after the other. *)
Lemma workers_return E b :
  ∀ a σ,
    pc_workers σ = replicate a WReturn ++ replicate b WWhile →
    finish σ = true →
    let σ' := run E (Worker <$> seq a b) σ in
    pc_workers σ' = replicate (a + b) WReturn ∧ finish σ' = true ∧
    pc_main σ' = pc_main σ ∧ pc_info σ' = pc_info σ.
Proof.
  induction b as [|b IH]; intros a σ Hws Hfin.
  - simpl. by rewrite Hws, Nat.add_0_r, app_nil_r.
  - change (Worker <$> seq a (S b)) with (Worker a :: (Worker <$> seq (S a) b)).
    cbv zeta. rewrite run_cons. set (σ1 := set_worker a WReturn σ).
    assert (step E (Worker a) σ = σ1) as ->.
    { simpl. rewrite Hws, lookup_app_r by (by rewrite length_replicate).
      rewrite length_replicate, Nat.sub_diag. simpl. by rewrite Hfin. }
    destruct (IH (S a) σ1) as (H1 & H2 & H3 & H4); [|done|].
    { unfold σ1. cbn [pc_workers set_worker].
      rewrite Hws. rewrite insert_app_r_alt by (by rewrite length_replicate).
      rewrite length_replicate, Nat.sub_diag.
      rewrite (replicate_S_end a), <-app_assoc. done. }
    split_and!; [|done|done|done].
    rewrite H1. f_equal. lia.
Qed.

(** Lines 155-156: the main thread joins the workers that have returned. *)
Lemma main_joins E b :
  ∀ a σ,
    pc_main σ = MThreadJoin a →
    pc_workers σ = replicate (a + b) WReturn →
    let σ' := solo E Main (S b) σ in
    pc_main σ' = MInfoJoin ∧ pc_info σ' = pc_info σ ∧ finish σ' = finish σ.
Proof.
  induction b as [|b IH]; intros a σ Hpc Hws.
  - unfold solo. simpl. rewrite Hpc. simpl. rewrite Hws, Nat.add_0_r.
    rewrite (proj1 (lookup_replicate_None a WReturn a)) by lia. done.
  - rewrite solo_S. set (σ1 := set_main (MThreadJoin (S a)) σ).
    assert (step E Main σ = σ1) as ->.
    { simpl. rewrite Hpc. simpl. rewrite Hws.
      rewrite lookup_replicate_2 by lia. done. }
    destruct (IH (S a) σ1) as (H1 & H2 & H3); [done| |done].
    unfold σ1. cbn [pc_workers set_main]. rewrite Hws. f_equal. lia.
Qed.

Lemma run_to_the_end E W fs :
  reliable E → discovery_end E = None → (0 < W)%nat →
  ∃ k1 k2, pc_main (run E (sched_sequential W k1 k2) (init E W fs)) = MReturn.
Proof.
  intros HE Hend HW.
  destruct (main_enqueues E (episodes E) (init E W fs)) as (k1 & Hk1);
    [done|done|done|].
  cbv zeta in Hk1. set (σ1 := solo E Main k1 (init E W fs)) in *.
  destruct Hk1 as (A1 & A2 & A3 & A4 & A5 & A6 & A7). simpl in A3, A4, A5, A6, A7.
  destruct (worker_drains E 0 (queue σ1) HE σ1) as (k2 & Hk2); try done.
  { rewrite A3. apply lookup_replicate_2. lia. }
  cbv zeta in Hk2. set (σ2 := solo E (Worker 0) k2 σ1) in *.
  destruct Hk2 as (B1 & B2 & B3 & B4 & B5 & B6 & B7 & B8).
  exists k1, k2. unfold sched_sequential.
  rewrite !run_app, !run_replicate. fold σ1. fold σ2.
  set (σ3 := set_finish true (set_main (MThreadJoin 0) (set_main MFinish σ2))).
  assert (solo E Main 2 σ2 = σ3) as ->.
  { rewrite !solo_S, solo_0. simpl. rewrite B8, A1. simpl. by rewrite B2. }
  destruct (workers_return E W 0 σ3) as (C1 & C2 & C3 & C4); [|done|].
  { simpl. by rewrite B3, A3. }
  set (σ4 := run E (Worker <$> seq 0 W) σ3) in *.
  destruct (main_joins E W 0 σ4) as (D1 & D2 & D3); [by rewrite C3|done|].
  set (σ5 := solo E Main (S W) σ4) in *.
  simpl. rewrite D2, C4. simpl. rewrite B7, A6. simpl.
  rewrite D3, C2. simpl. rewrite D1. simpl. done.
Qed.

(** ** The entries of the registry, when display file names are unique *)

(** The task of a worker shares its display file name with no task of
    another worker and with no task that waits. *)
Lemma display_apart E σ n pc i :
  NoDup (display_filename <$> discovered E) →
  placed E σ →
  pc_workers σ !! n = Some pc → wtask pc = Some i →
  (∀ m pcm j, m ≠ n → pc_workers σ !! m = Some pcm → wtask pcm = Some j →
     display_filename i ≠ display_filename j) ∧
  (∀ j, j ∈ queue σ ++ todo (output E) (pc_main σ) →
     display_filename i ≠ display_filename j).
Proof.
  intros Hnd (sk & Hperm) Hn Hi.
  rewrite Hperm in Hnd. rewrite fmap_app in Hnd.
  apply NoDup_app in Hnd as (_ & _ & Hnd). rewrite fmap_app in Hnd.
  apply NoDup_app in Hnd as (_ & _ & Hnd).
  assert (i ∈ held (pc_workers σ)) as Hin by (by eapply held_elem).
  split.
  - intros m pcm j Hne Hm Hj. rewrite fmap_app in Hnd.
    apply NoDup_app in Hnd as (Hnd & _ & _).
    by eapply (held_apart display_filename _ n m).
  - intros j Hj. by eapply fmap_apart.
Qed.

Lemma entries_own_keep E σ σ' n pc pc' :
  entries_own E σ →
  pc_workers σ !! n = Some pc →
  pc_workers σ' = <[n := pc']> (pc_workers σ) →
  wtask pc' = wtask pc →
  (∀ k, entry_values k (trace σ') = entry_values k (trace σ)) →
  (∀ m, written_values m (trace σ') = written_values m (trace σ)) →
  queue σ' = queue σ → pc_main σ' = pc_main σ →
  entries_own E σ'.
Proof.
  intros [H1 H2] Hn Hws Htask Hev Hwv Hq Hm. unfold entries_own.
  rewrite Hws, Hq, Hm. split.
  - intros m pcm i Hpcm Hi. rewrite Hev, Hwv.
    destruct (decide (m = n)) as [->|Hne].
    + rewrite list_lookup_insert_eq in Hpcm by (by eapply lookup_lt_Some).
      simplify_eq. eapply H1; [done|congruence].
    + rewrite list_lookup_insert_ne in Hpcm by done. by eapply H1.
  - eapply Forall_impl; [exact H2|]. simpl. intros i Hi. by rewrite Hev.
Qed.

Lemma entries_own_other E σ σ' :
  entries_own E σ →
  pc_workers σ' = pc_workers σ →
  (∀ k, entry_values k (trace σ') = entry_values k (trace σ)) →
  (∀ m, written_values m (trace σ') = written_values m (trace σ)) →
  (∀ i, i ∈ queue σ' ++ todo (output E) (pc_main σ') →
        i ∈ queue σ ++ todo (output E) (pc_main σ)) →
  entries_own E σ'.
Proof.
  intros [H1 H2] Hws Hev Hwv Hsub. unfold entries_own. rewrite Hws. split.
  - intros m pcm i Hpcm Hi. rewrite Hev, Hwv. by eapply H1.
  - apply Forall_forall. intros i Hi. rewrite Hev.
    eapply Forall_forall in H2; [exact H2|]. by apply Hsub.
Qed.

(** Worker [n] writes to the entry of its task. *)
Lemma entries_own_write E σ σ' n pc pc' i ev vs :
  NoDup (display_filename <$> discovered E) →
  placed E σ →
  entries_own E σ →
  pc_workers σ !! n = Some pc →
  pc_workers σ' = <[n := pc']> (pc_workers σ) →
  wtask pc = Some i → wtask pc' = Some i →
  trace σ' = (Worker n, ev) :: trace σ →
  (∀ k, k ≠ display_filename i →
        entry_values k ((Worker n, ev) :: trace σ) = entry_values k (trace σ)) →
  (∀ m, m ≠ n →
        written_values m ((Worker n, ev) :: trace σ) = written_values m (trace σ)) →
  entry_values (display_filename i) ((Worker n, ev) :: trace σ) = vs
    (entry_values (display_filename i) (trace σ)) →
  written_values n ((Worker n, ev) :: trace σ) = vs (written_values n (trace σ)) →
  queue σ' = queue σ → pc_main σ' = pc_main σ →
  entries_own E σ'.
Proof.
  intros Hnd Hpl [H1 H2] Hn Hws Hi Hi' Htr Hev Hwv Hself Hselfw Hq Hm.
  destruct (display_apart E σ n pc i Hnd Hpl Hn Hi) as [Hws_apart Hwait_apart].
  unfold entries_own. rewrite Hws, Hq, Hm, Htr. split.
  - intros m pcm j Hpcm Hj.
    destruct (decide (m = n)) as [->|Hne].
    + rewrite list_lookup_insert_eq in Hpcm by (by eapply lookup_lt_Some).
      simplify_eq. rewrite Hself, Hselfw. f_equal. by eapply H1.
    + rewrite list_lookup_insert_ne in Hpcm by done.
      rewrite Hev, Hwv by (done || (intros Heq; by eapply (Hws_apart m))).
      by eapply H1.
  - apply Forall_forall. intros j Hj. rewrite Hev.
    + by eapply Forall_forall in H2.
    + intros Heq. by eapply Hwait_apart.
Qed.

Lemma step_entries_own E W fs t σ :
  NoDup (display_filename <$> discovered E) →
  reachable E W fs σ →
  entries_own E σ → entries_own E (step E t σ).
Proof.
  intros Hnd Hr Hown.
  pose proof (reachable_placed _ _ _ _ Hr) as Hpl.
  pose proof (reachable_download_inv _ _ _ _ Hr) as Hdl.
  step_cases t σ; try done.
  all: try (eapply entries_own_other; [done|reflexivity|by intros; simpl..|];
            simpl; intros ?;
            repeat match goal with H : pc_main _ = _ |- _ => rewrite H end;
            simpl; rewrite ?elem_of_app, ?elem_of_cons, ?elem_of_nil; tauto).
  all: try (eapply (entries_own_keep E σ _ n);
            [done|done|reflexivity|reflexivity|by intros; simpl..
            |reflexivity|reflexivity]).
  all: try (eapply (entries_own_write E σ _ n _ _ i _ (cons _));
            [done|done|done|done|reflexivity|reflexivity|reflexivity|reflexivity
            |by intros; simpl; rewrite decide_False by done
            |by intros; simpl; rewrite decide_False by done
            |by simpl; rewrite decide_True by done
            |by simpl; rewrite decide_True by done
            |reflexivity|reflexivity]).
  all: try (eapply (entries_own_write E σ _ n _ _ i _ (λ _, []));
            [done|done|done|done|reflexivity|reflexivity|reflexivity|reflexivity
            |by intros; simpl; rewrite decide_False by done
            |by intros; simpl; rewrite decide_False by done
            |by simpl; rewrite decide_True by done
            |by simpl; rewrite decide_True by done
            |reflexivity|reflexivity]).
  - (* line 62: a task leaves the queue *)
    destruct Hown as [H1 H2].
    match goal with H : queue σ = _ |- _ => rewrite H in H2 end.
    simpl in H2. apply Forall_cons_1 in H2 as [Ht H2].
    destruct (Hdl n WGet Hn) as [Hvs _]. simpl in Hvs.
    split; simpl; [|done].
    intros m pcm j Hpcm Hj. destruct (decide (m = n)) as [->|Hne].
    + rewrite list_lookup_insert_eq in Hpcm by (by eapply lookup_lt_Some).
      simplify_eq. simpl in Hj. simplify_eq. by rewrite Ht, Hvs.
    + rewrite list_lookup_insert_ne in Hpcm by done. by eapply H1.
  - (* line 86: the task is done *)
    destruct Hown as [H1 H2]. split; simpl; [|done].
    intros m pcm j Hpcm Hj. destruct (decide (m = n)) as [->|Hne].
    + rewrite list_lookup_insert_eq in Hpcm by (by eapply lookup_lt_Some).
      by simplify_eq.
    + rewrite list_lookup_insert_ne in Hpcm by done. by eapply H1.
Qed.

Lemma reachable_entries_own E W fs σ :
  NoDup (display_filename <$> discovered E) →
  reachable E W fs σ → entries_own E σ.
Proof.
  intros Hnd. revert σ. apply reachable_ind.
  - split; simpl.
    + intros n pc i [-> _]%lookup_replicate_1. done.
    + by apply Forall_true.
  - intros σ t Hr. by apply (step_entries_own E W fs).
Qed.

(* ===================================================================== *)
(** * Part VI. The properties of the specification                        *)
(* ===================================================================== *)

(** ** Drain and failures *)

Lemma stuck_not_drained σ : stuck σ → drained (pc_main σ) = false.
Proof.
  intros (_ & _ & _ & Hmain).
  destruct (pc_main σ) as [[|? [|? ?]]|? [|? ?]|? [|? ?]| | | | | |]; done.
Qed.

(** C1. When the one download of [world_404] fails, [queue.join()] never
    returns, whatever the number of workers and the schedule: the worker
    dies at [raise_for_status] without [task_done], the count of
    unfinished tasks stays at one and [finish] is never set. With eight
    workers and every thread taking turns, the main thread is found
    waiting in [join] with the queue empty and worker 0 dead. *)
Theorem drain_blocks_after_failure :
  (∀ W sched,
     let σ := run world_404 sched (init world_404 W ∅) in
     drained (pc_main σ) = false ∧ finish σ = false) ∧
  (let σ := run world_404 (round_robin WORKER_COUNT 12)
                (init world_404 WORKER_COUNT ∅) in
   pc_main σ = MJoin ∧ queue σ = [] ∧ unfinished_tasks σ = 1%nat ∧
   pc_workers σ !! 0%nat = Some (WRaised task1 HTTPError)).
Proof.
  split.
  - intros W sched σ.
    assert (stuck σ) as Hσ by (apply (reachable_stuck W); by exists sched).
    split; [by apply stuck_not_drained|apply Hσ].
  - vm_compute. done.
Qed.

(** C2. A failed download is not caught: on a 404, on a missing or a
    malformed content-length and on a full disk (the flush of the written
    bytes at the close of the file fails) alike, the worker thread ends
    with the exception, the registry keeps the entry of the task (at 0, and
    at 100 when the failure came after the last chunk), no completion is
    signalled and the main thread waits in [join]. *)
Theorem failure_ends_worker :
  (pc_workers (after_failure world_404) = [WRaised task1 HTTPError] ∧
   pc_workers (after_failure world_no_length) = [WRaised task1 KeyError] ∧
   pc_workers (after_failure world_bad_length) = [WRaised task1 ValueError] ∧
   pc_workers (after_failure world_disk_full) = [WRaised task1 OSError]) ∧
  (currently_downloading (after_failure world_404) = [("ep.mp3"%string, 0)] ∧
   currently_downloading (after_failure world_no_length) = [("ep.mp3"%string, 0)] ∧
   currently_downloading (after_failure world_bad_length) = [("ep.mp3"%string, 0)] ∧
   currently_downloading (after_failure world_disk_full) = [("ep.mp3"%string, 100)]) ∧
  Forall (λ E, unfinished_tasks (after_failure E) = 1%nat ∧
               pc_main (after_failure E) = MJoin ∧
               Forall (λ e, e.2 ≠ EvTaskDone task1) (trace (after_failure E)))
         [world_404; world_no_length; world_bad_length; world_disk_full].
Proof.
  split; [vm_compute; done|]. split; [vm_compute; done|].
  repeat (apply Forall_cons_2 || apply Forall_nil_2).
  all: vm_compute; split_and!; try done.
  all: repeat (apply Forall_cons_2 || apply Forall_nil_2); done.
Qed.

(** C3. After the failure the registry holds the key of the task although
    no worker has a download in progress. *)
Theorem entry_outlives_failed_download :
  let σ := after_failure world_404 in
  "ep.mp3"%string ∈ dict_keys (currently_downloading σ) ∧
  Forall (λ pc, downloading pc = None) (pc_workers σ).
Proof.
  vm_compute. split; [by apply elem_of_cons; left|].
  repeat (apply Forall_cons_2 || apply Forall_nil_2); done.
Qed.

(** ** Bounded concurrency *)

(** C4. At every reachable state the registry has at most as many entries
    as there are workers, however many tasks were enqueued. *)
Theorem bounded_concurrency E W fs σ :
  reachable E W fs σ →
  (List.length (currently_downloading σ) ≤ W)%nat.
Proof.
  intros [Hown Hlen]%registry_bounded. rewrite <-Hlen.
  by apply registry_owned_size.
Qed.

Lemma bounded_concurrency_witness :
  (List.length (episodes world_ok) > 1)%nat ∧
  (List.length (currently_downloading
     (run world_ok (round_robin 1 8) (init world_ok 1 ∅))) ≤ 1)%nat.
Proof.
  split; [simpl; lia|].
  apply (bounded_concurrency world_ok 1 ∅). by exists (round_robin 1 8).
Defined.

(** ** Skip-if-exists *)

(** C5. An episode whose destination is on the disk the run starts with
    gets no task: its task is never in the queue, never in the hands of a
    worker, and no event (put, get, request, receive, task done) is ever
    about it. *)
Theorem skip_if_exists E W fs σ ep :
  reachable E W fs σ →
  is_Some (fs !! filename (make_task (output E) ep)) →
  let i := make_task (output E) ep in
  (i ∉ queue σ) ∧
  (∀ n pc, pc_workers σ !! n = Some pc → wtask pc ≠ Some i) ∧
  (∀ t ev, (t, ev) ∈ trace σ → ev_task ev ≠ Some i).
Proof.
  intros (_ & Hq & Hw & _ & Htr)%reachable_tasks_fresh [c Hc] i.
  assert (¬ fresh fs i) as Hi by (unfold fresh; fold i in Hc; congruence).
  split_and!.
  - intros Hin. by eapply Hi, Forall_forall.
  - intros n pc Hn Hpc. eapply Hi, Hw; done.
  - intros t ev Hin Hev. eapply Hi, Htr; done.
Qed.

Lemma skip_if_exists_witness :
  let σ := run world_ok (round_robin 2 10) (init world_ok 2 disk_with_ep1) in
  (task1 ∉ queue σ) ∧
  (∀ n pc, pc_workers σ !! n = Some pc → wtask pc ≠ Some task1) ∧
  (∀ t ev, (t, ev) ∈ trace σ → ev_task ev ≠ Some task1).
Proof.
  apply (skip_if_exists world_ok 2 disk_with_ep1 _ ep1).
  - by exists (round_robin 2 10).
  - vm_compute. eauto.
Defined.

(** ** The percentage *)

(** C6 as stated fails: a server that declares ten bytes and sends twenty
    makes the worker write 200 to its entry. *)
Lemma percent_exceeds_100 :
  ¬ (∀ E W fs σ n,
       reachable E W fs σ →
       non_decreasing (written_values n (trace σ)) ∧
       Forall (λ v, 0 <= v <= 100) (written_values n (trace σ))).
Proof.
  intros H.
  destruct (H world_long 1%nat ∅
              (run world_long (round_robin 1 18) (init world_long 1 ∅)) 0%nat)
    as [_ Hb]; [by eexists|].
  vm_compute in Hb. apply Forall_cons_1 in Hb as [[_ Hb] _]. by apply Hb.
Qed.

(** C6, amended. For every download whose response declares a positive
    content-length, the values the download writes to its registry entry
    (the initial 0 and each percentage) never decrease over time and are
    not negative; they do not exceed 100 when the body is no longer than
    declared. When no two discovered episodes have the same display file
    name, these are all the values the entry has taken since it was
    created. *)
Theorem percent_monotone_bounded E W fs σ n pc i r l :
  reachable E W fs σ →
  pc_workers σ !! n = Some pc →
  wtask pc = Some i →
  http E (url i) = inr r →
  header_length r = inr l →
  0 < l →
  let vs := written_values n (trace σ) in
  non_decreasing vs ∧
  Forall (λ v, 0 <= v) vs ∧
  (Z.of_nat (List.length (body r)) <= l → Forall (λ v, v <= 100) vs) ∧
  (NoDup (display_filename <$> discovered E) →
   entry_values (display_filename i) (trace σ) = vs).
Proof.
  intros Hσ Hpc Hi Hr Hl Hpos vs.
  destruct (reachable_download_inv E W fs σ Hσ n pc Hpc) as [_ Hfine].
  destruct (Hfine i Hi r l Hr Hl Hpos) as (Hnd & Hge & Hle).
  split_and!; [done|done|done|].
  intros Huniq. destruct (reachable_entries_own E W fs σ Huniq Hσ) as [Hown _].
  by eapply Hown.
Qed.

Lemma percent_monotone_bounded_witness :
  let σ := run world_ok (sched_updating ++ [Worker 0]) (init world_ok 1 ∅) in
  written_values 0 (trace σ) = [100; 0] ∧
  non_decreasing (written_values 0 (trace σ)) ∧
  Forall (λ v, 0 <= v) (written_values 0 (trace σ)) ∧
  Forall (λ v, v <= 100) (written_values 0 (trace σ)) ∧
  entry_values "ep.mp3" (trace σ) = written_values 0 (trace σ).
Proof.
  intros σ.
  assert (reachable world_ok 1 ∅ σ) as Hσ by (by eexists).
  assert (pc_workers σ !! 0%nat = Some (WRelease1 task1 20 20 [])) as Hpc
    by (vm_compute; reflexivity).
  pose proof (percent_monotone_bounded world_ok 1 ∅ σ 0%nat _ task1
                (Response 200 (Some "20"%string) (payload 20)) 20
                Hσ Hpc eq_refl eq_refl eq_refl eq_refl) as H.
  cbv zeta in H. destruct H as (Hnd & Hge & Hle & Hown).
  split_and!; [vm_compute; reflexivity|exact Hnd|exact Hge| |].
  - apply Hle. vm_compute. discriminate.
  - apply Hown. refine (bool_decide_unpack _ _). vm_compute. exact I.
Defined.

(** ** Streaming *)




(** ** The renderer *)

(** C8. When the registry has become empty after a block of [k > 0] lines,
    the renderer moves the cursor up by [k] lines (line 101) and prints
    nothing else, because the clearing of lines 110-112 is inside the test
    of line 107: every line of the old block stays on the screen, which is
    the cleared screen of the specification only if the block was blank
    before. So it is when the last download of [world_ok] has ended: the
    line of [intro.mp3] stays although nothing is being downloaded. Only
    when the previous block was empty too does the renderer print
    nothing. *)
Theorem stale_block_after_last_download :
  (∀ E σ s rws r,
     pc_info σ = RWhile s →
     finish σ = false →
     lock σ = None →
     currently_downloading σ = [] →
     let k := count_newlines s in
     (0 < k ≤ r)%nat →
     let after := feed (Terminal rws r 0 Ground) (new_output σ (tick E σ)) in
     new_output σ (tick E σ) = cursor_up k ∧
     rows after = rws ∧
     (rows after = repainted rws r k [] →
      take k (drop (r - k) rws) = replicate k [])) ∧
  (let σ := run world_ok sched_emptied (init world_ok 2 ∅) in
   currently_downloading σ = [] ∧
   rows (screen σ) =
     list_ascii_of_string <$> ["Downloading intro.mp3... 0%"; ""; ""]%string ∧
   rows (feed (screen σ) (new_output σ (tick world_ok σ))) =
     list_ascii_of_string <$> ["Downloading intro.mp3... 0%"; ""; ""]%string ∧
   repainted (rows (screen σ)) 2 2 [] =
     list_ascii_of_string <$> [""; ""; ""]%string) ∧
  (∀ E σ s,
     pc_info σ = RWhile s →
     finish σ = false →
     lock σ = None →
     currently_downloading σ = [] →
     count_newlines s = 0%nat →
     new_output σ (tick E σ) = EmptyString).
Proof.
  split_and!.
  - intros E σ s rws r Hpc Hfin Hlock Hd k Hk after. subst after.
    rewrite (repaint_empty E σ s rws r) by (done || lia). fold k.
    split_and!; [|done|intros Heq; by apply repainted_same; [lia|]].
    rewrite (tick_output E σ s) by done. fold k. rewrite Hd. simpl.
    destruct (Nat.eqb_spec k 0) as [|_]; [lia|]. apply str_app_nil_r.
  - intros σ.
    assert (∃ s, pc_info σ = RWhile s ∧ count_newlines s = 2%nat) as (s & Hpc & Hk).
    { eexists. split; vm_compute; reflexivity. }
    assert (finish σ = false) as Hfin by (vm_compute; reflexivity).
    assert (lock σ = None) as Hlock by (vm_compute; reflexivity).
    assert (currently_downloading σ = []) as Hd by (vm_compute; reflexivity).
    assert (screen σ =
              Terminal (list_ascii_of_string <$>
                          ["Downloading intro.mp3... 0%"; ""; ""]%string) 2 0 Ground)
      as Hscreen by (vm_compute; reflexivity).
    clearbody σ. rewrite Hscreen.
    split_and!; [done|reflexivity| |vm_compute; reflexivity].
    rewrite (repaint_empty world_ok σ s) by (done || lia). reflexivity.
  - intros E σ s Hpc Hfin Hlock Hd Hk.
    rewrite (tick_output E σ s) by done. by rewrite Hk, Hd.
Qed.

Lemma stale_block_after_last_download_witness :
  let σ := run world_ok sched_emptied (init world_ok 2 ∅) in
  new_output σ (tick world_ok σ) = cursor_up 2 ∧
  rows (feed (Terminal (rows (screen σ)) 2 0 Ground) (new_output σ (tick world_ok σ))) =
    rows (screen σ).
Proof.
  intros σ.
  assert (∃ s, pc_info σ = RWhile s ∧ count_newlines s = 2%nat) as (s & Hpc & Hk).
  { eexists. split; vm_compute; reflexivity. }
  assert (finish σ = false) as Hfin by (vm_compute; reflexivity).
  assert (lock σ = None) as Hlock by (vm_compute; reflexivity).
  assert (currently_downloading σ = []) as Hd by (vm_compute; reflexivity).
  pose proof (proj1 stale_block_after_last_download world_ok σ s (rows (screen σ))
                2%nat Hpc Hfin Hlock Hd) as H.
  cbv zeta in H. rewrite Hk in H. clearbody σ.
  destruct H as (H1 & H2 & _); [lia|]. split; [exact H1|exact H2].
Defined.

(** ** The lock *)




(** ** The empty download *)



(* ===================================================================== *)
(** * Part VII. More properties of the program                           *)
(* ===================================================================== *)

(** ** The queue *)

(** X1. The counter behind [queue.join] is, at every moment, the number of
    tasks waiting in the queue plus the number of workers that took a task
    and have not called [task_done] for it (dead workers included). *)
Theorem queue_accounting E W fs sched :
  let σ := run E sched (init E W fs) in
  unfinished_tasks σ =
    (List.length (queue σ) + pending_count (pc_workers σ))%nat.
Proof.
  intros σ. assert (reachable E W fs σ) as Hr by (by exists sched).
  by apply reachable_accounting in Hr as [? _].
Qed.

(** X2. [task_done] never raises: a worker that comes to line 86 finds the
    counter positive, decrements it and goes back to the head of its loop. *)
Theorem task_done_never_raises E W fs σ n i :
  reachable E W fs σ →
  pc_workers σ !! n = Some (WTaskDone i) →
  ∃ u, unfinished_tasks σ = S u ∧
       step E (Worker n) σ =
         emit (Worker n) (EvTaskDone i) (set_unfinished u (set_worker n WWhile σ)).
Proof.
  intros [Hu _]%reachable_accounting Hn.
  pose proof (pending_count_pos _ _ _ Hn) as Hpos.
  destruct (unfinished_tasks σ) as [|u] eqn:Hun.
  - exfalso. simpl in Hpos. specialize (Hpos ltac:(eauto)). lia.
  - exists u. split; [done|]. simpl. by rewrite Hn; simpl; rewrite Hun.
Qed.

Lemma task_done_never_raises_witness :
  let σ := run world_ok sched_before_task_done (init world_ok 1 ∅) in
  ∃ u, unfinished_tasks σ = S u ∧
       step world_ok (Worker 0) σ =
         emit (Worker 0) (EvTaskDone task1)
           (set_unfinished u (set_worker 0 WWhile σ)).
Proof.
  apply (task_done_never_raises world_ok 1 ∅ _ 0%nat task1).
  - by exists sched_before_task_done.
  - vm_compute. reflexivity.
Defined.

(** X3. Once [queue.join] has returned (and so whenever the finish flag is
    set) all work is done and stays done: the queue is empty, its counter is
    zero, no worker holds a task, none died, and the registry is empty. *)
Theorem drained_all_done E W fs σ :
  reachable E W fs σ →
  finish σ = true ∨ drained (pc_main σ) = true →
  queue σ = [] ∧ unfinished_tasks σ = 0%nat ∧
  Forall (λ pc, wtask pc = None) (pc_workers σ) ∧
  currently_downloading σ = [].
Proof. apply drained_done. Qed.

Lemma drained_all_done_witness :
  let σ := run world_ok sched_joined (init world_ok 1 ∅) in
  queue σ = [] ∧ unfinished_tasks σ = 0%nat ∧
  Forall (λ pc, wtask pc = None) (pc_workers σ) ∧
  currently_downloading σ = [].
Proof.
  apply (drained_all_done world_ok 1 ∅).
  - by exists sched_joined.
  - right. vm_compute. reflexivity.
Defined.

(** X4. No thread leaves its loop early: a worker that has returned, or
    the renderer that has returned, has seen the flag, which the main thread
    sets only after [queue.join]. *)
Theorem loops_end_after_drain E W fs σ :
  reachable E W fs σ →
  WReturn ∈ pc_workers σ ∨ pc_info σ = RReturn →
  finish σ = true ∧ drained (pc_main σ) = true ∧ unfinished_tasks σ = 0%nat.
Proof.
  intros (_ & Hm & Hw & Hi)%reachable_accounting Hret.
  assert (finish σ = true) as Hf by (destruct Hret; auto).
  destruct (drained_phase _ Hm (or_introl Hf)) as [? ?]. done.
Qed.

Lemma loops_end_after_drain_witness :
  let σ := run world_ok sched_complete (init world_ok 1 ∅) in
  finish σ = true ∧ drained (pc_main σ) = true ∧ unfinished_tasks σ = 0%nat.
Proof.
  apply (loops_end_after_drain world_ok 1 ∅).
  - by exists sched_complete.
  - right. vm_compute. reflexivity.
Defined.



(** X6. The queue is first in, first out, and nothing is lost or taken
    twice: the tasks put so far are, in the order of the puts, the tasks
    the workers have taken so far and then the tasks still waiting. *)
Theorem queue_is_fifo E W fs sched :
  let σ := run E sched (init E W fs) in
  put_log (trace σ) = get_log (trace σ) ++ queue σ.
Proof. intros σ. apply (reachable_fifo E W fs). by exists sched. Qed.

(** X7. The main thread enqueues in the order of discovery and at most
    once per discovered episode: the tasks put so far are a subsequence of
    the tasks of [query_episodes()]. *)
Theorem enqueued_in_discovery_order E W fs sched :
  let σ := run E sched (init E W fs) in
  put_log (trace σ) `sublist_of` discovered E.
Proof.
  intros σ. assert (reachable E W fs σ) as Hr by (by exists sched).
  apply reachable_in_order in Hr as (pre & -> & Hsub).
  by apply sublist_inserts_r.
Qed.

(** X8. The program only works on what was discovered: the task of every
    put, get, request, received chunk and task_done is the task of a
    discovered episode, and every path of an exists, open, write or close is
    the destination of one. *)
Theorem only_discovered_episodes E W fs σ t ev :
  reachable E W fs σ →
  (t, ev) ∈ trace σ →
  (∀ i, ev_task ev = Some i →
     ∃ ep, ep ∈ episodes E ∧ i = make_task (output E) ep) ∧
  (∀ p, ev_path ev = Some p →
     ∃ ep, ep ∈ episodes E ∧ p = filename (make_task (output E) ep)).
Proof.
  intros (_ & _ & _ & Htr & Hp)%reachable_tasks_known Hin. split.
  - intros i Hi. eapply discovered_episode, Htr; done.
  - intros p Hev. destruct (Hp _ _ _ Hin Hev) as (i & Hi & ->).
    apply discovered_episode in Hi as (ep & ? & ->). eauto.
Qed.

Lemma only_discovered_episodes_witness :
  ∃ ep, ep ∈ episodes world_ok ∧ task1 = make_task (output world_ok) ep.
Proof.
  set (σ := run world_ok sched_requested (init world_ok 1 ∅)).
  assert (∃ tr, trace σ = (Worker 0, EvRequest task1) :: tr) as [tr Htr]
    by (eexists; vm_compute; reflexivity).
  apply (only_discovered_episodes world_ok 1 ∅ σ (Worker 0) (EvRequest task1)).
  - by exists sched_requested.
  - rewrite Htr. apply elem_of_cons. by left.
  - reflexivity.
Defined.

(** ** The lock *)

(** X9. Mutual exclusion: at no time are two threads between a
    [lock.acquire()] and the [lock.release()] that follows it. *)
Theorem mutual_exclusion E W fs σ t1 t2 :
  reachable E W fs σ →
  in_critical σ t1 = true → in_critical σ t2 = true → t1 = t2.
Proof.
  intros [Hc _]%reachable_lock_inv H1 H2.
  apply Hc in H1. apply Hc in H2. congruence.
Qed.

Lemma mutual_exclusion_witness :
  let σ := run world_ok sched_printing (init world_ok 1 ∅) in
  in_critical σ Info = true ∧ Info = Info.
Proof.
  intros σ.
  assert (in_critical σ Info = true) as Hc by (vm_compute; reflexivity).
  split; [exact Hc|].
  apply (mutual_exclusion world_ok 1 ∅ σ Info Info).
  - by exists sched_printing.
  - exact Hc.
  - exact Hc.
Defined.

(** X10. The registry is only written with the lock held, and only by
    workers: the thread that sets or deletes an entry is a worker and is
    the holder of the lock at that moment. *)
Theorem registry_written_under_lock E W fs σ t ev :
  reachable E W fs σ →
  trace (step E t σ) = (t, ev) :: trace σ →
  is_registry ev = true →
  lock σ = Some t ∧ ∃ n, t = Worker n.
Proof.
  intros [Hc _]%reachable_lock_inv Htr Hev.
  specialize (Hc t). revert Htr.
  step_cases t σ; intros Htr; simplify_eq; simpl in *;
    try (exfalso; by eapply cons_neq); try done.
  all: match goal with H : pc_workers _ !! _ = _ |- _ => rewrite H in Hc end;
    simpl in Hc; split; [by apply Hc|by eexists].
Qed.

Lemma registry_written_under_lock_witness :
  let σ := run world_ok (sched_taken ++ [Worker 0]) (init world_ok 1 ∅) in
  lock σ = Some (Worker 0) ∧ ∃ n, Worker 0 = Worker n.
Proof.
  apply (registry_written_under_lock world_ok 1 ∅ _ (Worker 0) (EvSet "ep.mp3" 0)).
  - by eexists.
  - vm_compute. reflexivity.
  - reflexivity.
Defined.

(** X11. A worker that is dead while it holds the lock (it died between
    [lock.acquire()] and [lock.release()], as when the [del] of line 84
    raises KeyError) takes the lock with it: from then on, whatever the
    schedule, the lock stays with the dead thread. *)
Theorem lock_dies_with_its_holder E W fs σ n i e sched :
  reachable E W fs σ →
  lock σ = Some (Worker n) →
  pc_workers σ !! n = Some (WRaised i e) →
  lock (run E sched σ) = Some (Worker n) ∧
  pc_workers (run E sched σ) !! n = Some (WRaised i e).
Proof. intros Hr Hl Hn. by apply (run_lock_lost E W fs). Qed.

Lemma lock_dies_with_its_holder_witness :
  let σ := run world_twins sched_twins (init world_twins 2 ∅) in
  lock (run world_twins (round_robin 2 10) σ) = Some (Worker 1) ∧
  pc_workers (run world_twins (round_robin 2 10) σ) !! 1%nat =
    Some (WRaised task1 KeyError).
Proof.
  apply (lock_dies_with_its_holder world_twins 2 ∅).
  - by exists sched_twins.
  - vm_compute. reflexivity.
  - vm_compute. reflexivity.
Defined.

(** ** The disk *)

(** X12. A file that was on the disk when the run started is never
    written: its content is the same in every reachable state. *)
Theorem existing_files_untouched E W fs σ p :
  reachable E W fs σ →
  is_Some (fs !! p) →
  files σ !! p = fs !! p.
Proof. intros Hr. by apply (reachable_files_kept E W). Qed.

Lemma existing_files_untouched_witness :
  files (run world_ok (round_robin 1 40) (init world_ok 1 disk_with_ep1))
    !! "episodes/ep.mp3"%string = disk_with_ep1 !! "episodes/ep.mp3"%string.
Proof.
  apply (existing_files_untouched world_ok 1 disk_with_ep1).
  - by eexists.
  - vm_compute. eauto.
Defined.

(** ** A download from beginning to end *)

(** X13. A worker that is left alone with a task whose server answers with
    a success status, declares a positive length and sends exactly as many
    bytes as it declared, over a connection that does not break off, on a
    disk that accepts the file (its creation, every write and its close),
    runs lines 65-86 to their end in 13 statements plus 6 per chunk: the
    destination then holds exactly the body, the registry is what it was
    without the entry of this download, the counter of the queue went down
    by one, the lock is free and the worker is back at the head of its
    loop. *)
Theorem download_writes_body E σ n i r l u :
  pc_workers σ !! n = Some (WAcquire0 i) →
  lock σ = None →
  unfinished_tasks σ = S u →
  http E (url i) = inr r →
  raise_for_status r = false →
  header_length r = inr l →
  0 < l →
  Z.of_nat (List.length (body r)) = l →
  stream_breaks E (url i) = false →
  open_fails E (filename i) = false →
  (∀ w, write_fails E (filename i) w = false) →
  close_fails E (filename i) = false →
  let σ' := solo E (Worker n)
              (download_steps
                 (iter_content (transfer E (url i)) CHUNK_SIZE (body r))) σ in
  pc_workers σ' = <[n := WWhile]> (pc_workers σ) ∧
  files σ' = <[filename i := body r]> (files σ) ∧
  dict_del (display_filename i)
    (dict_set (display_filename i) 0 (currently_downloading σ))
    = Some (currently_downloading σ') ∧
  unfinished_tasks σ' = u ∧ lock σ' = None ∧ queue σ' = queue σ.
Proof.
  intros Hpc Hlock Hu Hhttp Hstatus Hlen Hl Hbody Hbreak Hopen Hwrite Hclose.
  destruct (solo_download E σ n i r l u) as (H1 & H2 & H3 & H4 & H5 & H6 & _); done.
Qed.

Lemma download_writes_body_witness :
  let σ := run world_ok sched_taken (init world_ok 1 ∅) in
  let r := Response 200 (Some "20"%string) (payload 20) in
  let σ' := solo world_ok (Worker 0)
              (download_steps
                 (iter_content (transfer world_ok (url task1)) CHUNK_SIZE (body r))) σ in
  pc_workers σ' = <[0%nat := WWhile]> (pc_workers σ) ∧
  files σ' = <[filename task1 := body r]> (files σ) ∧
  dict_del (display_filename task1)
    (dict_set (display_filename task1) 0 (currently_downloading σ))
    = Some (currently_downloading σ') ∧
  unfinished_tasks σ' = 0%nat ∧ lock σ' = None ∧ queue σ' = queue σ.
Proof.
  apply (download_writes_body world_ok _ 0%nat task1
           (Response 200 (Some "20"%string) (payload 20)) 20 0%nat).
  all: try (vm_compute; reflexivity).
  all: done.
Defined.

(** ** The percentage *)

(** X14. The percentage of line 78 is the true percentage rounded down or
    up: for a positive declared length and no more bytes than declared, the
    float computation [round((written / length) * 100)] yields an integer
    between the floor and the ceiling of [100 * written / length]. In
    particular a download that has received all declared bytes is at 100. *)
Theorem percent_accuracy w l :
  0 < l → 0 <= w <= l →
  ∃ p, percent w l = inr p ∧
       (100 * w) `div` l <= p <= (100 * w + l - 1) `div` l ∧
       (w = l → p = 100).
Proof.
  intros Hl Hw. destruct (percent_between w l Hl Hw) as (p & Hp & Hlo & Hhi).
  exists p. split_and!; try done. intros ->.
  rewrite Z.div_mul in Hlo by lia.
  assert ((100 * l + l - 1) `div` l = 100) as Heq; [|lia].
  symmetry. apply (Z.div_unique _ _ _ (l - 1)); lia.
Qed.

Lemma percent_accuracy_witness :
  ∃ p, percent 1 3 = inr p ∧
       (100 * 1) `div` 3 <= p <= (100 * 1 + 3 - 1) `div` 3 ∧
       (1 = 3 → p = 100).
Proof. apply (percent_accuracy 1 3); lia. Defined.

(** X15. Failures leave the lock free: a worker that died of an exception
    other than KeyError (a failed request, an error status, a
    content-length that is not a number, a disk error, a division by zero)
    does not hold the lock. *)
Theorem failures_outside_lock E W fs σ n i e :
  reachable E W fs σ →
  pc_workers σ !! n = Some (WRaised i e) →
  e ≠ KeyError →
  lock σ ≠ Some (Worker n).
Proof.
  intros [_ Hl]%reachable_lock_inv Hn He Hlock.
  destruct (Hl _ Hlock) as [Hc|Hd]; simpl in *; rewrite Hn in *; [done|].
  by destruct e.
Qed.

Lemma failures_outside_lock_witness :
  pc_workers (after_failure world_404) !! 0%nat = Some (WRaised task1 HTTPError) ∧
  lock (after_failure world_404) ≠ Some (Worker 0).
Proof.
  assert (pc_workers (after_failure world_404) !! 0%nat
          = Some (WRaised task1 HTTPError)) as Hpc by (vm_compute; reflexivity).
  split; [exact Hpc|].
  apply (failures_outside_lock world_404 1 ∅ _ 0%nat task1 HTTPError).
  - by exists (round_robin 1 30).
  - exact Hpc.
  - discriminate.
Defined.

(** ** File names *)

(** X16. The extension that line 140 takes from the URL is what follows
    the last dot of the URL (the whole URL when it has no dot); it has no
    dot itself, and it is again the extension of the display file name
    [title + "." + extension] whatever the title is. *)
Theorem extension_of_task out ep :
  let i := make_task out ep in
  let extension := split_last (ep_url ep) in
  has_dot extension = false ∧
  display_filename i = (title ep ++ "." ++ extension)%string ∧
  split_last (display_filename i) = extension ∧
  (∀ a b, ep_url ep = (a ++ "." ++ b)%string → has_dot b = false → extension = b) ∧
  (has_dot (ep_url ep) = false → extension = ep_url ep).
Proof.
  intros i extension.
  assert (has_dot extension = false) as Hext by (by apply last_segment_has_no_dot).
  split_and!; [done|done|..].
  - simpl. unfold split_last. rewrite last_segment_after_dot.
    by apply last_segment_no_dot.
  - intros a b Hu Hb. unfold extension, split_last. rewrite Hu.
    rewrite last_segment_after_dot. by apply last_segment_no_dot.
  - intros Hu. by apply last_segment_no_dot.
Qed.



(** ** The renderer *)

(** X18. A repaint with a block that did not shrink, provided no display
    file name in the registry holds a control character (a line feed or an
    escape in a name would break the block into other lines): when the
    registry has [j] entries, [j] positive and at least the [k] lines of
    the previous block, one round of the renderer moves the cursor up to
    where the old block began and writes the [j] status lines from there,
    in the order of the registry, over the old block and the lines below
    it, adding lines at the end of the screen as needed; the lines above
    are untouched, the cursor ends below the block and the renderer
    remembers [j] lines. This covers the first paint ([k = 0]). *)
Theorem repaint_grown_block E σ s rws r :
  pc_info σ = RWhile s →
  finish σ = false →
  lock σ = None →
  let k := count_newlines s in
  let d := currently_downloading σ in
  Forall (λ kv : string * Z, printable_str kv.1 = true) d →
  (0 < List.length d)%nat →
  (k ≤ List.length d)%nat →
  (k ≤ r < List.length rws)%nat →
  feed (Terminal rws r 0 Ground) (new_output σ (tick E σ)) =
    Terminal (painted rws r k d) (r - k + List.length d) 0 Ground ∧
  ∃ s', pc_info (tick E σ) = RWhile s' ∧ count_newlines s' = List.length d.
Proof.
  intros Hpc Hfin Hlock k d Hd Hj Hkj Hr.
  destruct (tick_state E σ s Hpc Hfin Hlock) as (Hpc' & _).
  rewrite (tick_output E σ s) by done. fold k d. fold k d in Hpc'.
  destruct (Nat.eqb_spec (List.length d) 0) as [|_]; [lia|].
  split; [by apply feed_paint|].
  eexists. split; [exact Hpc'|].
  unfold pad_block. rewrite count_newlines_block by done.
  destruct (Nat.ltb_spec (List.length d) k) as [|_]; [lia|].
  by apply count_newlines_block.
Qed.

Lemma repaint_grown_block_witness :
  let σ := run world_ok sched_grown (init world_ok 2 ∅) in
  rows (screen σ) =
    list_ascii_of_string <$> ["Downloading ep.mp3... 0%"; ""]%string ∧
  feed (screen σ) (new_output σ (tick world_ok σ)) =
    Terminal (list_ascii_of_string <$>
                ["Downloading ep.mp3... 0%"; "Downloading intro.mp3... 0%"; ""]%string)
             2 0 Ground.
Proof.
  intros σ. split; [vm_compute; reflexivity|].
  assert (∃ s, pc_info σ = RWhile s ∧ count_newlines s = 1%nat) as (s & Hpc & Hk).
  { eexists. split; vm_compute; reflexivity. }
  assert (finish σ = false) as Hfin by (vm_compute; reflexivity).
  assert (lock σ = None) as Hlock by (vm_compute; reflexivity).
  assert (currently_downloading σ = [("ep.mp3"%string, 0); ("intro.mp3"%string, 0)])
    as Hd by (vm_compute; reflexivity).
  pose proof (repaint_grown_block world_ok σ s (rows (screen σ)) 1%nat
                Hpc Hfin Hlock) as H.
  cbv zeta in H. rewrite Hk, Hd in H.
  destruct H as [H _].
  - repeat constructor.
  - simpl. lia.
  - simpl. lia.
  - assert (List.length (rows (screen σ)) = 2%nat) as -> by (vm_compute; reflexivity).
    lia.
  - etrans; [|etrans; [exact H|]]; vm_compute; reflexivity.
Defined.

(** ** Discovery *)

(** X19. What the loop over the teasers of a page yields: every yielded
    episode is that of a teaser of the page with this title, which is not
    empty, and with an audio element whose [data-src-adfree] is the URL, or
    whose [data-src-adfree] is the empty string and whose [src] is the
    URL. *)
Theorem yielded_teasers cs :
  Forall (λ ep, ∃ c, c ∈ cs ∧ yields c ep) (teasers cs).1.
Proof. apply teasers_yield. Qed.

(** X20. The fallback to [src] is for an empty [data-src-adfree] only: a
    teaser with a title and an audio element that lacks the attribute
    raises KeyError, also when [src] is there. The episodes of the teasers
    before it have been yielded by then, none after it is. Teasers without
    audio element or with an empty title are skipped. *)
Theorem missing_adfree_ends_discovery cs1 c cs2 :
  (teasers cs1).2 = None →
  (no_adfree c →
   teasers (cs1 ++ c :: cs2) = ((teasers cs1).1, Some (Exn KeyError))) ∧
  (skipped c →
   teasers (cs1 ++ c :: cs2) = ((teasers cs1).1 ++ (teasers cs2).1, (teasers cs2).2)).
Proof.
  intros H1. split; intros Hc; rewrite teasers_app by done.
  - rewrite teasers_no_adfree by done. simpl. by rewrite app_nil_r.
  - by rewrite teasers_skipped.
Qed.

Lemma missing_adfree_ends_discovery_witness :
  (no_adfree src_only →
   teasers (containers page1 ++ src_only :: containers page2) =
     ((teasers (containers page1)).1, Some (Exn KeyError))) ∧
  (skipped src_only →
   teasers (containers page1 ++ src_only :: containers page2) =
     ((teasers (containers page1)).1 ++ (teasers (containers page2)).1,
      (teasers (containers page2)).2)).
Proof.
  apply (missing_adfree_ends_discovery (containers page1) src_only (containers page2)).
  vm_compute. reflexivity.
Defined.

(** X21. Pagination: when following the pager from the start URL leads
    through the pages [ps], the last of which has no next page, and no
    teaser of these pages raises, [query_episodes] yields the episodes of
    the pages in this order and ends, provided it is followed for at least
    as many pages. *)
Theorem pagination web ps fuel :
  chain web URL ps →
  Forall (λ p, (teasers (containers p)).2 = None) ps →
  (List.length ps ≤ fuel)%nat →
  query_episodes web fuel =
    (concat ((λ p, (teasers (containers p)).1) <$> ps), Exhausted).
Proof. intros Hch Hps Hfuel. by apply pages_chain. Qed.

Lemma pagination_witness :
  query_episodes two_pages 2 =
    (concat ((λ p, (teasers (containers p)).1) <$> [page1; page2]), Exhausted).
Proof.
  apply (pagination two_pages [page1; page2] 2).
  - split; [vm_compute; reflexivity|].
    exists "https://www.zeit.de/serie/alles-gesagt?p=2"%string.
    split; [reflexivity|]. split; [vm_compute; reflexivity|reflexivity].
  - repeat constructor.
  - simpl. lia.
Defined.

(** ** The files *)

(** X22. What is on the disk when [queue.join()] has returned (and so when
    the program exits), provided no two discovered episodes have the same
    destination: every discovered episode has its file; a file that was
    there when the run started has its old content, every other one holds
    exactly the body the server sends for the episode's URL. *)
Theorem downloaded_at_exit E W fs σ i :
  reachable E W fs σ →
  NoDup (filename <$> discovered E) →
  drained (pc_main σ) = true →
  i ∈ discovered E →
  files σ !! filename i = Some (default (body_of E i) (fs !! filename i)).
Proof.
  intros Hr Hnd Hd Hi.
  destruct (fs !! filename i) as [c|] eqn:Hfs.
  { simpl. rewrite (reachable_files_kept E W fs σ Hr (filename i)); [done|].
    by rewrite Hfs. }
  simpl.
  destruct (reachable_shipshape E W fs σ Hnd Hr) as (sk & Hperm & Hsk & Hdone & _).
  destruct (drained_done E W fs σ Hr (or_intror Hd)) as (Hq & _ & Hnone & _).
  rewrite Hq, (held_nil _ Hnone), (todo_drained _ _ Hd), !app_nil_r in Hperm.
  rewrite Hperm in Hi. apply elem_of_app in Hi as [Hi|Hi].
  - eapply Forall_forall in Hsk; [|done]. rewrite Hfs in Hsk. by destruct Hsk.
  - by eapply Forall_forall in Hdone.
Qed.

Lemma downloaded_at_exit_witness :
  files (run world_ok sched_joined (init world_ok 1 ∅)) !! filename task1 =
  Some (default (body_of world_ok task1) ((∅ : gmap string (list Byte.byte)) !! filename task1)).
Proof.
  apply (downloaded_at_exit world_ok 1 ∅).
  - by exists sched_joined.
  - refine (bool_decide_unpack _ _). vm_compute. exact I.
  - vm_compute. reflexivity.
  - apply elem_of_cons. by left.
Defined.

(** X23. No destination is worked on twice, provided no two discovered
    episodes have the same destination: the tasks that are done, in the
    hands of a worker or in the queue have pairwise different destinations.
    In particular no two workers ever write to the same file. *)
Theorem each_destination_once E W fs σ :
  reachable E W fs σ →
  NoDup (filename <$> discovered E) →
  NoDup (filename <$> (done_log (trace σ) ++ held (pc_workers σ) ++ queue σ)) ∧
  ∀ n m pc pc' i j,
    n ≠ m → pc_workers σ !! n = Some pc → pc_workers σ !! m = Some pc' →
    wtask pc = Some i → wtask pc' = Some j → filename i ≠ filename j.
Proof.
  intros Hr Hnd.
  destruct (reachable_shipshape E W fs σ Hnd Hr) as (sk & Hperm & _).
  rewrite Hperm in Hnd.
  rewrite fmap_app in Hnd. apply NoDup_app in Hnd as (_ & _ & Hnd).
  rewrite !app_assoc in Hnd. rewrite fmap_app in Hnd.
  apply NoDup_app in Hnd as (Hnd & _ & _). rewrite <-!app_assoc in Hnd.
  split; [done|]. intros n m pc pc' i j Hne Hn Hm Hi Hj.
  rewrite !fmap_app in Hnd. apply NoDup_app in Hnd as (_ & _ & Hnd).
  apply NoDup_app in Hnd as (Hnd & _ & _).
  by eapply (held_apart filename).
Qed.

Lemma each_destination_once_witness :
  let σ := run world_ok sched_grown (init world_ok 2 ∅) in
  NoDup (filename <$> (done_log (trace σ) ++ held (pc_workers σ) ++ queue σ)) ∧
  ∀ n m pc pc' i j,
    n ≠ m → pc_workers σ !! n = Some pc → pc_workers σ !! m = Some pc' →
    wtask pc = Some i → wtask pc' = Some j → filename i ≠ filename j.
Proof.
  apply (each_destination_once world_ok 2 ∅).
  - by exists sched_grown.
  - refine (bool_decide_unpack _ _). vm_compute. exact I.
Defined.

(** X24. The file follows the download, provided no two discovered
    episodes have the same destination: whenever a worker stands at the head
    of its loop over the chunks (line 75), the destination holds exactly the
    bytes received so far, [written] is their number, and the chunks still
    to come complete the body. *)
Theorem file_follows_download E W fs σ n i l w rest :
  reachable E W fs σ →
  NoDup (filename <$> discovered E) →
  pc_workers σ !! n = Some (WFor i l w rest) →
  ∃ pre, files σ !! filename i = Some pre ∧
         pre ++ concat rest = body_of E i ∧
         w = Z.of_nat (List.length pre).
Proof.
  intros Hr Hnd Hn.
  destruct (reachable_shipshape E W fs σ Hnd Hr) as (sk & _ & _ & _ & _ & Hws).
  apply (Hws n _ Hn).
Qed.

Lemma file_follows_download_witness :
  let σ := run world_ok (sched_streaming ++ replicate 6 (Worker 0)) (init world_ok 1 ∅) in
  ∃ pre, files σ !! filename task1 = Some pre ∧
         pre ++ concat [] = body_of world_ok task1 ∧
         20 = Z.of_nat (List.length pre).
Proof.
  apply (file_follows_download world_ok 1 ∅ _ 0%nat task1 20 20 []).
  - by eexists.
  - refine (bool_decide_unpack _ _). vm_compute. exact I.
  - vm_compute. reflexivity.
Defined.

(** ** The registry, when display file names are unique *)

(** X25. The registry says who is downloading, provided no two discovered
    episodes have the same display file name: at every moment its keys are
    exactly the display file names of the downloads that are in progress
    (a worker between the release of line 68 and the deletion of line 84) or
    that a worker died on. *)
Theorem registry_is_exact E W fs σ k :
  reachable E W fs σ →
  NoDup (display_filename <$> discovered E) →
  k ∈ dict_keys (currently_downloading σ) ↔
  ∃ n pc, pc_workers σ !! n = Some pc ∧ registered pc = Some k.
Proof.
  intros Hr Hnd. destruct (reachable_registry_exact E W fs σ Hnd Hr) as [H1 H2].
  split; [apply H2|]. intros (n & pc & Hn & Hk). by eapply H1.
Qed.

Lemma registry_is_exact_witness :
  let σ := run world_ok sched_grown (init world_ok 2 ∅) in
  "intro.mp3"%string ∈ dict_keys (currently_downloading σ) ↔
  ∃ n pc, pc_workers σ !! n = Some pc ∧ registered pc = Some "intro.mp3"%string.
Proof.
  apply (registry_is_exact world_ok 2 ∅).
  - by exists sched_grown.
  - refine (bool_decide_unpack _ _). vm_compute. exact I.
Defined.

(** X26. [del] on line 84 finds its key, provided no two discovered
    episodes have the same display file name: a worker that comes to the
    deletion deletes the entry and goes on to release the lock. *)
Theorem del_finds_its_key E W fs σ n i :
  reachable E W fs σ →
  NoDup (display_filename <$> discovered E) →
  pc_workers σ !! n = Some (WDelete i) →
  ∃ d, dict_del (display_filename i) (currently_downloading σ) = Some d ∧
       step E (Worker n) σ =
         emit (Worker n) (EvDel (display_filename i))
           (set_downloading d (set_worker n (WRelease2 i) σ)).
Proof.
  intros Hr Hnd Hn.
  destruct (reachable_registry_exact E W fs σ Hnd Hr) as [H1 _].
  destruct (dict_del_present (display_filename i) (currently_downloading σ)) as [d Hd].
  { by eapply H1. }
  exists d. split; [done|]. simpl. rewrite Hn. simpl. by rewrite Hd.
Qed.

Lemma del_finds_its_key_witness :
  let σ := run world_ok sched_deleting (init world_ok 1 ∅) in
  ∃ d, dict_del (display_filename task1) (currently_downloading σ) = Some d ∧
       step world_ok (Worker 0) σ =
         emit (Worker 0) (EvDel (display_filename task1))
           (set_downloading d (set_worker 0 (WRelease2 task1) σ)).
Proof.
  apply (del_finds_its_key world_ok 1 ∅ _ 0%nat task1).
  - by exists sched_deleting.
  - refine (bool_decide_unpack _ _). vm_compute. exact I.
  - vm_compute. reflexivity.
Defined.

(** ** When nothing goes wrong *)

(** X27. No worker dies when nothing goes wrong: if every request is
    answered with a success status, a content-length that [int] accepts (so
    of at most 4300 digits) and that is positive, and a body of exactly
    that many bytes over a connection that does not break off, the disk
    accepts every file, every write and every close, and no two discovered
    episodes have the same display file name, then no statement of any
    worker ever raises; in particular the lock is never held by a dead
    thread. *)
Theorem no_worker_dies E W fs σ n pc :
  reachable E W fs σ →
  reliable E →
  NoDup (display_filename <$> discovered E) →
  pc_workers σ !! n = Some pc →
  has_raised pc = false.
Proof.
  intros Hr HE Hnd Hn.
  pose proof (reachable_alive E W fs σ HE Hnd Hr) as Hall.
  eapply Forall_lookup_1 in Hall; [|done]. by destruct pc.
Qed.

Lemma no_worker_dies_witness :
  has_raised (WFor task1 20 20 []) = false.
Proof.
  apply (no_worker_dies world_ok 1 ∅
           (run world_ok (sched_streaming ++ replicate 6 (Worker 0)) (init world_ok 1 ∅))
           0%nat).
  - by eexists.
  - split_and!; [|done|done|done]. intros u. eexists. split; [reflexivity|].
    split; [reflexivity|]. split; [|reflexivity].
    exists 20. split; [reflexivity|]. split; [lia|].
    vm_compute. reflexivity.
  - refine (bool_decide_unpack _ _). vm_compute. exact I.
  - vm_compute. reflexivity.
Defined.

(** ** A block that vanishes *)

(** X28. A repaint with an empty registry after a block of [k] lines: one
    round of the renderer only moves the cursor up to where the old block
    began; it prints no line, so the old block stays on the screen as it
    was, and the renderer forgets it (the next round moves the cursor no
    further and paints from there). *)
Theorem repaint_empty_registry E σ s rws r :
  pc_info σ = RWhile s →
  finish σ = false →
  lock σ = None →
  currently_downloading σ = [] →
  let k := count_newlines s in
  (0 < k)%nat →
  new_output σ (tick E σ) = cursor_up k ∧
  feed (Terminal rws r 0 Ground) (new_output σ (tick E σ)) =
    Terminal rws (r - k) 0 Ground ∧
  pc_info (tick E σ) = RWhile EmptyString.
Proof.
  intros Hpc Hfin Hlock Hd k Hk.
  destruct (tick_state E σ s Hpc Hfin Hlock) as (Hpc' & _).
  rewrite (tick_output E σ s) by done. fold k. rewrite Hd in *. simpl in *.
  destruct (Nat.eqb_spec k 0) as [|_]; [lia|].
  rewrite str_app_nil_r. split_and!; [done| |done].
  by apply feed_cursor_up.
Qed.

Lemma repaint_empty_registry_witness :
  let σ := run world_ok sched_emptied (init world_ok 2 ∅) in
  new_output σ (tick world_ok σ) = cursor_up 2 ∧
  feed (screen σ) (new_output σ (tick world_ok σ)) =
    Terminal (list_ascii_of_string <$>
                ["Downloading intro.mp3... 0%"; ""; ""]%string) 0 0 Ground ∧
  pc_info (tick world_ok σ) = RWhile EmptyString.
Proof.
  intros σ.
  assert (∃ s, pc_info σ = RWhile s ∧ count_newlines s = 2%nat) as (s & Hpc & Hk).
  { eexists. split; vm_compute; reflexivity. }
  assert (finish σ = false) as Hfin by (vm_compute; reflexivity).
  assert (lock σ = None) as Hlock by (vm_compute; reflexivity).
  assert (currently_downloading σ = []) as Hd by (vm_compute; reflexivity).
  pose proof (repaint_empty_registry world_ok σ s (rows (screen σ)) 2%nat
                Hpc Hfin Hlock Hd) as H.
  cbv zeta in H. rewrite Hk in H.
  destruct H as (H1 & H2 & H3); [lia|].
  split_and!; [exact H1| |exact H3].
  etrans; [|etrans; [exact H2|]]; vm_compute; reflexivity.
Defined.

(** ** A body that was declared empty *)

(** X29. A declared length of zero is only safe with an empty body: a
    worker at the head of its loop with a chunk to come and a declared
    length of zero writes the chunk to the file and then dies of the
    division of line 78 (ZeroDivisionError), outside the lock, with its
    registry entry and its task left as they are. *)
Theorem declared_empty_body_kills E σ n i w c cs :
  pc_workers σ !! n = Some (WFor i 0 w (c :: cs)) →
  write_fails E (filename i) w = false →
  let σ' := solo E (Worker n) 3 σ in
  pc_workers σ' !! n = Some (WRaised i ZeroDivisionError) ∧
  files σ' = file_append (filename i) c (files σ) ∧
  currently_downloading σ' = currently_downloading σ ∧
  lock σ' = lock σ ∧
  unfinished_tasks σ' = unfinished_tasks σ.
Proof.
  intros Hpc Hw σ'. subst σ'. rewrite (solo_chunk_zero E σ n i w c cs Hpc Hw).
  simpl. split_and!; try done.
  apply list_lookup_insert_eq. by eapply lookup_lt_Some.
Qed.

Lemma declared_empty_body_kills_witness :
  let σ := run world_declared_empty sched_streaming (init world_declared_empty 1 ∅) in
  let σ' := solo world_declared_empty (Worker 0) 3 σ in
  pc_workers σ' !! 0%nat = Some (WRaised task1 ZeroDivisionError) ∧
  files σ' = file_append (filename task1) (payload 20) (files σ) ∧
  currently_downloading σ' = currently_downloading σ ∧
  lock σ' = lock σ ∧
  unfinished_tasks σ' = unfinished_tasks σ.
Proof.
  apply (declared_empty_body_kills world_declared_empty _ 0%nat task1 0 (payload 20) []).
  - vm_compute. reflexivity.
  - reflexivity.
Defined.

(** ** A run to the end *)

(** X30. The program can run to its end: when the discovery ends without
    an exception, nothing goes wrong with the downloads (every request is
    answered with a success status, a content-length that [int] accepts
    and that is positive, and a body of exactly that many bytes over a
    connection that does not break off, and the disk accepts every file,
    write and close) and there is at least one worker, then on the schedule
    that lets the main thread enqueue everything, one worker download
    everything, and the threads end one after the other, [main] returns. *)
Theorem program_can_finish E W fs :
  reliable E → discovery_end E = None → (0 < W)%nat →
  ∃ sched, pc_main (run E sched (init E W fs)) = MReturn.
Proof.
  intros HE Hend HW. destruct (run_to_the_end E W fs HE Hend HW) as (k1 & k2 & H).
  by exists (sched_sequential W k1 k2).
Qed.

Lemma program_can_finish_witness :
  ∃ sched, pc_main (run world_ok sched (init world_ok 8 ∅)) = MReturn.
Proof.
  apply (program_can_finish world_ok 8 ∅); [|done|lia].
  split_and!; [|done|done|done]. intros u. eexists. split; [reflexivity|].
  split; [reflexivity|]. split; [|reflexivity].
  exists 20. split; [reflexivity|]. split; [lia|].
  vm_compute. reflexivity.
Defined.
